(** * Slab: the storage substrate of unbase (old/js/lib/slab.js)

    A shallow embedding of [Slab] and of the functions the specification
    talks about, followed by the properties we could settle on it.

    Modelling conventions.
    - A JavaScript object used as a dictionary is a [gmap] with string keys.
      Keys that collide with properties inherited from [Object.prototype]
      (such as "constructor") are outside the model.
    - A dictionary whose key order is observed ([Object.keys]) is an
      association list in insertion order; keys that look like array indices,
      which JavaScript lists first, are outside the model.
    - A string is kept as the bytes of its UTF-8 encoding; [js_length]
      counts its UTF-16 code units, as [.length] does.
    - A memo object is a value [Memo] carrying its immutable attributes; the
      mutable fields the slab writes on it ([_newer], [_older]) live in a
      store keyed by the memo's id.  There is one memo object per id.
    - Calls into collaborators (mesh, record observers, console, the memo's
      [evicting] method) are recorded, in order, in a trace.
    - A promise that is already settled when a reaction is attached queues
      the reaction as a microtask; [drain] runs the queue, in order. *)

From stdpp Require Import gmap strings list fin_maps.
From Stdlib Require Import ZArith.

Local Open Scope Z_scope.

(** ** Data model *)

(** The attributes of a memo that the slab reads. *)
Record Memo := mkMemo {
  memo_id : string;
  rid : string;
  parents : list string;
  desiredReplicas : Z;
}.

(** The LRU fields the slab writes on a memo object. *)
Record Links := mkLinks {
  _newer : option Memo;
  _older : option Memo;
}.

(** A subscribed record observer: an object with an [id]; [handle] stands
    for its identity. *)
Record RecordObj := mkRecordObj {
  record_id : string;
  handle : nat;
}.

#[global] Instance RecordObj_eq_dec : EqDecision RecordObj.
Proof. solve_decision. Defined.

(** [ref_peerings[x]]: [{ memos: [], remotes: {} }]. *)
Record RefPeering := mkRefPeering {
  memos : list string;
  remotes : list (string * Z);
}.

(** What JavaScript throws. *)
Inductive Exn :=
| TypeError
| Thrown (msg : string).

(** How a call completes. *)
Inductive Completion (A : Type) :=
| Return (a : A)
| Throw (e : Exn).
Arguments Return {A} a.
Arguments Throw {A} e.

(** The state of a promise once its executor has run: fulfilled with
    [undefined] ([None]) or with a boolean, or rejected. *)
Inductive PromiseState :=
| Fulfilled (value : option bool)
| Rejected (e : Exn).

(** Calls that leave the slab. *)
Inductive Event :=
| RegisterSlab (slab : string)
| SendPeeringChanges (from : string) (changes : list (string * list (string * Z)))
| GetAcceptingSlabIDs (exclusions : list string) (desired : Z)
| PushMemoToSlab (from to memo : string)
| AddedMemos (r : RecordObj) (memo_ids : list string)
| Evicting (memo : string) (flag : bool)
| ConsoleError (msg : string)
| UnhandledRejection (e : Exn).

(** The mesh answers [getAcceptingSlabIDs]; its other methods only appear
    in the trace. *)
Record Mesh := mkMesh {
  getAcceptingSlabIDs : list string → Z → list string;
}.

Record Slab := mkSlab {
  this_id : string;
  child_increment : Z;
  _memos_by_id : gmap string Memo;
  _memo_ids_by_parent : gmap string string;
  _memo_ids_by_record : gmap string (list string);
  _records_by_id : gmap string (list RecordObj);
  this_size : Z;
  quota : Z;
  limit : Z;
  mesh : Mesh;
  local_peerings : gmap string (list string);
  ref_peerings : gmap string RefPeering;
  this_head : option Memo;
  this_tail : option Memo;
}.

(** Reactions waiting in the microtask queue. *)
Inductive Task :=
| ThenKill (p : PromiseState) (memo : Memo)
| CatchLog (p : PromiseState).

Record World := mkWorld {
  slab : Slab;
  links : gmap string Links;
  trace : list Event;
  microtasks : list Task;
}.

(** ** Field updates *)

Definition set_memos_by_id (f : gmap string Memo → gmap string Memo) (s : Slab) : Slab :=
  mkSlab (this_id s) (child_increment s) (f (_memos_by_id s)) (_memo_ids_by_parent s)
    (_memo_ids_by_record s) (_records_by_id s) (this_size s) (quota s) (limit s) (mesh s)
    (local_peerings s) (ref_peerings s) (this_head s) (this_tail s).

Definition set_memo_ids_by_parent (f : gmap string string → gmap string string) (s : Slab) : Slab :=
  mkSlab (this_id s) (child_increment s) (_memos_by_id s) (f (_memo_ids_by_parent s))
    (_memo_ids_by_record s) (_records_by_id s) (this_size s) (quota s) (limit s) (mesh s)
    (local_peerings s) (ref_peerings s) (this_head s) (this_tail s).

Definition set_memo_ids_by_record (f : gmap string (list string) → gmap string (list string))
    (s : Slab) : Slab :=
  mkSlab (this_id s) (child_increment s) (_memos_by_id s) (_memo_ids_by_parent s)
    (f (_memo_ids_by_record s)) (_records_by_id s) (this_size s) (quota s) (limit s) (mesh s)
    (local_peerings s) (ref_peerings s) (this_head s) (this_tail s).

Definition set_records_by_id (f : gmap string (list RecordObj) → gmap string (list RecordObj))
    (s : Slab) : Slab :=
  mkSlab (this_id s) (child_increment s) (_memos_by_id s) (_memo_ids_by_parent s)
    (_memo_ids_by_record s) (f (_records_by_id s)) (this_size s) (quota s) (limit s) (mesh s)
    (local_peerings s) (ref_peerings s) (this_head s) (this_tail s).

Definition set_size (f : Z → Z) (s : Slab) : Slab :=
  mkSlab (this_id s) (child_increment s) (_memos_by_id s) (_memo_ids_by_parent s)
    (_memo_ids_by_record s) (_records_by_id s) (f (this_size s)) (quota s) (limit s) (mesh s)
    (local_peerings s) (ref_peerings s) (this_head s) (this_tail s).

Definition set_local_peerings (f : gmap string (list string) → gmap string (list string))
    (s : Slab) : Slab :=
  mkSlab (this_id s) (child_increment s) (_memos_by_id s) (_memo_ids_by_parent s)
    (_memo_ids_by_record s) (_records_by_id s) (this_size s) (quota s) (limit s) (mesh s)
    (f (local_peerings s)) (ref_peerings s) (this_head s) (this_tail s).

Definition set_ref_peerings (f : gmap string RefPeering → gmap string RefPeering)
    (s : Slab) : Slab :=
  mkSlab (this_id s) (child_increment s) (_memos_by_id s) (_memo_ids_by_parent s)
    (_memo_ids_by_record s) (_records_by_id s) (this_size s) (quota s) (limit s) (mesh s)
    (local_peerings s) (f (ref_peerings s)) (this_head s) (this_tail s).

Definition set_head (h : option Memo) (s : Slab) : Slab :=
  mkSlab (this_id s) (child_increment s) (_memos_by_id s) (_memo_ids_by_parent s)
    (_memo_ids_by_record s) (_records_by_id s) (this_size s) (quota s) (limit s) (mesh s)
    (local_peerings s) (ref_peerings s) h (this_tail s).

Definition set_tail (t : option Memo) (s : Slab) : Slab :=
  mkSlab (this_id s) (child_increment s) (_memos_by_id s) (_memo_ids_by_parent s)
    (_memo_ids_by_record s) (_records_by_id s) (this_size s) (quota s) (limit s) (mesh s)
    (local_peerings s) (ref_peerings s) (this_head s) t.

(** ** The monad of slab methods: state that survives a throw *)

Definition M (A : Type) : Type := World → World * Completion A.

#[global] Instance M_ret : MRet M := λ A a w, (w, Return a).

#[global] Instance M_bind : MBind M := λ A B f m w,
  match m w with
  | (w', Return a) => f a w'
  | (w', Throw e) => (w', Throw e)
  end.

Definition throw {A} (e : Exn) : M A := λ w, (w, Throw e).

Definition this : M Slab := λ w, (w, Return (slab w)).

Definition update (f : Slab → Slab) : M unit :=
  λ w, (mkWorld (f (slab w)) (links w) (trace w) (microtasks w), Return tt).

Definition emit (e : Event) : M unit :=
  λ w, (mkWorld (slab w) (links w) (trace w ++ [e]) (microtasks w), Return tt).

Definition enqueue (t : Task) : M unit :=
  λ w, (mkWorld (slab w) (links w) (trace w) (microtasks w ++ [t]), Return tt).

(** [xs.forEach(body)]: a throw ends the loop. *)
Fixpoint forEach {A} (xs : list A) (body : A → M unit) : M unit :=
  match xs with
  | [] => mret tt
  | x :: rest => body x ≫= λ _, forEach rest body
  end.

(** Reading and writing the LRU fields of a memo object; a field that was
    never written is [undefined]. *)
Definition newer_of (h : gmap string Links) (memo : Memo) : option Memo :=
  h !! memo_id memo ≫= _newer.

Definition older_of (h : gmap string Links) (memo : Memo) : option Memo :=
  h !! memo_id memo ≫= _older.

Definition upd_newer (memo : Memo) (v : option Memo) (h : gmap string Links) :
    gmap string Links :=
  <[memo_id memo := mkLinks v (older_of h memo)]> h.

Definition upd_older (memo : Memo) (v : option Memo) (h : gmap string Links) :
    gmap string Links :=
  <[memo_id memo := mkLinks (newer_of h memo) v]> h.

Definition get_newer (memo : Memo) : M (option Memo) :=
  λ w, (w, Return (newer_of (links w) memo)).

Definition get_older (memo : Memo) : M (option Memo) :=
  λ w, (w, Return (older_of (links w) memo)).

Definition set_newer (memo : Memo) (v : option Memo) : M unit :=
  λ w, (mkWorld (slab w) (upd_newer memo v (links w)) (trace w) (microtasks w), Return tt).

Definition set_older (memo : Memo) (v : option Memo) : M unit :=
  λ w, (mkWorld (slab w) (upd_older memo v (links w)) (trace w) (microtasks w), Return tt).

(** [a === b] on memo objects. *)
Definition same_memo (a : Memo) (b : option Memo) : bool :=
  match b with
  | Some b => bool_decide (memo_id a = memo_id b)
  | None => false
  end.

(** ** Dictionaries with observable key order *)

Fixpoint alist_get {V} (k : string) (l : list (string * V)) : option V :=
  match l with
  | [] => None
  | (k', v) :: rest => if bool_decide (k = k') then Some v else alist_get k rest
  end.

(** [o[k] = v]: an existing key keeps its place, a new key goes last. *)
Fixpoint alist_set {V} (k : string) (v : V) (l : list (string * V)) : list (string * V) :=
  match l with
  | [] => [(k, v)]
  | (k', v') :: rest =>
      if bool_decide (k = k') then (k, v) :: rest else (k', v') :: alist_set k v rest
  end.

(** Truthiness of a peer state read from a dictionary, and of a string. *)
Definition truthy_state (o : option Z) : bool :=
  match o with
  | Some z => negb (z =? 0)
  | None => false
  end.

Definition truthy_string (o : option string) : bool :=
  match o with
  | Some s => negb (bool_decide (s = ""%string))
  | None => false
  end.

(** [var change = changes[remote] = changes[remote] || {}; change[memo_id] = state] *)
Definition record_change (memo_i : string) (state : Z)
    (changes : list (string * list (string * Z))) (remote_slab_id : string) :
    list (string * list (string * Z)) :=
  alist_set remote_slab_id
    (alist_set memo_i state (default [] (alist_get remote_slab_id changes))) changes.

(** ** Peering registry *)

(** The inner loop of [updateMemoPeerings], over the remotes of one
    referenced memo. *)
Definition note_remote (me memo_i : string)
    (acc : RefPeering * list (string * list (string * Z))) (entry : string * Z) :
    RefPeering * list (string * list (string * Z)) :=
  let '(r, changes) := acc in
  let '(remote_slab_id, peer_state) := entry in
  if bool_decide (remote_slab_id ≠ me)
     && negb (truthy_state (alist_get remote_slab_id (remotes r)))
  then (mkRefPeering (memos r) (alist_set remote_slab_id peer_state (remotes r)),
        record_change memo_i peer_state changes remote_slab_id)
  else acc.

(** The outer loop of [updateMemoPeerings], one referenced memo. *)
Definition note_ref (memo_i : string)
    (acc : Slab * list (string * list (string * Z)))
    (entry : string * list (string * Z)) : Slab * list (string * list (string * Z)) :=
  let '(s, changes) := acc in
  let '(ref_memo_id, states) := entry in
  let refs := default [] (local_peerings s !! memo_i) in
  let s1 :=
    if bool_decide (ref_memo_id ∈ refs) then s
    else set_local_peerings (<[memo_i := refs ++ [ref_memo_id]]>) s in
  let r0 := default (mkRefPeering [] []) (ref_peerings s1 !! ref_memo_id) in
  let r1 :=
    if bool_decide (memo_i ∈ memos r0) then r0
    else mkRefPeering (memos r0 ++ [memo_i]) (remotes r0) in
  let '(r2, changes') := foldl (note_remote (this_id s) memo_i) (r1, changes) states in
  (set_ref_peerings (<[ref_memo_id := r2]>) s1, changes').

Definition updateMemoPeerings (memo : Memo) (peerings : list (string * list (string * Z)))
    (silent : bool) : M unit :=
  update (set_local_peerings
            (λ lp, <[memo_id memo := default [] (lp !! memo_id memo)]> lp));;
  s ← this;
  let '(s', changes) := foldl (note_ref (memo_id memo)) (s, []) peerings in
  update (λ _, s');;
  if negb silent && negb (bool_decide (changes = []))
  then emit (SendPeeringChanges (this_id s) changes)
  else mret tt.

Definition registerMemoPeering (memo : Memo) (ref_memo_id remote_slab_id : string)
    (peer_state : Z) (silent : bool) : M unit :=
  updateMemoPeerings memo [(ref_memo_id, [(remote_slab_id, peer_state)])] silent.

(** The loop of [deregisterPeeringForMemo]; [r.memos] on a missing entry
    throws and leaves what was done so far. *)
Fixpoint deregister_refs (memo_i : string) (refs : list string) (s : Slab)
    (changes : list (string * list (string * Z))) :
    Slab * list (string * list (string * Z)) * option Exn :=
  match refs with
  | [] => (s, changes, None)
  | ref_memo_id :: rest =>
      match ref_peerings s !! ref_memo_id with
      | None => (s, changes, Some TypeError)
      | Some r =>
          let ms := filter (λ i, i ≠ memo_i) (memos r) in
          if bool_decide (ms = [])
          then deregister_refs memo_i rest
                 (set_ref_peerings (delete ref_memo_id) s)
                 (foldl (record_change memo_i 0) changes (remotes r).*1)
          else deregister_refs memo_i rest
                 (set_ref_peerings (<[ref_memo_id := mkRefPeering ms (remotes r)]>) s)
                 changes
      end
  end.

Definition deregisterPeeringForMemo (memo : Memo) : M unit :=
  s ← this;
  let refs := default [] (local_peerings s !! memo_id memo) in
  match deregister_refs (memo_id memo) refs s [] with
  | (s', _, Some e) => update (λ _, s');; throw e
  | (s', changes, None) =>
      update (λ _, set_local_peerings (delete (memo_id memo)) s');;
      emit (SendPeeringChanges (this_id s) changes)
  end.

(** [getMemoPeers]: [None] is JavaScript's [null]. *)
Definition getMemoPeers (s : Slab) (memo_i : string) (has_memo : bool) : option (list string) :=
  match ref_peerings s !! memo_i with
  | None => None
  | Some r =>
      Some (if has_memo
            then (filter (λ e, e.2 = 2) (remotes r)).*1
            else (filter (λ e, e.2 ≠ 0) (remotes r)).*1)
  end.

(** ** Replication guard *)

(** The promise is settled by the first call of [success] or by a throw of
    the executor, whichever comes first; the executor runs to its end (or to
    its throw) either way. *)
Definition checkMemoReplicationFactor (memo : Memo) : M PromiseState :=
  s ← this;
  let desired := desiredReplicas memo in
  let settled := if desired <=? 0 then Some (Fulfilled None) else None in
  match getMemoPeers s (memo_id memo) true with
  | None => mret (default (Rejected TypeError) settled)
  | Some peers =>
      let exclusions := peers ++ [this_id s] in
      emit (GetAcceptingSlabIDs exclusions desired);;
      forEach (getAcceptingSlabIDs (mesh s) exclusions desired)
        (λ to_slab_id, emit (PushMemoToSlab (this_id s) to_slab_id (memo_id memo)));;
      mret (default (Fulfilled (Some true)) settled)
  end.

(** ** Removing a memo *)

(** A method argument that is a memo id or a memo object. *)
Inductive MemoArg :=
| ById (i : string)
| ByObj (memo : Memo).

(** [if (typeof memo == 'string') memo = this._memos_by_id[memo]] *)
Definition resolve (s : Slab) (arg : MemoArg) : option Memo :=
  match arg with
  | ById i => _memos_by_id s !! i
  | ByObj memo => Some memo
  end.

(** [a.indexOf(x)] followed by [a.splice(index, 1)]: an index of -1 counts
    from the end, so a missing [x] removes the last element. *)
Fixpoint remove_first (x : string) (a : list string) : option (list string) :=
  match a with
  | [] => None
  | y :: rest =>
      if bool_decide (x = y) then Some rest
      else (y ::.) <$> remove_first x rest
  end.

Definition splice_indexOf (x : string) (a : list string) : list string :=
  match remove_first x a with
  | Some a' => a'
  | None => removelast a
  end.

Definition killMemo (arg : MemoArg) : M unit :=
  s ← this;
  match resolve s arg with
  | None => emit (ConsoleError "invalid memo")
  | Some memo =>
      match _memos_by_id s !! memo_id memo with
      | None => emit (ConsoleError "invalid memo")
      | Some _ =>
          if bool_decide (is_Some (_records_by_id s !! rid memo))
             && negb (truthy_string (_memo_ids_by_parent s !! memo_id memo))
          then mret tt (* abort *)
          else
            update (set_memos_by_id (delete (memo_id memo)));;
            match _memo_ids_by_record s !! rid memo with
            | None => throw TypeError
            | Some mbr =>
                update (set_memo_ids_by_record
                          (<[rid memo := splice_indexOf (memo_id memo) mbr]>))
            end;;
            forEach (parents memo) (λ parent_id,
              s ← this;
              match _memo_ids_by_parent s !! parent_id with
              | None => throw TypeError (* ref is undefined *)
              | Some ref => throw TypeError (* ref is a string: it has no splice *)
              end);;
            deregisterPeeringForMemo memo;;
            newer ← get_newer memo;
            older ← get_older memo;
            match newer, older with
            | Some n, Some o => set_newer o (Some n);; set_older n (Some o)
            | Some n, None => set_older n None;; update (set_head (Some n))
            | None, Some o => set_newer o None;; update (set_tail (Some o))
            | None, None => update (set_head None);; update (set_tail None)
            end;;
            update (set_size (λ n, n - 1))
      end
  end.

(** ** Eviction *)

Definition evictMemo (arg : MemoArg) : M unit :=
  s ← this;
  match resolve s arg with
  | None => throw (Thrown "attempted to evict invalid memo")
  | Some memo =>
      emit (Evicting (memo_id memo) true);;
      p ← checkMemoReplicationFactor memo;
      enqueue (ThenKill p memo)
  end.

(** [while (memo && ct--) { this.evictMemo(memo); memo = memo._newer; }] *)
Fixpoint evict_loop (ct : nat) (memo : option Memo) : M unit :=
  match memo, ct with
  | Some m, S ct' => evictMemo (ByObj m);; newer ← get_newer m; evict_loop ct' newer
  | _, _ => mret tt
  end.

Definition evictMemos : M unit :=
  s ← this;
  let ct := this_size s - quota s in
  if ct <=? 0 then mret tt else evict_loop (Z.to_nat ct) (this_head s).

(** ** Storing and reading memos *)

Definition putMemo (memo : Memo) : M unit :=
  s ← this;
  match _memos_by_id s !! memo_id memo with
  | Some _ => mret tt
  | None =>
      update (set_memos_by_id (<[memo_id memo := memo]>));;
      update (set_memo_ids_by_record
                (λ m, <[rid memo := default [] (m !! rid memo) ++ [memo_id memo]]> m));;
      forEach (parents memo) (λ parent_id,
        update (set_memo_ids_by_parent (<[parent_id := memo_id memo]>)));;
      forEach (default [] (_records_by_id s !! rid memo)) (λ r,
        emit (AddedMemos r [memo_id memo]));;
      match this_tail s with
      | Some t => set_newer t (Some memo);; set_older memo (Some t)
      | None => update (set_head (Some memo))
      end;;
      update (set_tail (Some memo));;
      (if bool_decide (this_size s = limit s)
       then evictMemos
       else update (set_size (λ n, n + 1)));;
      registerMemoPeering memo (memo_id memo) (this_id s) 2 false;;
      p ← checkMemoReplicationFactor memo;
      enqueue (CatchLog p)
  end.

Definition getMemo (i : string) : M (option Memo) :=
  s ← this;
  match _memos_by_id s !! i with
  | None => mret None
  | Some memo =>
      if same_memo memo (this_tail s) then mret (Some memo)
      else
        newer ← get_newer memo;
        match newer with
        | Some n =>
            (if same_memo memo (this_head s) then update (set_head (Some n)) else mret tt);;
            older ← get_older memo;
            set_older n older
        | None => mret tt
        end;;
        older ← get_older memo;
        match older with
        | Some o => newer ← get_newer memo; set_newer o newer
        | None => mret tt
        end;;
        set_newer memo None;;
        set_older memo (this_tail s);;
        match this_tail s with
        | Some t => set_newer t (Some memo)
        | None => mret tt
        end;;
        update (set_tail (Some memo));;
        mret (Some memo)
  end.

Definition hasMemosForRecord (s : Slab) (record_id : string) : bool :=
  match _memo_ids_by_record s !! record_id with
  | Some (_ :: _) => true
  | _ => false
  end.

(** The [forEach] of [getHeadMemosForRecord]; [memo.id] on a memo that
    [getMemo] did not find throws. *)
Fixpoint head_loop (ids : list string) (head : list Memo) : M (list Memo) :=
  match ids with
  | [] => mret head
  | i :: rest =>
      found ← getMemo i;
      match found with
      | None => throw TypeError
      | Some memo =>
          s ← this;
          if negb (truthy_string (_memo_ids_by_parent s !! memo_id memo))
          then head_loop rest (head ++ [memo])
          else head_loop rest head
      end
  end.

Definition getHeadMemosForRecord (record_id : string) : M (list Memo) :=
  s ← this;
  head_loop (default [] (_memo_ids_by_record s !! record_id)) [].

Definition getHeadMemoIDsForRecord (record_id : string) : M (list string) :=
  heads ← getHeadMemosForRecord record_id;
  mret (memo_id <$> heads).

Definition subscribeRecord (record : RecordObj) : M unit :=
  update (set_records_by_id (λ m,
    let records := default [] (m !! record_id record) in
    <[record_id record :=
        if bool_decide (record ∈ records) then records else records ++ [record]]> m)).

(** ** Microtasks *)

Definition truthy_value (v : option bool) : bool :=
  match v with
  | Some true => true
  | _ => false
  end.

(** A queued reaction.  [ThenKill] is the callback [evictMemo] attaches with
    [then]: it kills on a truthy value; nothing handles a rejection or a throw
    of the callback.  [CatchLog] is the handler [putMemo] attaches with
    [catch]. *)
Definition run_task (t : Task) : M unit :=
  match t with
  | ThenKill (Fulfilled v) memo =>
      if truthy_value v
      then λ w,
        match killMemo (ByObj memo) w with
        | (w', Return _) => (w', Return tt)
        | (w', Throw e) => emit (UnhandledRejection e) w'
        end
      else mret tt
  | ThenKill (Rejected e) _ => emit (UnhandledRejection e)
  | CatchLog (Rejected e) => emit (ConsoleError "TypeError")
  | CatchLog (Fulfilled _) => mret tt
  end.

(** Run the queued reactions in order; none of them queues another. *)
Definition drain (w : World) : World :=
  foldl (λ w t, (run_task t w).1)
    (mkWorld (slab w) (links w) (trace w) []) (microtasks w).

(** A call from the event loop: the method, then its microtasks. *)
Definition call {A} (m : M A) (w : World) : World := drain (m w).1.

(** ** Construction *)

Record SlabArgs := mkSlabArgs {
  args_id : option string;
  args_mesh : option Mesh;
  args_quota : option Z;
  args_limit : option Z;
}.

(** [args.quota || 5] *)
Definition or_else (o : option Z) (d : Z) : Z :=
  match o with
  | Some v => if v =? 0 then d else v
  | None => d
  end.

(** [s.length] counts UTF-16 code units.  Of the bytes of the UTF-8
    encoding, one that starts a code point counts one unit, or two when it
    starts a four-byte sequence (a code point above U+FFFF, a surrogate pair
    in JavaScript); a continuation byte counts none. *)
Definition utf16_units (c : Ascii.ascii) : nat :=
  match c with
  | Ascii.Ascii _ _ _ _ b4 b5 b6 b7 =>
      if negb b7 then 1%nat
      else if negb b6 then 0%nat
      else if b5 && b4 then 2%nat
      else 1%nat
  end.

Fixpoint js_length (s : string) : nat :=
  match s with
  | EmptyString => 0%nat
  | String c s' => (utf16_units c + js_length s')%nat
  end.

(** [new Slab(args)] with the module variable [slab_increment]; [args] is
    [None] when it is not an object.  The result carries the module variable
    as the constructor leaves it. *)
Definition new_Slab (slab_increment : Z) (args : option SlabArgs) : Z * Completion World :=
  if 1296 <? slab_increment
  then (slab_increment, Throw (Thrown "cannot create more than 1296 slabs"))
  else
    match args with
    | None => (slab_increment, Throw (Thrown "must provide args"))
    | Some a =>
        match args_id a, args_mesh a with
        | None, _ => (slab_increment, Throw (Thrown "must provide slab id"))
        | Some i, None =>
            if bool_decide (i = ""%string)
            then (slab_increment, Throw (Thrown "must provide slab id"))
            else (slab_increment, Throw (Thrown "must provide mesh object"))
        | Some i, Some m =>
            if bool_decide (i = ""%string)
            then (slab_increment, Throw (Thrown "must provide slab id"))
            else if bool_decide (js_length i ≠ 1%nat)
            then (slab_increment, Throw (Thrown ("sanity error " +:+ i)))
            else
              (slab_increment,
               Return (mkWorld
                 (mkSlab i 0 ∅ ∅ ∅ ∅ 0 (or_else (args_quota a) 5)
                    (or_else (args_limit a) 10) m ∅ ∅ None None)
                 ∅ [RegisterSlab i] []))
        end
    end.

(** A process that constructs slabs one after the other. *)
Fixpoint construct_all (slab_increment : Z) (argss : list (option SlabArgs)) :
    Z * list (Completion World) :=
  match argss with
  | [] => (slab_increment, [])
  | args :: rest =>
      let '(n, r) := new_Slab slab_increment args in
      let '(n', rs) := construct_all n rest in
      (n', r :: rs)
  end.

(** ** The LRU list behind the links *)

(** [chain h prev o next]: the memo objects of [o] are linked in this order;
    the first one's [_older] is [prev], the last one's [_newer] is [next]. *)
Fixpoint chain (h : gmap string Links) (prev : option Memo) (o : list Memo)
    (next : option Memo) : Prop :=
  match o with
  | [] => True
  | m :: rest =>
      older_of h m = prev
      ∧ newer_of h m = from_option Some next (head rest)
      ∧ chain h (Some m) rest next
  end.

(** [lru_repr w o]: the slab's LRU list is [o], least recently used first. *)
Definition lru_repr (w : World) (o : list Memo) : Prop :=
  NoDup (memo_id <$> o)
  ∧ this_head (slab w) = head o
  ∧ this_tail (slab w) = last o
  ∧ chain (links w) None o None.

(** [getMemo i] on the list: the memo with id [i] goes last. *)
Definition promote (i : string) (o : list Memo) : list Memo :=
  filter (λ x, memo_id x ≠ i) o ++ filter (λ x, memo_id x = i) o.

(** What [checkMemoReplicationFactor] adds to the trace, and how it settles
    the promise, as functions of the slab. *)
Definition replication_events (s : Slab) (memo : Memo) : list Event :=
  match getMemoPeers s (memo_id memo) true with
  | None => []
  | Some peers =>
      GetAcceptingSlabIDs (peers ++ [this_id s]) (desiredReplicas memo)
      :: ((λ t, PushMemoToSlab (this_id s) t (memo_id memo))
            <$> getAcceptingSlabIDs (mesh s) (peers ++ [this_id s]) (desiredReplicas memo))
  end.

Definition replication_promise (s : Slab) (memo : Memo) : PromiseState :=
  if desiredReplicas memo <=? 0 then Fulfilled None
  else match getMemoPeers s (memo_id memo) true with
       | None => Rejected TypeError
       | Some _ => Fulfilled (Some true)
       end.

(** Resident memos, as a predicate on ids. *)
Definition resident (w : World) (i : string) : Prop :=
  is_Some (_memos_by_id (slab w) !! i).

(** A resident memo cites [i] as a parent. *)
Definition cited (w : World) (i : string) : Prop :=
  ∃ k c, _memos_by_id (slab w) !! k = Some c ∧ i ∈ parents c.

(** ** Notions used in the statements *)

(** Same slab up to the LRU head and tail; same trace and microtasks. *)
Definition lru_only (w w' : World) : Prop :=
  ∃ hd tl, slab w' = set_head hd (set_tail tl (slab w))
           ∧ trace w' = trace w ∧ microtasks w' = microtasks w.

(** The memos the head query keeps: those without a truthy entry in
    [_memo_ids_by_parent]. *)
Definition heads_of (s : Slab) (ms : list Memo) : list Memo :=
  filter (λ m, truthy_string (_memo_ids_by_parent s !! memo_id m) = false) ms.

(** Computations that leave [_memos_by_id] alone. *)
Definition keeps_memos {A} (c : M A) : Prop :=
  ∀ w, _memos_by_id (slab (c w).1) = _memos_by_id (slab w).

(** The memo a queued reaction may remove. *)
Definition task_memo (t : Task) : option string :=
  match t with
  | ThenKill _ memo => Some (memo_id memo)
  | CatchLog _ => None
  end.

(** What [registerMemoPeering(memo, memo.id, this.id, 2)] does to the slab:
    the memo is listed under its own id; no remote is recorded. *)
Definition self_peer (memo_i : string) (s : Slab) : Slab :=
  let s0 := set_local_peerings (λ lp, <[memo_i := default [] (lp !! memo_i)]> lp) s in
  let refs := default [] (local_peerings s0 !! memo_i) in
  let s1 :=
    if bool_decide (memo_i ∈ refs) then s0
    else set_local_peerings (<[memo_i := refs ++ [memo_i]]>) s0 in
  let r0 := default (mkRefPeering [] []) (ref_peerings s1 !! memo_i) in
  set_ref_peerings
    (<[memo_i := if bool_decide (memo_i ∈ memos r0) then r0
                 else mkRefPeering (memos r0 ++ [memo_i]) (remotes r0)]>) s1.

(** The slab after [putMemo] has stored a new memo below the limit. *)
Definition stored (memo : Memo) (s : Slab) : Slab :=
  let indexed :=
    foldl (λ s p, set_memo_ids_by_parent (<[p := memo_id memo]>) s)
      (set_memo_ids_by_record
         (λ m, <[rid memo := default [] (m !! rid memo) ++ [memo_id memo]]> m)
         (set_memos_by_id (<[memo_id memo := memo]>) s))
      (parents memo) in
  let linked :=
    set_tail (Some memo)
      (match this_tail s with
       | Some _ => indexed
       | None => set_head (Some memo) indexed
       end) in
  self_peer (memo_id memo) (set_size (λ n, n + 1) linked).

(** Arguments the constructor accepts: a one-character id and a mesh. *)
Definition acceptable (args : option SlabArgs) : Prop :=
  ∃ a i m, args = Some a ∧ args_id a = Some i ∧ args_mesh a = Some m
           ∧ js_length i = 1%nat.

(** ** Worlds and memos used in the examples *)

(** A mesh that never offers a slab, and one that always offers slab B. *)
Definition quiet_mesh : Mesh := mkMesh (λ _ _, []).
Definition eager_mesh : Mesh := mkMesh (λ _ _, ["B"%string]).

(** What [new Slab({id: "A", mesh, quota, limit})] builds. *)
Definition slab_A (mesh : Mesh) (quota limit : Z) : World :=
  mkWorld (mkSlab "A" 0 ∅ ∅ ∅ ∅ 0 quota limit mesh ∅ ∅ None None)
    ∅ [RegisterSlab "A"] [].

(** Four memos of distinct records, without parents, desired replicas 0. *)
Definition m1 : Memo := mkMemo "m1" "r1" [] 0.
Definition m2 : Memo := mkMemo "m2" "r2" [] 0.
Definition m3 : Memo := mkMemo "m3" "r3" [] 0.
Definition m4 : Memo := mkMemo "m4" "r4" [] 0.

(** Scenario "Basic LRU": quota 2, limit 3; put m1, m2, m3; get m1; put m4.
    Each call runs to quiescence. *)
Definition three_puts : World :=
  call (putMemo m3) (call (putMemo m2) (call (putMemo m1) (slab_A quiet_mesh 2 3))).

Definition basic_lru_before_m4 : World := call (getMemo "m1") three_puts.

Definition basic_lru : World := call (putMemo m4) basic_lru_before_m4.

(** The same five calls made in one turn; the reactions run at its end. *)
Definition basic_lru_one_turn : World :=
  drain (putMemo m4
           (getMemo "m1"
              (putMemo m3 (putMemo m2 (putMemo m1 (slab_A quiet_mesh 2 3)).1).1).1).1).1.

(** A record R with a memo and its successor. *)
Definition p1 : Memo := mkMemo "p1" "R" [] 0.
Definition p2 : Memo := mkMemo "p2" "R" ["p1"%string] 0.
Definition observer_R : RecordObj := mkRecordObj "R" 0.

Definition chain_R : World :=
  call (putMemo p2) (call (putMemo p1) (slab_A quiet_mesh 5 10)).

(** The successor is killed before anyone subscribes; then R is subscribed. *)
Definition chain_R_killed : World := call (killMemo (ByObj p2)) chain_R.
Definition chain_R_subscribed : World := call (subscribeRecord observer_R) chain_R_killed.

(** Quota 1, limit 1, two puts. *)
Definition two_puts : World :=
  call (putMemo m2) (call (putMemo m1) (slab_A quiet_mesh 1 1)).

(** Record R and another record, interleaved: p1, m1, p2. *)
Definition interleaved : World :=
  call (putMemo p2) (call (putMemo m1) (call (putMemo p1) (slab_A quiet_mesh 5 10))).

(** Scenario "Head-memo protection": p1 is put, then R is subscribed. *)
Definition subscribed_p1 : World :=
  call (subscribeRecord observer_R) (call (putMemo p1) (slab_A quiet_mesh 5 10)).

(** ** The remaining methods *)

(** [delete o[k]] *)
Definition alist_delete {V} (k : string) (l : list (string * V)) : list (string * V) :=
  filter (λ e, e.1 ≠ k) l.

(** One entry of the change that [receivePeeringChange] walks through. *)
Definition receive_one (sending_slab_id : string) (s : Slab) (entry : string * Z) : Slab :=
  let '(memo_i, peer_state) := entry in
  match ref_peerings s !! memo_i with
  | None => s
  | Some r =>
      set_ref_peerings
        (<[memo_i := mkRefPeering (memos r)
                       (if peer_state =? 0
                        then alist_delete sending_slab_id (remotes r)
                        else alist_set sending_slab_id peer_state (remotes r))]>) s
  end.

Definition receivePeeringChange (sending_slab_id : string) (change : list (string * Z)) :
    M unit :=
  update (λ s, foldl (receive_one sending_slab_id) s change).

(** [Object.keys(remotes).forEach(key => peering[key] = remotes[key])]: the
    copy is handed to the caller, who reads it by key; it is a dictionary. *)
Definition copy_remotes (l : list (string * Z)) : gmap string Z :=
  foldl (λ acc k, match alist_get k l with
                  | Some v => <[k := v]> acc
                  | None => acc
                  end) ∅ l.*1.

(** The loop of [getPeeringsForMemo]; [.remotes] of a missing entry throws. *)
Fixpoint peerings_loop (s : Slab) (include_self : bool) (refs : list string)
    (peerings : gmap string (gmap string Z)) : Completion (gmap string (gmap string Z)) :=
  match refs with
  | [] => Return peerings
  | ref_memo_id :: rest =>
      match ref_peerings s !! ref_memo_id with
      | None => Throw TypeError
      | Some r =>
          let peering := copy_remotes (remotes r) in
          let peering := if include_self then <[this_id s := 2]> peering else peering in
          peerings_loop s include_self rest (<[ref_memo_id := peering]> peerings)
      end
  end.

Definition getPeeringsForMemo (s : Slab) (memo : Memo) (include_self : bool) :
    Completion (gmap string (gmap string Z)) :=
  peerings_loop s include_self (default [] (local_peerings s !! memo_id memo)) ∅.

Definition quotaRemaining (s : Slab) : Z := quota s - this_size s.

Definition limitRemaining (s : Slab) : Z := limit s - this_size s.

(** [n.toString(36)] for an integer [n]: digits 0-9 and a-z. *)
Definition digit36 (d : N) : Ascii.ascii :=
  if (d <? 10)%N then Ascii.ascii_of_N (48 + d) else Ascii.ascii_of_N (87 + d).

Fixpoint digits36 (fuel : nat) (n : N) (acc : string) : string :=
  match fuel with
  | O => acc
  | S fuel' =>
      let acc' := String (digit36 (n mod 36)) acc in
      if (n <? 36)%N then acc' else digits36 fuel' (n / 36) acc'
  end.

Definition toString36 (n : Z) : string :=
  if n <? 0
  then ("-" +:+ digits36 (S (N.size_nat (Z.to_N (- n)))) (Z.to_N (- n)) "")%string
  else digits36 (S (N.size_nat (Z.to_N n))) (Z.to_N n) ""%string.

(** [n++] on a number that holds an integer: from 2^53 on, adding one is lost
    in rounding. *)
Definition js_increment (n : Z) : Z := if n <? 2 ^ 53 then n + 1 else n.

Definition set_child_increment (f : Z → Z) (s : Slab) : Slab :=
  mkSlab (this_id s) (f (child_increment s)) (_memos_by_id s) (_memo_ids_by_parent s)
    (_memo_ids_by_record s) (_records_by_id s) (this_size s) (quota s) (limit s) (mesh s)
    (local_peerings s) (ref_peerings s) (this_head s) (this_tail s).

Definition genChildID : M string :=
  s ← this;
  update (set_child_increment js_increment);;
  mret (this_id s +:+ toString36 (child_increment s)).

(** [while (memo) { memos.push(memo); memo = memo._older; }], with the
    number of turns the loop may take; [None] when they do not suffice. *)
Fixpoint dump_loop (fuel : nat) (h : gmap string Links) (memo : option Memo) :
    option (list Memo) :=
  match memo with
  | None => Some []
  | Some m =>
      match fuel with
      | O => None
      | S fuel' => (m ::.) <$> dump_loop fuel' h (older_of h m)
      end
  end.

Definition dumpMemos (fuel : nat) (w : World) : option (list Memo) :=
  dump_loop fuel (links w) (this_tail (slab w)).

Definition dumpMemoIds (fuel : nat) (w : World) : option (list string) :=
  (λ memos : list Memo, memo_id <$> memos) <$> dumpMemos fuel w.

(** Reading a base-36 numeral back. *)
Definition value36 (c : Ascii.ascii) : N :=
  let x := Ascii.N_of_ascii c in
  if (x <? 58)%N then (x - 48)%N else (x - 87)%N.

Fixpoint decode36 (s : string) (acc : N) : N :=
  match s with
  | EmptyString => acc
  | String c rest => decode36 rest (acc * 36 + value36 c)%N
  end.

(** [n] calls of [genChildID] in a row. *)
Fixpoint genChildIDs (n : nat) : M (list string) :=
  match n with
  | O => mret []
  | S n' => i ← genChildID; rest ← genChildIDs n'; mret (i :: rest)
  end.

(** ** Notions used in the further statements *)

(** The LRU part of [killMemo], on the slab and on the links. *)
Definition unlink_slab (memo : Memo) (h : gmap string Links) (s : Slab) : Slab :=
  match newer_of h memo, older_of h memo with
  | Some _, Some _ => s
  | Some n, None => set_head (Some n) s
  | None, Some o => set_tail (Some o) s
  | None, None => set_tail None (set_head None s)
  end.

Definition unlink_links (memo : Memo) (h : gmap string Links) : gmap string Links :=
  match newer_of h memo, older_of h memo with
  | Some n, Some o => upd_older n (Some o) (upd_newer o (Some n) h)
  | Some n, None => upd_older n None h
  | None, Some o => upd_newer o None h
  | None, None => h
  end.

(** What [deregisterPeeringForMemo] does to one entry of [ref_peerings]:
    the memo leaves [memos]; an entry without memos is deleted. *)
Definition drop_member (memo_i : string) (r : RefPeering) : option RefPeering :=
  let ms := filter (λ i, i ≠ memo_i) (memos r) in
  if bool_decide (ms = []) then None else Some (mkRefPeering ms (remotes r)).

(** What one received peering state does to the remotes of an entry. *)
Definition received (sending_slab_id : string) (peer_state : option Z)
    (l : list (string * Z)) : list (string * Z) :=
  match peer_state with
  | None => l
  | Some st => if st =? 0 then alist_delete sending_slab_id l
               else alist_set sending_slab_id st l
  end.

(** ** Consistency of the peering registry *)

(** [local_peerings] and [ref_peerings] list each other: a memo's references
    have an entry that names the memo, an entry's memos list the reference;
    the lists have no duplicates and no entry is without memos. *)
Definition peering_ok (s : Slab) : Prop :=
  (∀ m refs, local_peerings s !! m = Some refs →
     NoDup refs
     ∧ ∀ r, r ∈ refs → ∃ rp, ref_peerings s !! r = Some rp ∧ m ∈ memos rp)
  ∧ (∀ r rp, ref_peerings s !! r = Some rp →
     NoDup (memos rp) ∧ memos rp ≠ [] ∧ NoDup (remotes rp).*1
     ∧ ∀ m, m ∈ memos rp → ∃ refs, local_peerings s !! m = Some refs ∧ r ∈ refs).

(** A computation keeps a property of the world, however it completes. *)
Definition preserves (P : World → Prop) {A} (c : M A) : Prop :=
  ∀ w, P w → P (c w).1.

(** [peering_ok] as a property of the world. *)
Definition peering_inv (w : World) : Prop := peering_ok (slab w).

(** ** The methods a caller can invoke *)

(** A call of a state-changing method, with its arguments. *)
Inductive Call :=
| PutMemo (memo : Memo)
| GetMemo (i : string)
| KillMemo (arg : MemoArg)
| EvictMemo (arg : MemoArg)
| EvictMemos
| CheckMemoReplicationFactor (memo : Memo)
| RegisterMemoPeering (memo : Memo) (ref_memo_id remote_slab_id : string) (peer_state : Z)
    (silent : bool)
| UpdateMemoPeerings (memo : Memo) (peerings : list (string * list (string * Z)))
    (silent : bool)
| ReceivePeeringChange (sending_slab_id : string) (change : list (string * Z))
| DeregisterPeeringForMemo (memo : Memo)
| GetHeadMemosForRecord (record_id : string)
| GetHeadMemoIDsForRecord (record_id : string)
| SubscribeRecord (record : RecordObj)
| GenChildID.

(** The call, its result dropped. *)
Definition perform (c : Call) : M unit :=
  match c with
  | PutMemo memo => putMemo memo
  | GetMemo i => getMemo i ≫= λ _, mret tt
  | KillMemo arg => killMemo arg
  | EvictMemo arg => evictMemo arg
  | EvictMemos => evictMemos
  | CheckMemoReplicationFactor memo => checkMemoReplicationFactor memo ≫= λ _, mret tt
  | RegisterMemoPeering memo ref_memo_id remote_slab_id peer_state silent =>
      registerMemoPeering memo ref_memo_id remote_slab_id peer_state silent
  | UpdateMemoPeerings memo peerings silent => updateMemoPeerings memo peerings silent
  | ReceivePeeringChange sending_slab_id change =>
      receivePeeringChange sending_slab_id change
  | DeregisterPeeringForMemo memo => deregisterPeeringForMemo memo
  | GetHeadMemosForRecord record_id => getHeadMemosForRecord record_id ≫= λ _, mret tt
  | GetHeadMemoIDsForRecord record_id => getHeadMemoIDsForRecord record_id ≫= λ _, mret tt
  | SubscribeRecord record => subscribeRecord record
  | GenChildID => genChildID ≫= λ _, mret tt
  end.

(** The worlds a program can reach: a slab is constructed, then methods are
    called, each running to quiescence, whether they return or throw. *)
Inductive reachable : World → Prop :=
| reachable_new (slab_increment : Z) (args : option SlabArgs) (w : World) :
    (new_Slab slab_increment args).2 = Return w → reachable w
| reachable_call (c : Call) (w : World) :
    reachable w → reachable (call (perform c) w).

(** ** Consistency of the record index *)

(** [_memo_ids_by_record] lists, without duplicates, exactly the resident
    memos of each record. *)
Definition index_ok (s : Slab) : Prop :=
  (∀ r l, _memo_ids_by_record s !! r = Some l →
     NoDup l ∧ ∀ i, i ∈ l → ∃ m, _memos_by_id s !! i = Some m ∧ rid m = r)
  ∧ (∀ i m, _memos_by_id s !! i = Some m →
     ∃ l, _memo_ids_by_record s !! rid m = Some l ∧ i ∈ l).

(** There is one memo object per id: [U i] is the object with id [i]. *)
Definition is_object (U : string → Memo) (m : Memo) : Prop := m = U (memo_id m).

Definition task_ok (U : string → Memo) (t : Task) : Prop :=
  match t with
  | ThenKill _ memo => is_object U memo
  | CatchLog _ => True
  end.

(** The memo objects a call passes in are the objects of [U]. *)
Definition call_ok (U : string → Memo) (c : Call) : Prop :=
  match c with
  | PutMemo memo => is_object U memo
  | KillMemo (ByObj memo) => is_object U memo
  | EvictMemo (ByObj memo) => is_object U memo
  | _ => True
  end.

(** What holds of the memo objects the slab keeps, and of its record
    index, as long as the callers pass the objects of [U]. *)
Definition slab_sound (U : string → Memo) (s : Slab) : Prop :=
  (∀ i m, _memos_by_id s !! i = Some m → m = U i)
  ∧ index_ok s
  ∧ (∀ m, this_head s = Some m → is_object U m)
  ∧ (∀ m, this_tail s = Some m → is_object U m).

Definition sound (U : string → Memo) (w : World) : Prop :=
  slab_sound U (slab w)
  ∧ (∀ x m, newer_of (links w) x = Some m → is_object U m)
  ∧ (∀ x m, older_of (links w) x = Some m → is_object U m)
  ∧ Forall (task_ok U) (microtasks w).

(** A computation keeps [I], however it completes, and what it returns
    satisfies [φ]. *)
Definition maintains {A} (I : World → Prop) (c : M A) (φ : A → Prop) : Prop :=
  ∀ w, I w → I (c w).1 ∧ ∀ a, (c w).2 = Return a → φ a.

(** The worlds reached by callers that pass the objects of [U]. *)
Inductive reachable_with (U : string → Memo) : World → Prop :=
| reachable_with_new (slab_increment : Z) (args : option SlabArgs) (w : World) :
    (new_Slab slab_increment args).2 = Return w → reachable_with U w
| reachable_with_call (c : Call) (w : World) :
    call_ok U c → reachable_with U w → reachable_with U (call (perform c) w).

(** ** The LRU list and the resident memos *)

(** What the LRU list is made of. *)
Definition lru_fields (w : World) :
    gmap string Memo * option Memo * option Memo * gmap string Links :=
  (_memos_by_id (slab w), this_head (slab w), this_tail (slab w), links w).

(** The LRU list is made of [X]. *)
Definition same_lru
    (X : gmap string Memo * option Memo * option Memo * gmap string Links) (w : World) :
    Prop :=
  lru_fields w = X.

(** The LRU list is [o] and holds exactly the resident memo objects. *)
Definition lru_exact (w : World) (o : list Memo) : Prop :=
  lru_repr w o ∧ ∀ m, m ∈ o ↔ _memos_by_id (slab w) !! memo_id m = Some m.

(** A memo object that carries no LRU link. *)
Definition unlinked (w : World) (memo : Memo) : Prop :=
  newer_of (links w) memo = None ∧ older_of (links w) memo = None.

(** Callers that pass the objects of [U] and store only memo objects that
    are resident already or carry no link. *)
Definition call_tidy (U : string → Memo) (w : World) (c : Call) : Prop :=
  call_ok U c
  ∧ match c with
    | PutMemo memo => resident w (memo_id memo) ∨ unlinked w memo
    | _ => True
    end.

Inductive reachable_tidy (U : string → Memo) : World → Prop :=
| reachable_tidy_new (slab_increment : Z) (args : option SlabArgs) (w : World) :
    (new_Slab slab_increment args).2 = Return w → reachable_tidy U w
| reachable_tidy_call (c : Call) (w : World) :
    call_tidy U w c → reachable_tidy U w → reachable_tidy U (call (perform c) w).

(** What such callers can rely on. *)
Definition tidy (U : string → Memo) (w : World) : Prop :=
  sound U w ∧ peering_ok (slab w) ∧ ∃ o, lru_exact w o.

(** The limit is [L], and [size] is within it unless it is negative. *)
Definition within_limit (L : Z) (w : World) : Prop :=
  limit (slab w) = L ∧ (0 ≤ L → this_size (slab w) ≤ L).

(** ** Further worlds used in the examples *)

(** A memo that wants one replica, stored on a mesh that offers slab B. *)
Definition m5 : Memo := mkMemo "m5" "r5" [] 1.
Definition replicated_m5 : World := call (putMemo m5) (slab_A eager_mesh 5 10).

(** Slab B announces that it holds m1. *)
Definition announced_m1 : World :=
  call (receivePeeringChange "B" [("m1"%string, 2)]) three_puts.

(** The memo objects of record R: p2 cites p1, every other memo has no
    parents. *)
Definition objects_R (i : string) : Memo :=
  if bool_decide (i = "p2"%string) then p2 else mkMemo i "R" [] 0.

(** The memo objects of the scenario "Basic LRU": the memo with id "mN"
    belongs to record "rN"; no memo has parents. *)
Definition objects_m (i : string) : Memo :=
  mkMemo i ("r" +:+ String.substring 1 1 i) [] 0.

(** Two memos that want one replica each, stored by a slab whose quota is one
    memo, on a mesh that offers slab B. *)
Definition m6 : Memo := mkMemo "m6" "r6" [] 1.
Definition over_quota : World :=
  call (putMemo m6) (call (putMemo m5) (slab_A eager_mesh 1 10)).

(** Memo objects that want one replica: the memo with id "mN" belongs to
    record "rN"; no memo has parents. *)
Definition objects_replicated (i : string) : Memo :=
  mkMemo i ("r" +:+ String.substring 1 1 i) [] 1.

(** * Properties *)

(** Closed facts about the example worlds are settled by evaluation. *)
Ltac evaluate := vm_compute; repeat split; reflexivity.
Ltac decide_by_evaluation := apply (bool_decide_unpack _); evaluate.

(** ** Running a method *)

Lemma bind_run {A B} (m : M A) (f : A → M B) (w : World) :
  (m ≫= f) w = match m w with
               | (w', Return a) => f a w'
               | (w', Throw e) => (w', Throw e)
               end.
Proof. reflexivity. Qed.

Lemma drain_idle (w : World) : microtasks w = [] → drain w = w.
Proof. destruct w as [s h t q]; simpl; intros ->; reflexivity. Qed.

Lemma forEach_emit {A} (f : A → Event) (xs : list A) (w : World) :
  forEach xs (λ x, emit (f x)) w
  = (mkWorld (slab w) (links w) (trace w ++ (f <$> xs)) (microtasks w), Return tt).
Proof.
  revert w. induction xs as [|x xs IH]; intros w.
  - destruct w; simpl. rewrite app_nil_r. reflexivity.
  - simpl. rewrite bind_run. unfold emit at 1. rewrite IH. simpl.
    rewrite <- app_assoc. reflexivity.
Qed.

Lemma forEach_update {A} (f : A → Slab → Slab) (xs : list A) (w : World) :
  forEach xs (λ x, update (f x)) w
  = (mkWorld (foldl (λ s x, f x s) (slab w) xs) (links w) (trace w) (microtasks w),
     Return tt).
Proof.
  revert w. induction xs as [|x xs IH]; intros w; [destruct w; reflexivity|].
  simpl. rewrite bind_run. unfold update at 1. rewrite IH. reflexivity.
Qed.

Lemma new_Slab_A (mesh : Mesh) (q l : Z) :
  q ≠ 0 → l ≠ 0 →
  new_Slab 0 (Some (mkSlabArgs (Some "A"%string) (Some mesh) (Some q) (Some l)))
  = (0, Return (slab_A mesh q l)).
Proof.
  intros Hq Hl. unfold new_Slab, slab_A, or_else; simpl.
  destruct (Z.eqb_spec q 0), (Z.eqb_spec l 0); congruence.
Qed.

(** ** The LRU list: links *)

Lemma newer_of_id (h : gmap string Links) (x y : Memo) :
  memo_id x = memo_id y → newer_of h x = newer_of h y.
Proof. unfold newer_of. intros ->. reflexivity. Qed.

Lemma older_of_id (h : gmap string Links) (x y : Memo) :
  memo_id x = memo_id y → older_of h x = older_of h y.
Proof. unfold older_of. intros ->. reflexivity. Qed.

Lemma newer_upd_newer (m : Memo) (v : option Memo) (h : gmap string Links) (x : Memo) :
  newer_of (upd_newer m v h) x
  = if bool_decide (memo_id x = memo_id m) then v else newer_of h x.
Proof.
  unfold newer_of, upd_newer. case_bool_decide as E.
  - rewrite E, lookup_insert_eq. reflexivity.
  - rewrite lookup_insert_ne by congruence. reflexivity.
Qed.

Lemma older_upd_newer (m : Memo) (v : option Memo) (h : gmap string Links) (x : Memo) :
  older_of (upd_newer m v h) x = older_of h x.
Proof.
  unfold older_of, upd_newer. destruct (decide (memo_id x = memo_id m)) as [E|E].
  - rewrite E, lookup_insert_eq. reflexivity.
  - rewrite lookup_insert_ne by congruence. reflexivity.
Qed.

Lemma newer_upd_older (m : Memo) (v : option Memo) (h : gmap string Links) (x : Memo) :
  newer_of (upd_older m v h) x = newer_of h x.
Proof.
  unfold newer_of, upd_older. destruct (decide (memo_id x = memo_id m)) as [E|E].
  - rewrite E, lookup_insert_eq. reflexivity.
  - rewrite lookup_insert_ne by congruence. reflexivity.
Qed.

Lemma older_upd_older (m : Memo) (v : option Memo) (h : gmap string Links) (x : Memo) :
  older_of (upd_older m v h) x
  = if bool_decide (memo_id x = memo_id m) then v else older_of h x.
Proof.
  unfold older_of, upd_older. case_bool_decide as E.
  - rewrite E, lookup_insert_eq. reflexivity.
  - rewrite lookup_insert_ne by congruence. reflexivity.
Qed.

Lemma from_option_Some_None {A} (x : option A) : from_option Some None x = x.
Proof. destruct x; reflexivity. Qed.

(** ** The LRU list: segments *)

Lemma chain_app (h : gmap string Links) (prev : option Memo) (a b : list Memo)
    (next : option Memo) :
  chain h prev (a ++ b) next
  ↔ chain h prev a (from_option Some next (head b))
    ∧ chain h (from_option Some prev (last a)) b next.
Proof.
  revert prev. induction a as [|x a IH]; intros prev; simpl.
  - tauto.
  - rewrite IH. destruct a as [|y a]; simpl.
    + tauto.
    + assert (is_Some (last (y :: a))) as [l El] by (apply last_is_Some; discriminate).
      rewrite El. simpl. tauto.
Qed.

Lemma chain_frame (h h' : gmap string Links) (prev prev' : option Memo) (o : list Memo)
    (next next' : option Memo) :
  NoDup (memo_id <$> o) →
  chain h prev o next →
  (∀ x, x ∈ o →
     older_of h' x
     = if bool_decide (memo_id <$> head o = Some (memo_id x)) then prev' else older_of h x) →
  (∀ x, x ∈ o →
     newer_of h' x
     = if bool_decide (memo_id <$> last o = Some (memo_id x)) then next' else newer_of h x) →
  chain h' prev' o next'.
Proof.
  revert prev prev'. induction o as [|x o IH]; intros prev prev' Hnd Hc Ho Hn; [exact I|].
  simpl in Hnd. apply NoDup_cons in Hnd as [Hx Hnd].
  destruct Hc as (Hox & Hnx & Hc). simpl. split; [|split].
  - rewrite (Ho x) by left. simpl. rewrite bool_decide_eq_true_2; reflexivity.
  - rewrite (Hn x) by left. destruct o as [|y o]; simpl.
    + rewrite bool_decide_eq_true_2; reflexivity.
    + rewrite bool_decide_eq_false_2; [exact Hnx|].
      intros E. apply Hx.
      destruct (last (y :: o)) as [l|] eqn:El; [|discriminate].
      simpl in E. injection E as <-. apply list_elem_of_fmap_2, last_Some_elem_of, El.
  - destruct o as [|y o]; [exact I|].
    apply (IH (Some x) (Some x) Hnd Hc).
    + intros z Hz. rewrite (Ho z) by (right; exact Hz). simpl.
      rewrite bool_decide_eq_false_2.
      2:{ intros E. injection E as E. apply Hx. rewrite E.
          apply list_elem_of_fmap_2, Hz. }
      case_bool_decide as E; [|reflexivity].
      injection E as E. rewrite <- (older_of_id h y z E). apply Hc.
    + intros z Hz. rewrite (Hn z) by (right; exact Hz). rewrite last_cons_cons. reflexivity.
Qed.

Lemma chain_head_older (h : gmap string Links) (prev next : option Memo) (o : list Memo)
    (f x : Memo) :
  chain h prev o next → head o = Some f → memo_id x = memo_id f → older_of h x = prev.
Proof.
  destruct o as [|y o]; [discriminate|]. intros (Ho & _) [= ->] E.
  rewrite (older_of_id h x f E). exact Ho.
Qed.

Lemma NoDup_ids_split (o1 o2 : list Memo) (m : Memo) :
  NoDup (memo_id <$> (o1 ++ m :: o2)) →
  NoDup (memo_id <$> o1) ∧ NoDup (memo_id <$> o2)
  ∧ (∀ x, x ∈ o1 → memo_id x ≠ memo_id m)
  ∧ (∀ x, x ∈ o2 → memo_id x ≠ memo_id m)
  ∧ (∀ x y, x ∈ o1 → y ∈ o2 → memo_id x ≠ memo_id y).
Proof.
  rewrite fmap_app, fmap_cons. intros (H1 & Hd & H2)%NoDup_app.
  apply NoDup_cons in H2 as [Hm H2]. repeat split; try assumption.
  - intros x Hx E. apply (Hd (memo_id x)); [apply list_elem_of_fmap_2, Hx|].
    rewrite E. left.
  - intros x Hx E. apply Hm. rewrite <- E. apply list_elem_of_fmap_2, Hx.
  - intros x y Hx Hy E. apply (Hd (memo_id x)); [apply list_elem_of_fmap_2, Hx|].
    rewrite E. right. apply list_elem_of_fmap_2, Hy.
Qed.

Lemma filter_ids_ne (i : string) (l : list Memo) :
  (∀ x, x ∈ l → memo_id x ≠ i) →
  filter (λ x, memo_id x ≠ i) l = l ∧ filter (λ x, memo_id x = i) l = [].
Proof.
  induction l as [|x l IH]; intros H; [split; reflexivity|].
  destruct IH as [IH1 IH2]; [intros y Hy; apply H; right; exact Hy|].
  assert (memo_id x ≠ i) as Hx by (apply H; left).
  rewrite filter_cons_True by exact Hx. rewrite filter_cons_False by (intros E; exact (Hx E)).
  rewrite IH1, IH2. split; reflexivity.
Qed.

Lemma filter_id_eq (a : list Memo) (m : Memo) :
  NoDup (memo_id <$> a) → m ∈ a → filter (λ x, memo_id x = memo_id m) a = [m].
Proof.
  intros Hnd (a1 & a2 & ->)%list_elem_of_split.
  apply NoDup_ids_split in Hnd as (_ & _ & H1 & H2 & _).
  rewrite filter_app, filter_cons, decide_True by reflexivity.
  destruct (filter_ids_ne (memo_id m) a1 H1) as [_ ->].
  destruct (filter_ids_ne (memo_id m) a2 H2) as [_ ->]. reflexivity.
Qed.

Lemma filter_keeps_all {A} (P : A → Prop) `{∀ x, Decision (P x)} (l : list A) :
  (∀ x, x ∈ l → P x) → filter P l = l.
Proof.
  induction l as [|x l IH]; intros Hall; [reflexivity|].
  rewrite filter_cons_True by (apply Hall; left).
  rewrite IH; [reflexivity|]. intros y Hy. apply Hall. right. exact Hy.
Qed.

Lemma promote_split (o1 o2 : list Memo) (m : Memo) :
  NoDup (memo_id <$> (o1 ++ m :: o2)) →
  promote (memo_id m) (o1 ++ m :: o2) = o1 ++ o2 ++ [m].
Proof.
  intros (_ & _ & H1 & H2 & _)%NoDup_ids_split. unfold promote.
  rewrite !filter_app, !filter_cons.
  destruct (filter_ids_ne (memo_id m) o1 H1) as [-> ->].
  destruct (filter_ids_ne (memo_id m) o2 H2) as [-> ->].
  rewrite decide_False by (intros E; exact (E eq_refl)). rewrite decide_True by reflexivity.
  simpl. rewrite <- app_assoc. reflexivity.
Qed.

Lemma promote_perm (i : string) (o : list Memo) : promote i o ≡ₚ o.
Proof.
  unfold promote. induction o as [|x o IH]; [reflexivity|].
  rewrite !filter_cons. destruct (decide (memo_id x = i)) as [E|E].
  - rewrite decide_False by (intros E'; exact (E' E)).
    rewrite <- Permutation_middle. rewrite IH. reflexivity.
  - rewrite decide_True by exact E. simpl. rewrite IH. reflexivity.
Qed.

Lemma foldl_promote (o : list Memo) (l : list string) :
  ∀ ms : list Memo,
    NoDup (memo_id <$> o) →
    NoDup l →
    Forall2 (λ i m, memo_id m = i ∧ m ∈ o) l ms →
    foldl (λ o i, promote i o) o l = filter (λ x, memo_id x ∉ l) o ++ ms.
Proof.
  induction l as [|i l IH] using rev_ind; intros ms Hnd Hl HF.
  - apply Forall2_nil_inv_l in HF as ->. simpl. rewrite app_nil_r.
    symmetry. apply filter_keeps_all. intros x _. apply not_elem_of_nil.
  - apply Forall2_app_inv_l in HF as (ms' & k & HF & Hk & ->).
    apply Forall2_cons_inv_l in Hk as (m & k' & (Hid & Hin) & Hk & ->).
    apply Forall2_nil_inv_l in Hk as ->.
    apply NoDup_app in Hl as (Hl & Hdisj & _).
    assert (i ∉ l) as Hi by (intros Hi; apply (Hdisj i Hi); left).
    rewrite foldl_app. simpl. rewrite (IH ms' Hnd Hl HF).
    unfold promote. rewrite !filter_app.
    assert (∀ x, x ∈ ms' → memo_id x ≠ i) as Hms'.
    { intros x Hx E. apply Hi.
      apply list_elem_of_lookup in Hx as [j Hj].
      destruct (Forall2_lookup_r _ _ _ j x HF Hj) as (y & Hy & Hyid & _).
      rewrite <- E, Hyid. apply list_elem_of_lookup. eauto. }
    destruct (filter_ids_ne i ms' Hms') as [-> ->]. rewrite app_nil_r.
    rewrite list_filter_filter. subst i.
    rewrite (filter_id_eq (filter (λ x, memo_id x ∉ l) o) m).
    + rewrite <- app_assoc. f_equal. apply list_filter_iff. intros x.
      rewrite not_elem_of_app, not_elem_of_cons.
      split; [intros [? ?]|intros (? & ? & ?)]; repeat split;
        try assumption; apply not_elem_of_nil.
    + apply (NoDup_fmap_2_strong _); [|apply NoDup_filter; eapply NoDup_fmap_1, Hnd].
      intros x y Hx%list_elem_of_filter Hy%list_elem_of_filter E.
      destruct Hx as [_ Hx], Hy as [_ Hy].
      apply list_elem_of_split in Hx as (o1 & o2 & ->).
      apply NoDup_ids_split in Hnd as (_ & _ & H1 & H2 & _).
      apply elem_of_app in Hy as [Hy|Hy]; [exfalso; apply (H1 y Hy); congruence|].
      apply elem_of_cons in Hy as [->|Hy]; [reflexivity|].
      exfalso; apply (H2 y Hy); congruence.
    + apply list_elem_of_filter. split; [exact Hi|exact Hin].
Qed.

(** ** The LRU list: [getMemo] and the head query *)

Lemma lru_only_refl (w : World) : lru_only w w.
Proof.
  exists (this_head (slab w)), (this_tail (slab w)). destruct w as [[] ? ? ?].
  repeat split; reflexivity.
Qed.

Lemma lru_only_trans (w1 w2 w3 : World) : lru_only w1 w2 → lru_only w2 w3 → lru_only w1 w3.
Proof.
  intros (hd & tl & E1 & E2 & E3) (hd' & tl' & E1' & E2' & E3').
  exists hd', tl'. rewrite E1', E1, E2', E2, E3', E3. repeat split; reflexivity.
Qed.

Lemma lru_only_fields (w w' : World) :
  lru_only w w' →
  _memos_by_id (slab w') = _memos_by_id (slab w)
  ∧ _memo_ids_by_parent (slab w') = _memo_ids_by_parent (slab w)
  ∧ _memo_ids_by_record (slab w') = _memo_ids_by_record (slab w)
  ∧ _records_by_id (slab w') = _records_by_id (slab w)
  ∧ this_size (slab w') = this_size (slab w)
  ∧ local_peerings (slab w') = local_peerings (slab w)
  ∧ ref_peerings (slab w') = ref_peerings (slab w)
  ∧ trace w' = trace w
  ∧ microtasks w' = microtasks w.
Proof. intros (hd & tl & -> & -> & ->). repeat split; reflexivity. Qed.

Lemma getMemo_tail (w : World) (i : string) (m : Memo) :
  _memos_by_id (slab w) !! i = Some m →
  same_memo m (this_tail (slab w)) = true →
  getMemo i w = (w, Return (Some m)).
Proof.
  intros Hm Ht. unfold getMemo. rewrite bind_run. unfold this. cbn beta iota.
  rewrite Hm, Ht. reflexivity.
Qed.

Lemma getMemo_inner (w : World) (i : string) (m n t : Memo) :
  _memos_by_id (slab w) !! i = Some m →
  this_tail (slab w) = Some t →
  memo_id m ≠ memo_id t →
  newer_of (links w) m = Some n →
  getMemo i w
  = (mkWorld
       (set_tail (Some m)
          (if same_memo m (this_head (slab w)) then set_head (Some n) (slab w) else slab w))
       (upd_newer t (Some m)
          (upd_older m (Some t)
             (upd_newer m None
                (match older_of (links w) m with
                 | Some p => upd_newer p (Some n) (upd_older n (older_of (links w) m) (links w))
                 | None => upd_older n None (links w)
                 end))))
       (trace w) (microtasks w),
     Return (Some m)).
Proof.
  destruct w as [s h tr q]. cbn [slab links trace microtasks].
  intros Hm Ht Hne Hn. unfold getMemo.
  unfold mbind, M_bind, this, get_newer, get_older, set_newer, set_older, update, mret, M_ret.
  cbn [slab links trace microtasks]. rewrite Hm, Ht.
  unfold same_memo at 1. rewrite bool_decide_eq_false_2 by exact Hne.
  cbn [slab links trace microtasks]. rewrite Hn.
  assert (older_of (upd_older n (older_of h m) h) m = older_of h m) as Ho.
  { rewrite older_upd_older. case_bool_decide; reflexivity. }
  destruct (same_memo m (this_head s)); cbn [slab links trace microtasks];
    rewrite Ho; destruct (older_of h m) as [p|] eqn:Hp;
    cbn [slab links trace microtasks]; rewrite ?newer_upd_older, ?Hn; reflexivity.
Qed.

Lemma getMemo_promotes (w : World) (o : list Memo) (i : string) (m : Memo) :
  lru_repr w o →
  _memos_by_id (slab w) !! i = Some m →
  memo_id m = i →
  m ∈ o →
  ∃ w', getMemo i w = (w', Return (Some m))
        ∧ lru_repr w' (promote i o)
        ∧ lru_only w w'.
Proof.
  intros (Hnd & Hhead & Htail & Hchain) Hm <- Hin.
  apply list_elem_of_split in Hin as (o1 & o2 & ->).
  rewrite (promote_split o1 o2 m Hnd).
  pose proof (NoDup_ids_split o1 o2 m Hnd) as (Hnd1 & Hnd2 & Hd1 & Hd2 & Hd12).
  assert (NoDup (memo_id <$> (o1 ++ o2 ++ [m]))) as Hnd'.
  { assert (o1 ++ o2 ++ [m] ≡ₚ o1 ++ m :: o2) as ->
      by (rewrite <- Permutation_cons_append; reflexivity).
    exact Hnd. }
  destruct o2 as [|n o2].
  - (* already the tail *)
    exists w. split; [|split; [|apply lru_only_refl]].
    + apply (getMemo_tail w _ m Hm). rewrite Htail, last_snoc. simpl.
      apply bool_decide_eq_true_2. reflexivity.
    + repeat split; assumption.
  - destruct (last (n :: o2)) as [t|] eqn:Et.
    2:{ apply last_None in Et. discriminate. }
    assert (t ∈ n :: o2) as Ht by (apply last_Some_elem_of, Et).
    assert (this_tail (slab w) = Some t) as Htl.
    { rewrite Htail. rewrite (app_assoc o1 [m] (n :: o2)) at 1.
      rewrite last_app, Et. reflexivity. }
    apply chain_app in Hchain as (Ha & Hom & Hnm & Hb). simpl in Ha, Hnm.
    rewrite from_option_Some_None in Hom.
    eexists. split; [apply (getMemo_inner w _ m n t Hm Htl); [|exact Hnm]|].
    { intros E. apply (Hd2 t Ht). symmetry. exact E. }
    set (h := links w) in *.
    set (h5 := upd_newer t _ _).
    assert (∀ x, older_of h5 x
                 = if bool_decide (memo_id x = memo_id m) then Some t
                   else if bool_decide (memo_id x = memo_id n) then last o1
                        else older_of h x) as Hold.
    { intros x. unfold h5. rewrite older_upd_newer, older_upd_older, older_upd_newer.
      rewrite Hom. destruct (last o1) as [p|];
        rewrite ?older_upd_newer, older_upd_older; reflexivity. }
    assert (∀ x, newer_of h5 x
                 = if bool_decide (memo_id x = memo_id t) then Some m
                   else if bool_decide (memo_id x = memo_id m) then None
                        else if bool_decide (memo_id <$> last o1 = Some (memo_id x))
                             then Some n else newer_of h x) as Hnew.
    { intros x. unfold h5. rewrite newer_upd_newer, newer_upd_older, newer_upd_newer.
      rewrite Hom. destruct (last o1) as [p|]; simpl.
      - rewrite newer_upd_newer, newer_upd_older.
        repeat case_bool_decide; congruence.
      - rewrite newer_upd_older. repeat case_bool_decide; congruence. }
    clearbody h5.
    assert (memo_id n ≠ memo_id m) as Hnm' by (apply Hd2; left).
    split.
    2:{ exists (if same_memo m (this_head (slab w)) then Some n else this_head (slab w)),
               (Some m).
        cbn [slab trace microtasks]. repeat split.
        destruct (same_memo m (this_head (slab w))); destruct (slab w); reflexivity. }
    split; [exact Hnd'|]. cbn [slab links].
    split; [|split].
    + (* head *)
      destruct o1 as [|f o1]; simpl.
      * simpl in Hhead. rewrite Hhead. simpl.
        rewrite bool_decide_eq_true_2 by reflexivity. reflexivity.
      * simpl in Hhead. rewrite Hhead. simpl.
        rewrite bool_decide_eq_false_2; [exact Hhead|].
        intros E. apply (Hd1 f); [left|]. symmetry. exact E.
    + (* tail *)
      rewrite (app_assoc o1 (n :: o2) [m]), last_snoc. reflexivity.
    + (* links *)
      apply chain_app. split; [|apply chain_app; split].
      * simpl. apply (chain_frame h h5 None None o1 (Some m) (Some n) Hnd1 Ha).
        -- intros x Hx. rewrite Hold.
           rewrite bool_decide_eq_false_2 by (apply Hd1, Hx).
           rewrite bool_decide_eq_false_2 by (apply (Hd12 x n Hx); left).
           case_bool_decide as E; [|reflexivity].
           destruct (head o1) as [f|] eqn:Ef; [|discriminate]. injection E as E.
           apply (chain_head_older h None (Some m) o1 f x Ha Ef). symmetry. exact E.
        -- intros x Hx. rewrite Hnew.
           rewrite bool_decide_eq_false_2 by (apply (Hd12 x t Hx Ht)).
           rewrite bool_decide_eq_false_2 by (apply Hd1, Hx). reflexivity.
      * simpl head. simpl from_option at 1. rewrite from_option_Some_None.
        apply (chain_frame h h5 (Some m) (last o1) (n :: o2) None (Some m) Hnd2 Hb).
        -- intros x Hx. rewrite Hold.
           rewrite bool_decide_eq_false_2 by (apply Hd2, Hx). simpl.
           repeat case_bool_decide; congruence.
        -- intros x Hx. rewrite Hnew. rewrite Et. simpl.
           case_bool_decide as E1; [rewrite bool_decide_eq_true_2 by congruence; reflexivity|].
           rewrite (bool_decide_eq_false_2 (Some _ = Some _)) by congruence.
           rewrite bool_decide_eq_false_2 by (apply Hd2, Hx).
           rewrite bool_decide_eq_false_2; [reflexivity|].
           destruct (last o1) as [p|] eqn:Ep; [|discriminate]. intros [= E].
           apply (Hd12 p x); [apply last_Some_elem_of, Ep|exact Hx|exact E].
      * rewrite Et. simpl. rewrite Hold, Hnew.
        rewrite !(bool_decide_eq_true_2 (memo_id m = memo_id m)) by reflexivity.
        rewrite bool_decide_eq_false_2; [repeat split; reflexivity|].
        intros E. apply (Hd2 t Ht). symmetry. exact E.
Qed.

Lemma head_loop_promotes (l : list string) (ms : list Memo) :
  ∀ (w : World) (o : list Memo) (acc : list Memo),
    lru_repr w o →
    Forall2 (λ i m, _memos_by_id (slab w) !! i = Some m ∧ memo_id m = i ∧ m ∈ o) l ms →
    ∃ w', head_loop l acc w = (w', Return (acc ++ heads_of (slab w) ms))
          ∧ lru_repr w' (foldl (λ o i, promote i o) o l)
          ∧ lru_only w w'.
Proof.
  revert ms. induction l as [|i l IH]; intros ms w o acc Hrepr HF.
  - apply Forall2_nil_inv_l in HF as ->. exists w. simpl. rewrite app_nil_r.
    split; [reflexivity|]. split; [exact Hrepr|apply lru_only_refl].
  - apply Forall2_cons_inv_l in HF as (m & ms' & (Hm & Hid & Hin) & HF & ->).
    destruct (getMemo_promotes w o i m Hrepr Hm Hid Hin) as (w1 & Hget & Hrepr1 & Hlru1).
    pose proof (lru_only_fields w w1 Hlru1) as (Eid & Epar & _).
    assert (Forall2 (λ j x, _memos_by_id (slab w1) !! j = Some x ∧ memo_id x = j
                            ∧ x ∈ promote i o) l ms') as HF1.
    { eapply Forall2_impl; [exact HF|]. intros j x (Hj & Hjid & Hjin).
      rewrite Eid. repeat split; try assumption. rewrite promote_perm. exact Hjin. }
    simpl head_loop. rewrite bind_run, Hget. rewrite bind_run. unfold this at 1.
    cbn beta iota. rewrite Epar.
    assert (heads_of (slab w1) ms' = heads_of (slab w) ms') as Eh
      by (unfold heads_of; rewrite Epar; reflexivity).
    unfold heads_of at 1. rewrite filter_cons. fold (heads_of (slab w) ms').
    destruct (truthy_string (_memo_ids_by_parent (slab w) !! memo_id m)) eqn:Et;
      cbn [negb foldl].
    + rewrite decide_False by discriminate.
      destruct (IH ms' w1 (promote i o) acc Hrepr1 HF1) as (w' & Hrun & Hrepr' & Hlru').
      exists w'. rewrite Hrun, Eh. split; [reflexivity|].
      split; [exact Hrepr'|exact (lru_only_trans _ _ _ Hlru1 Hlru')].
    + rewrite decide_True by reflexivity.
      destruct (IH ms' w1 (promote i o) (acc ++ [m]) Hrepr1 HF1) as (w' & Hrun & Hrepr' & Hlru').
      exists w'. rewrite Hrun, Eh, <- app_assoc. split; [reflexivity|].
      split; [exact Hrepr'|exact (lru_only_trans _ _ _ Hlru1 Hlru')].
Qed.

Lemma heads_of_ids (s : Slab) (l : list string) (ms : list Memo) :
  Forall2 (λ i m, memo_id m = i) l ms →
  memo_id <$> heads_of s ms
  = filter (λ i, truthy_string (_memo_ids_by_parent s !! i) = false) l.
Proof.
  induction 1 as [|i m l ms <- _ IH]; [reflexivity|].
  unfold heads_of in *. rewrite !filter_cons.
  destruct (decide (truthy_string (_memo_ids_by_parent s !! memo_id m) = false));
    [rewrite fmap_cons|]; rewrite IH; reflexivity.
Qed.

(** ** Eviction and the reactions it queues *)

Lemma checkMemoReplicationFactor_run (memo : Memo) (w : World) :
  checkMemoReplicationFactor memo w
  = (mkWorld (slab w) (links w) (trace w ++ replication_events (slab w) memo) (microtasks w),
     Return (replication_promise (slab w) memo)).
Proof.
  unfold checkMemoReplicationFactor, replication_events, replication_promise.
  rewrite bind_run. unfold this. cbn beta iota.
  destruct (getMemoPeers (slab w) (memo_id memo) true) as [peers|].
  - rewrite bind_run. unfold emit at 1. rewrite bind_run, forEach_emit.
    cbn [slab links trace microtasks]. rewrite <- app_assoc.
    destruct (desiredReplicas memo <=? 0); reflexivity.
  - rewrite app_nil_r. destruct w. destruct (desiredReplicas memo <=? 0); reflexivity.
Qed.

Lemma evictMemo_run (memo : Memo) (w : World) :
  evictMemo (ByObj memo) w
  = (mkWorld (slab w) (links w)
       (trace w ++ Evicting (memo_id memo) true :: replication_events (slab w) memo)
       (microtasks w ++ [ThenKill (replication_promise (slab w) memo) memo]),
     Return tt).
Proof.
  unfold evictMemo. rewrite bind_run. unfold this, resolve. cbn beta iota.
  rewrite bind_run. unfold emit at 1. rewrite bind_run, checkMemoReplicationFactor_run.
  cbn [slab links trace microtasks]. unfold enqueue. cbn [slab links trace microtasks].
  rewrite <- app_assoc. reflexivity.
Qed.

Lemma evict_loop_run (ct : nat) :
  ∀ (o : list Memo) (prev : option Memo) (w : World),
    chain (links w) prev o None →
    evict_loop ct (head o) w
    = (mkWorld (slab w) (links w)
         (trace w ++ concat ((λ m, Evicting (memo_id m) true
                                     :: replication_events (slab w) m) <$> take ct o))
         (microtasks w
            ++ ((λ m, ThenKill (replication_promise (slab w) m) m) <$> take ct o)),
       Return tt).
Proof.
  induction ct as [|ct IH]; intros o prev w Hc.
  - destruct w, o; simpl; rewrite !app_nil_r; reflexivity.
  - destruct o as [|m rest].
    + destruct w; simpl; rewrite !app_nil_r; reflexivity.
    + destruct Hc as (_ & Hn & Hc). rewrite from_option_Some_None in Hn.
      simpl head. simpl evict_loop. rewrite bind_run, evictMemo_run.
      rewrite bind_run. unfold get_newer at 1. cbn [slab links trace microtasks].
      rewrite Hn. rewrite (IH rest (Some m)) by exact Hc.
      cbn [slab links trace microtasks]. simpl take. rewrite fmap_cons. simpl concat.
      rewrite <- !app_assoc. reflexivity.
Qed.

Lemma keeps_bind {A B} (c : M A) (f : A → M B) :
  keeps_memos c → (∀ a, keeps_memos (f a)) → keeps_memos (c ≫= f).
Proof.
  intros Hc Hf w. rewrite bind_run. specialize (Hc w).
  destruct (c w) as [w' [a|e]]; simpl in *; [rewrite Hf|]; exact Hc.
Qed.

Lemma keeps_ret {A} (a : A) : keeps_memos (mret a).
Proof. intros w. reflexivity. Qed.

Lemma keeps_throw {A} (e : Exn) : keeps_memos (@throw A e).
Proof. intros w. reflexivity. Qed.

Lemma keeps_emit (e : Event) : keeps_memos (emit e).
Proof. intros w. reflexivity. Qed.

Lemma keeps_update (f : Slab → Slab) :
  (∀ s, _memos_by_id (f s) = _memos_by_id s) → keeps_memos (update f).
Proof. intros Hf w. simpl. apply Hf. Qed.

Lemma keeps_forEach {A} (xs : list A) (body : A → M unit) :
  (∀ x, keeps_memos (body x)) → keeps_memos (forEach xs body).
Proof.
  intros Hb. induction xs as [|x xs IH]; simpl; [apply keeps_ret|].
  apply keeps_bind; [apply Hb|intros _; exact IH].
Qed.

Lemma deregister_refs_memos (i : string) (refs : list string) :
  ∀ s changes, _memos_by_id (deregister_refs i refs s changes).1.1 = _memos_by_id s.
Proof.
  induction refs as [|r refs IH]; intros s changes; simpl; [reflexivity|].
  destruct (ref_peerings s !! r) as [rp|]; [|reflexivity].
  case_bool_decide; rewrite IH; reflexivity.
Qed.

Lemma keeps_deregisterPeeringForMemo (memo : Memo) :
  keeps_memos (deregisterPeeringForMemo memo).
Proof.
  intros w. unfold deregisterPeeringForMemo. rewrite bind_run. unfold this. cbn beta iota.
  pose proof (deregister_refs_memos (memo_id memo)
                (default [] (local_peerings (slab w) !! memo_id memo)) (slab w) []) as H.
  destruct (deregister_refs _ _ _ _) as [[s' changes] [e|]]; simpl in H; simpl; exact H.
Qed.

Lemma killMemo_memos (arg : MemoArg) (w : World) :
  _memos_by_id (slab (killMemo arg w).1) = _memos_by_id (slab w)
  ∨ ∃ memo, resolve (slab w) arg = Some memo
            ∧ _memos_by_id (slab (killMemo arg w).1)
              = delete (memo_id memo) (_memos_by_id (slab w)).
Proof.
  unfold killMemo. rewrite bind_run. unfold this. cbn beta iota.
  destruct (resolve (slab w) arg) as [memo|]; [|left; reflexivity].
  destruct (_memos_by_id (slab w) !! memo_id memo); [|left; reflexivity].
  destruct (_ && _); [left; reflexivity|].
  right. exists memo. split; [reflexivity|].
  rewrite bind_run. unfold update at 1.
  match goal with |- context [(?c ≫= ?f) ?w1] =>
    assert (keeps_memos (c ≫= f)) as Hk; [|rewrite (Hk w1); reflexivity] end.
  apply keeps_bind.
  { destruct (_ !! rid memo); [apply keeps_update; reflexivity|apply keeps_throw]. }
  intros _. apply keeps_bind.
  { apply keeps_forEach. intros p. apply keeps_bind; [intros ?; reflexivity|].
    intros s. destruct (_ !! p); apply keeps_throw. }
  intros _. apply keeps_bind; [apply keeps_deregisterPeeringForMemo|].
  intros _. apply keeps_bind; [intros ?; reflexivity|].
  intros newer. apply keeps_bind; [intros ?; reflexivity|].
  intros older. apply keeps_bind.
  { destruct newer, older; (apply keeps_bind; [intros ?; reflexivity|]);
      intros _; intros ?; reflexivity. }
  intros _. apply keeps_update. reflexivity.
Qed.

Lemma run_task_other (t : Task) (w : World) (x : string) :
  task_memo t ≠ Some x →
  _memos_by_id (slab (run_task t w).1) !! x = _memos_by_id (slab w) !! x.
Proof.
  intros Hx. destruct t as [[v|e] memo|[v|e]]; simpl; try reflexivity.
  destruct (truthy_value v); [|reflexivity].
  assert (_memos_by_id (slab (killMemo (ByObj memo) w).1) !! x = _memos_by_id (slab w) !! x)
    as Hkill.
  { destruct (killMemo_memos (ByObj memo) w) as [->|(memo' & [= <-] & ->)]; [reflexivity|].
    apply lookup_delete_ne. intros E. apply Hx. simpl. rewrite E. reflexivity. }
  destruct (killMemo (ByObj memo) w) as [w' [[]|e]]; exact Hkill.
Qed.

Lemma drain_other (w : World) (x : string) :
  Forall (λ t, task_memo t ≠ Some x) (microtasks w) →
  _memos_by_id (slab (drain w)) !! x = _memos_by_id (slab w) !! x.
Proof.
  unfold drain.
  change (_memos_by_id (slab w))
    with (_memos_by_id (slab (mkWorld (slab w) (links w) (trace w) []))).
  generalize (mkWorld (slab w) (links w) (trace w) []).
  induction (microtasks w) as [|t q IH]; intros w0 Hq; [reflexivity|].
  apply Forall_cons in Hq as [Ht Hq]. simpl. rewrite (IH _ Hq).
  apply run_task_other, Ht.
Qed.

(** ** Storing a memo *)

Lemma registerMemoPeering_self (memo : Memo) (me : string) (w : World) :
  me = this_id (slab w) →
  registerMemoPeering memo (memo_id memo) me 2 false w
  = (mkWorld (self_peer (memo_id memo) (slab w)) (links w) (trace w) (microtasks w),
     Return tt).
Proof.
  intros ->. unfold registerMemoPeering, updateMemoPeerings.
  rewrite bind_run. unfold update at 1. rewrite bind_run. unfold this.
  cbn [slab links trace microtasks foldl note_ref].
  unfold note_remote at 1. cbn [this_id set_local_peerings].
  rewrite (bool_decide_eq_false_2 (this_id (slab w) ≠ this_id (slab w)))
    by (intros H; apply H; reflexivity).
  cbn [andb]. unfold update at 1. cbn [slab links trace microtasks negb andb].
  reflexivity.
Qed.

Lemma foldl_parent_index (i : string) (ps : list string) :
  ∀ s, let s' := foldl (λ s p, set_memo_ids_by_parent (<[p := i]>) s) s ps in
       (∀ p, p ∈ ps → _memo_ids_by_parent s' !! p = Some i)
       ∧ (∀ p, p ∉ ps → _memo_ids_by_parent s' !! p = _memo_ids_by_parent s !! p)
       ∧ set_memo_ids_by_parent (λ _, _memo_ids_by_parent s') s = s'.
Proof.
  induction ps as [|q ps IH]; intros s; simpl.
  - split; [intros p Hp; inversion Hp|]. split; [reflexivity|]. destruct s; reflexivity.
  - specialize (IH (set_memo_ids_by_parent (<[q := i]>) s)). simpl in IH.
    destruct IH as (IH1 & IH2 & IH3). split; [|split].
    + intros p Hp. destruct (decide (p ∈ ps)) as [Hin|Hout]; [apply IH1, Hin|].
      rewrite IH2 by exact Hout. apply elem_of_cons in Hp as [->|Hp]; [|contradiction].
      simpl. apply lookup_insert_eq.
    + intros p Hp. apply not_elem_of_cons in Hp as [Hq Hp]. rewrite IH2 by exact Hp.
      simpl. apply lookup_insert_ne. congruence.
    + exact IH3.
Qed.

Lemma self_peer_fields (i : string) (s : Slab) :
  _memos_by_id (self_peer i s) = _memos_by_id s
  ∧ _memo_ids_by_parent (self_peer i s) = _memo_ids_by_parent s
  ∧ _memo_ids_by_record (self_peer i s) = _memo_ids_by_record s
  ∧ this_size (self_peer i s) = this_size s
  ∧ this_head (self_peer i s) = this_head s
  ∧ this_tail (self_peer i s) = this_tail s
  ∧ ∃ r, ref_peerings (self_peer i s) !! i = Some r
         ∧ i ∈ memos r
         ∧ remotes r = default [] (remotes <$> ref_peerings s !! i).
Proof.
  unfold self_peer. cbn zeta.
  set (s0 := set_local_peerings _ s).
  set (s1 := if bool_decide _ then s0 else _).
  assert (_memos_by_id s1 = _memos_by_id s ∧ _memo_ids_by_parent s1 = _memo_ids_by_parent s
          ∧ _memo_ids_by_record s1 = _memo_ids_by_record s ∧ this_size s1 = this_size s
          ∧ this_head s1 = this_head s ∧ this_tail s1 = this_tail s
          ∧ ref_peerings s1 = ref_peerings s) as (E1 & E2 & E3 & E4 & E5 & E6 & E7).
  { subst s1. destruct (bool_decide _); repeat split; reflexivity. }
  cbn [set_ref_peerings _memos_by_id _memo_ids_by_parent _memo_ids_by_record this_size
         this_head this_tail ref_peerings].
  repeat (split; [assumption|]). rewrite lookup_insert_eq, E7.
  eexists. split; [reflexivity|].
  destruct (ref_peerings s !! i) as [r|]; cbn [default fmap option_fmap option_map];
    case_bool_decide as E; cbn [memos remotes];
    (split; [first [exact E | apply elem_of_app; right; left]|reflexivity]).
Qed.

Lemma putMemo_below_limit (memo : Memo) (w : World) :
  _memos_by_id (slab w) !! memo_id memo = None →
  this_size (slab w) ≠ limit (slab w) →
  putMemo memo w
  = (mkWorld (stored memo (slab w))
       (match this_tail (slab w) with
        | Some t => upd_older memo (Some t) (upd_newer t (Some memo) (links w))
        | None => links w
        end)
       (trace w
          ++ ((λ r, AddedMemos r [memo_id memo])
                <$> default [] (_records_by_id (slab w) !! rid memo))
          ++ replication_events (stored memo (slab w)) memo)
       (microtasks w ++ [CatchLog (replication_promise (stored memo (slab w)) memo)]),
     Return tt).
Proof.
  intros Hnew Hsize. unfold putMemo. rewrite bind_run. unfold this at 1. cbn beta iota.
  rewrite Hnew. rewrite bind_run. unfold update at 1. rewrite bind_run. unfold update at 1.
  rewrite bind_run, forEach_update. rewrite bind_run, forEach_emit.
  cbn [slab links trace microtasks].
  rewrite bool_decide_eq_false_2 by exact Hsize.
  unfold stored.
  set (indexed := foldl _ _ (parents memo)).
  assert (this_id indexed = this_id (slab w)) as Eid.
  { destruct (foldl_parent_index (memo_id memo) (parents memo)
                (set_memo_ids_by_record
                   (λ m, <[rid memo := default [] (m !! rid memo) ++ [memo_id memo]]> m)
                   (set_memos_by_id (<[memo_id memo := memo]>) (slab w))))
      as (_ & _ & E). fold indexed in E. rewrite <- E. reflexivity. }
  destruct (this_tail (slab w)) as [t|].
  - rewrite bind_run. unfold set_newer at 1. rewrite bind_run. unfold set_older at 1.
    cbn beta iota. cbn [slab links trace microtasks].
    rewrite bind_run. unfold update at 1. rewrite bind_run. unfold update at 1.
    cbn beta iota. cbn [slab links trace microtasks].
    rewrite bind_run, registerMemoPeering_self by (rewrite <- Eid; reflexivity).
    rewrite bind_run, checkMemoReplicationFactor_run. unfold enqueue.
    cbn [slab links trace microtasks]. rewrite <- app_assoc. reflexivity.
  - rewrite bind_run. unfold update at 1.
    rewrite bind_run. unfold update at 1. rewrite bind_run. unfold update at 1.
    cbn beta iota. cbn [slab links trace microtasks].
    rewrite bind_run, registerMemoPeering_self by (rewrite <- Eid; reflexivity).
    rewrite bind_run, checkMemoReplicationFactor_run. unfold enqueue.
    cbn [slab links trace microtasks]. rewrite <- app_assoc. reflexivity.
Qed.

Lemma evict_loop_frame (ct : nat) :
  ∀ (start : option Memo) (w : World),
    ∃ tr q, evict_loop ct start w
            = (mkWorld (slab w) (links w) (trace w ++ tr) (microtasks w ++ q), Return tt).
Proof.
  induction ct as [|ct IH]; intros start w.
  - exists [], []. rewrite !app_nil_r. destruct w, start; reflexivity.
  - destruct start as [m|].
    + simpl. rewrite bind_run, evictMemo_run. rewrite bind_run. unfold get_newer at 1.
      cbn [slab links trace microtasks].
      destruct (IH (newer_of (links w) m)
                  (mkWorld (slab w) (links w)
                     (trace w ++ Evicting (memo_id m) true :: replication_events (slab w) m)
                     (microtasks w ++ [ThenKill (replication_promise (slab w) m) m])))
        as (tr & q & ->).
      cbn [slab links trace microtasks]. rewrite <- !app_assoc. eauto.
    + exists [], []. rewrite !app_nil_r. destruct w; reflexivity.
Qed.

Lemma evictMemos_frame (w : World) :
  ∃ tr q, evictMemos w
          = (mkWorld (slab w) (links w) (trace w ++ tr) (microtasks w ++ q), Return tt).
Proof.
  unfold evictMemos. rewrite bind_run. unfold this. cbn beta iota.
  destruct (_ <=? 0); [|apply evict_loop_frame].
  exists [], []. rewrite !app_nil_r. destruct w; reflexivity.
Qed.

(** ** The example worlds *)

Lemma basic_lru_order : lru_repr basic_lru [m2; m3; m1; m4].
Proof.
  split; [decide_by_evaluation|].
  evaluate.
Qed.

Lemma interleaved_order : lru_repr interleaved [p1; m1; p2].
Proof.
  split; [decide_by_evaluation|].
  evaluate.
Qed.

Lemma chain_R_killed_not_cited : ¬ cited chain_R_killed "p1".
Proof.
  intros (k & c & Hc & Hin).
  assert (_memos_by_id (slab chain_R_killed) = {["p1"%string := p1]}) as E
    by evaluate.
  rewrite E in Hc. apply lookup_singleton_Some in Hc as [_ <-].
  simpl in Hin. inversion Hin.
Qed.

Lemma chain_R_subscribed_not_cited : ¬ cited chain_R_subscribed "p1".
Proof.
  intros (k & c & Hc & Hin).
  assert (_memos_by_id (slab chain_R_subscribed) = {["p1"%string := p1]}) as E
    by evaluate.
  rewrite E in Hc. apply lookup_singleton_Some in Hc as [_ <-].
  simpl in Hin. inversion Hin.
Qed.

(** ** The claims *)

(** C1 on the code.  Killing a resident, unprotected memo that has parents
    throws a TypeError at the first parent: the entry of
    [_memo_ids_by_parent] is the child's id, a string, and a string has no
    [splice].  The memo is gone from [_memos_by_id] by then, but
    [_memo_ids_by_parent] is never touched, and the steps after the loop
    (peering, LRU links, size) are not reached. *)
Theorem killMemo_with_parents_throws (memo : Memo) (w : World) :
  resident w (memo_id memo) →
  parents memo ≠ [] →
  (_records_by_id (slab w) !! rid memo = None
   ∨ truthy_string (_memo_ids_by_parent (slab w) !! memo_id memo) = true) →
  ∃ w', killMemo (ByObj memo) w = (w', Throw TypeError)
    ∧ _memos_by_id (slab w') = delete (memo_id memo) (_memos_by_id (slab w))
    ∧ _memo_ids_by_record (slab w') !! rid memo
      = splice_indexOf (memo_id memo) <$> _memo_ids_by_record (slab w) !! rid memo
    ∧ _memo_ids_by_parent (slab w') = _memo_ids_by_parent (slab w)
    ∧ local_peerings (slab w') = local_peerings (slab w)
    ∧ ref_peerings (slab w') = ref_peerings (slab w)
    ∧ this_head (slab w') = this_head (slab w)
    ∧ this_tail (slab w') = this_tail (slab w)
    ∧ this_size (slab w') = this_size (slab w)
    ∧ links w' = links w.
Proof.
  intros [m' Hres] Hparents Hfree. unfold killMemo.
  rewrite bind_run. unfold this, resolve. cbn beta iota. rewrite Hres.
  assert (bool_decide (is_Some (_records_by_id (slab w) !! rid memo))
          && negb (truthy_string (_memo_ids_by_parent (slab w) !! memo_id memo)) = false)
    as ->.
  { destruct Hfree as [-> | ->].
    - rewrite bool_decide_eq_false_2; [reflexivity|]. intros [? ?]; discriminate.
    - apply andb_false_r. }
  rewrite bind_run. unfold update at 1. rewrite bind_run.
  destruct (_memo_ids_by_record (slab w) !! rid memo) as [mbr|] eqn:Embr.
  - unfold update at 1. rewrite bind_run.
    destruct (parents memo) as [|parent_id rest]; [congruence|].
    simpl forEach. rewrite !bind_run. unfold this. cbn beta iota.
    match goal with |- context [?m !! parent_id] => destruct (m !! parent_id) end;
      (eexists; split; [reflexivity|]; simpl; repeat split; try reflexivity;
       apply lookup_insert_eq).
  - unfold throw. eexists; split; [reflexivity|]. simpl. repeat split; try reflexivity.
    exact Embr.
Qed.

Lemma killMemo_with_parents_throws_witness :
  ∃ w', killMemo (ByObj p2) chain_R = (w', Throw TypeError)
    ∧ _memos_by_id (slab w') = delete (memo_id p2) (_memos_by_id (slab chain_R))
    ∧ _memo_ids_by_record (slab w') !! rid p2
      = splice_indexOf (memo_id p2) <$> _memo_ids_by_record (slab chain_R) !! rid p2
    ∧ _memo_ids_by_parent (slab w') = _memo_ids_by_parent (slab chain_R)
    ∧ local_peerings (slab w') = local_peerings (slab chain_R)
    ∧ ref_peerings (slab w') = ref_peerings (slab chain_R)
    ∧ this_head (slab w') = this_head (slab chain_R)
    ∧ this_tail (slab w') = this_tail (slab chain_R)
    ∧ this_size (slab w') = this_size (slab chain_R)
    ∧ links w' = links chain_R.
Proof.
  apply (killMemo_with_parents_throws p2 chain_R).
  - exists p2. evaluate.
  - discriminate.
  - left. evaluate.
Defined.

(** After the failed kill of p2 the parent index still names p2 as the
    child of p1, although p2 is no longer resident. *)
Example chain_R_killed_stale_parent :
  _memos_by_id (slab chain_R_killed) !! "p2"%string = None
  ∧ _memo_ids_by_parent (slab chain_R_killed) !! "p1"%string = Some "p2"%string
  ∧ (killMemo (ByObj p2) chain_R).2 = Throw TypeError.
Proof. evaluate. Qed.

(** C2 on the code.  With quota 1 and limit 1, the second put finds
    [size === limit] and calls [evictMemos] instead of incrementing [size];
    [evictMemos] has nothing to do ([size - quota] is 0).  At quiescence
    [size] is 1, while [_memos_by_id] holds two memos and the LRU list links
    two. *)
Theorem two_puts_size_is_not_the_count :
  microtasks two_puts = []
  ∧ this_size (slab two_puts) = 1
  ∧ size (_memos_by_id (slab two_puts)) = 2%nat
  ∧ lru_repr two_puts [m1; m2].
Proof.
  split; [evaluate|].
  split; [evaluate|].
  split; [evaluate|].
  split; [|evaluate].
  decide_by_evaluation.
Qed.

(** C3 on the code.  In the scenario "Basic LRU" (quota 2, limit 3; put m1,
    m2, m3, get m1, put m4) nothing is evicted: after the put of m4 has run
    to quiescence all four memos are resident, [size] is 3 and the LRU list
    is m2, m3, m1, m4.  The put at the limit does not count the stored memo,
    so [evictMemos] sees [size - quota = 1] and hands over m2 only; the
    replication promise of m2 is fulfilled with [undefined] (the [success()]
    for [desired <= 0] carries no value and is not followed by a return), so
    the reaction does not kill it. *)
Lemma basic_lru_keeps_m2_and_m3 :
  microtasks basic_lru = []
  ∧ _memos_by_id (slab basic_lru) !! "m1"%string = Some m1
  ∧ _memos_by_id (slab basic_lru) !! "m2"%string = Some m2
  ∧ _memos_by_id (slab basic_lru) !! "m3"%string = Some m3
  ∧ _memos_by_id (slab basic_lru) !! "m4"%string = Some m4
  ∧ this_size (slab basic_lru) = 3
  ∧ lru_repr basic_lru [m2; m3; m1; m4]
  ∧ trace basic_lru
    = [RegisterSlab "A"; GetAcceptingSlabIDs ["A"%string] 0;
       GetAcceptingSlabIDs ["A"%string] 0; GetAcceptingSlabIDs ["A"%string] 0;
       Evicting "m2" true; GetAcceptingSlabIDs ["A"%string] 0;
       GetAcceptingSlabIDs ["A"%string] 0].
Proof.
  split; [evaluate|].
  split; [evaluate|].
  split; [evaluate|].
  split; [evaluate|].
  split; [evaluate|].
  split; [evaluate|].
  split; [exact basic_lru_order|].
  evaluate.
Qed.

(** The scenario "Basic LRU" ends in the same way when the five calls are
    made in one turn and the reactions run at its end. *)
Example basic_lru_in_one_turn :
  microtasks basic_lru_one_turn = []
  ∧ (map_to_list (_memos_by_id (slab basic_lru_one_turn))).*1
    ≡ₚ ["m1"; "m2"; "m3"; "m4"]%string
  ∧ this_size (slab basic_lru_one_turn) = 3.
Proof.
  split; [evaluate|]. split; [|evaluate].
  decide_by_evaluation.
Qed.

(** What [evictMemos] does on its own.  When [size > quota] it hands the
    first [size - quota] memos of the LRU list (all of them if the list is
    shorter), oldest first, to [evictMemo]: each is marked as evicting, has
    its replication checked and gets a reaction queued.  [evictMemos] itself
    changes neither the slab nor the links, and once the reactions have run,
    every memo that was not handed over is resident exactly if it was
    before. *)
Theorem evictMemos_submits_oldest (w : World) (o : list Memo) :
  lru_repr w o →
  microtasks w = [] →
  0 < this_size (slab w) - quota (slab w) →
  ∃ w' victims,
    victims = take (Z.to_nat (this_size (slab w) - quota (slab w))) o
    ∧ evictMemos w = (w', Return tt)
    ∧ slab w' = slab w
    ∧ links w' = links w
    ∧ trace w'
      = trace w ++ concat ((λ m, Evicting (memo_id m) true
                                   :: replication_events (slab w) m) <$> victims)
    ∧ microtasks w' = (λ m, ThenKill (replication_promise (slab w) m) m) <$> victims
    ∧ ∀ x, x ∉ memo_id <$> victims →
           _memos_by_id (slab (drain w')) !! x = _memos_by_id (slab w) !! x.
Proof.
  intros (Hnd & Hhead & Htail & Hchain) Hq Hct.
  unfold evictMemos. rewrite bind_run. unfold this. cbn beta iota.
  destruct (Z.leb_spec (this_size (slab w) - quota (slab w)) 0) as [?|_]; [lia|].
  rewrite Hhead, (evict_loop_run _ o None w Hchain), Hq.
  eexists _, _. split; [reflexivity|]. split; [reflexivity|].
  cbn [slab links trace microtasks app]. repeat split.
  intros x Hx. rewrite drain_other; [reflexivity|]. cbn [microtasks].
  apply Forall_fmap, Forall_forall. intros m Hm [= E]. apply Hx. rewrite <- E.
  apply list_elem_of_fmap_2, Hm.
Qed.

Lemma evictMemos_submits_oldest_witness :
  ∃ w' victims,
    victims = take (Z.to_nat (this_size (slab basic_lru) - quota (slab basic_lru)))
                [m2; m3; m1; m4]
    ∧ evictMemos basic_lru = (w', Return tt)
    ∧ slab w' = slab basic_lru
    ∧ links w' = links basic_lru
    ∧ trace w'
      = trace basic_lru
        ++ concat ((λ m, Evicting (memo_id m) true
                           :: replication_events (slab basic_lru) m) <$> victims)
    ∧ microtasks w'
      = (λ m, ThenKill (replication_promise (slab basic_lru) m) m) <$> victims
    ∧ ∀ x, x ∉ memo_id <$> victims →
           _memos_by_id (slab (drain w')) !! x = _memos_by_id (slab basic_lru) !! x.
Proof.
  apply (evictMemos_submits_oldest basic_lru [m2; m3; m1; m4]).
  - exact basic_lru_order.
  - evaluate.
  - evaluate.
Defined.

(** C4 on the code.  With [desired <= 0] the promise is fulfilled (with
    [undefined]), but the executor does not return: for a memo that has a
    [ref_peerings] entry, as every stored memo has, it goes on to ask the mesh
    for accepting slabs and pushes the memo to each slab the mesh names. *)
Theorem checkMemoReplicationFactor_falls_through (memo : Memo) (w : World) (r : RefPeering) :
  desiredReplicas memo ≤ 0 →
  ref_peerings (slab w) !! memo_id memo = Some r →
  let exclusions := (filter (λ e, e.2 = 2) (remotes r)).*1 ++ [this_id (slab w)] in
  checkMemoReplicationFactor memo w
  = (mkWorld (slab w) (links w)
       (trace w ++ GetAcceptingSlabIDs exclusions (desiredReplicas memo)
          :: ((λ t, PushMemoToSlab (this_id (slab w)) t (memo_id memo))
                <$> getAcceptingSlabIDs (mesh (slab w)) exclusions (desiredReplicas memo)))
       (microtasks w),
     Return (Fulfilled None)).
Proof.
  intros Hd Hr exclusions. unfold checkMemoReplicationFactor.
  rewrite bind_run. unfold this, getMemoPeers. cbn beta iota. rewrite Hr.
  fold exclusions. rewrite bind_run. unfold emit at 1. rewrite bind_run.
  rewrite forEach_emit. cbn [slab links trace microtasks].
  destruct (Z.leb_spec (desiredReplicas memo) 0) as [_|Hlt]; [|lia].
  rewrite <- app_assoc. reflexivity.
Qed.

Lemma checkMemoReplicationFactor_falls_through_witness :
  checkMemoReplicationFactor m1 (call (putMemo m1) (slab_A eager_mesh 5 10))
  = (mkWorld (slab (call (putMemo m1) (slab_A eager_mesh 5 10)))
       (links (call (putMemo m1) (slab_A eager_mesh 5 10)))
       (trace (call (putMemo m1) (slab_A eager_mesh 5 10))
          ++ [GetAcceptingSlabIDs ["A"%string] 0; PushMemoToSlab "A" "B" "m1"])
       (microtasks (call (putMemo m1) (slab_A eager_mesh 5 10))),
     Return (Fulfilled None)).
Proof.
  apply (checkMemoReplicationFactor_falls_through m1
           (call (putMemo m1) (slab_A eager_mesh 5 10)) (mkRefPeering ["m1"%string] [])).
  - vm_compute. discriminate.
  - evaluate.
Defined.

(** The first put of a memo with desired replicas 0 already reaches the mesh. *)
Example putMemo_desired_0_calls_mesh :
  trace (call (putMemo m1) (slab_A eager_mesh 5 10))
  = [RegisterSlab "A"; GetAcceptingSlabIDs ["A"%string] 0; PushMemoToSlab "A" "B" "m1"].
Proof. evaluate. Qed.

(** C5. A put of a memo whose id is already in [_memos_by_id] returns at
    once: the slab (size, the three indexes, the peering registry, head and
    tail), the links of every memo object, the trace (so no observer is
    notified and the mesh is not called) and the microtask queue (so no
    replication check was started) are what they were; and once the call has
    run to quiescence, an idle world is still the same world. *)
Theorem putMemo_resident_is_noop (memo : Memo) (w : World) :
  resident w (memo_id memo) →
  putMemo memo w = (w, Return tt)
  ∧ (microtasks w = [] → call (putMemo memo) w = w).
Proof.
  intros [m' Hm']. assert (putMemo memo w = (w, Return tt)) as Hput.
  { unfold putMemo. rewrite bind_run. unfold this. cbn beta iota. rewrite Hm'. reflexivity. }
  split; [exact Hput|]. intros Hq. unfold call. rewrite Hput. apply drain_idle, Hq.
Qed.

Lemma putMemo_resident_is_noop_witness :
  resident (call (putMemo m1) (slab_A quiet_mesh 5 10)) (memo_id m1)
  ∧ putMemo m1 (call (putMemo m1) (slab_A quiet_mesh 5 10))
    = (call (putMemo m1) (slab_A quiet_mesh 5 10), Return tt).
Proof.
  assert (resident (call (putMemo m1) (slab_A quiet_mesh 5 10)) (memo_id m1)) as H.
  { exists m1. evaluate. }
  split; [exact H|]. exact (proj1 (putMemo_resident_is_noop m1 _ H)).
Defined.

(** C6 on the code.  p1 and its successor p2 are put; the kill of p2 fails
    half-way (C1) and leaves [_memo_ids_by_parent["p1"]]; record R is then
    subscribed.  Now p1 is resident, its record has a subscriber and no
    resident memo cites it, yet [killMemo] does not abort: it removes p1. *)
Theorem killMemo_removes_head_of_subscribed_record :
  _records_by_id (slab chain_R_subscribed) !! rid p1 = Some [observer_R]
  ∧ _memos_by_id (slab chain_R_subscribed) !! memo_id p1 = Some p1
  ∧ ¬ cited chain_R_subscribed (memo_id p1)
  ∧ (killMemo (ByObj p1) chain_R_subscribed).2 = Return tt
  ∧ _memos_by_id (slab (killMemo (ByObj p1) chain_R_subscribed).1) !! memo_id p1 = None
  ∧ this_size (slab (killMemo (ByObj p1) chain_R_subscribed).1)
    = this_size (slab chain_R_subscribed) - 1.
Proof.
  split; [evaluate|].
  split; [evaluate|].
  split; [exact chain_R_subscribed_not_cited|].
  evaluate.
Qed.

(** C7 as the code has it: [evictMemo] of an unknown id throws. *)
Lemma evictMemo_unknown_id_throws :
  _memos_by_id (slab (slab_A quiet_mesh 5 10)) !! "x"%string = None
  ∧ evictMemo (ById "x") (slab_A quiet_mesh 5 10)
    = (slab_A quiet_mesh 5 10, Throw (Thrown "attempted to evict invalid memo")).
Proof. split; reflexivity. Qed.

(** C7, amended.  For an id that is not in [_memos_by_id], [killMemo] writes
    'invalid memo' to the console and returns, and [evictMemo] throws
    'attempted to evict invalid memo'; neither changes the slab, the links or
    the microtask queue. *)
Theorem unknown_memo_id_kill_logs_evict_throws (x : string) (w : World) :
  _memos_by_id (slab w) !! x = None →
  killMemo (ById x) w
  = (mkWorld (slab w) (links w) (trace w ++ [ConsoleError "invalid memo"]) (microtasks w),
     Return tt)
  ∧ evictMemo (ById x) w = (w, Throw (Thrown "attempted to evict invalid memo")).
Proof.
  intros Hx. split.
  - unfold killMemo. rewrite bind_run. unfold this, resolve. cbn beta iota. rewrite Hx. reflexivity.
  - unfold evictMemo. rewrite bind_run. unfold this, resolve. cbn beta iota. rewrite Hx. reflexivity.
Qed.

Lemma unknown_memo_id_witness :
  killMemo (ById "x") (slab_A quiet_mesh 5 10)
  = (mkWorld (slab (slab_A quiet_mesh 5 10)) (links (slab_A quiet_mesh 5 10))
       (trace (slab_A quiet_mesh 5 10) ++ [ConsoleError "invalid memo"])
       (microtasks (slab_A quiet_mesh 5 10)), Return tt)
  ∧ evictMemo (ById "x") (slab_A quiet_mesh 5 10)
    = (slab_A quiet_mesh 5 10, Throw (Thrown "attempted to evict invalid memo")).
Proof.
  apply (unknown_memo_id_kill_logs_evict_throws "x" (slab_A quiet_mesh 5 10)).
  reflexivity.
Defined.

Lemma new_Slab_counter (k : Z) (args : option SlabArgs) : (new_Slab k args).1 = k.
Proof.
  unfold new_Slab. destruct (1296 <? k); [reflexivity|].
  destruct args as [a|]; [|reflexivity].
  destruct (args_id a) as [i|], (args_mesh a) as [m|]; try reflexivity;
    repeat case_bool_decide; reflexivity.
Qed.

Lemma new_Slab_acceptable (k : Z) (args : option SlabArgs) :
  k ≤ 1296 → acceptable args → ∃ w, new_Slab k args = (k, Return w).
Proof.
  intros Hk (a & i & m & -> & Hi & Hm & Hlen). unfold new_Slab.
  destruct (Z.ltb_spec 1296 k) as [?|_]; [lia|]. rewrite Hi, Hm.
  destruct i as [|c i]; [discriminate|]. rewrite bool_decide_eq_false_2 by discriminate.
  rewrite bool_decide_eq_false_2 by (intros Hne; apply Hne, Hlen). eauto.
Qed.

(** C8 on the code.  The constructor compares [slab_increment] with 1296 but
    never increments it (the increment is in a line that is commented out), so
    however many slabs a process constructs with acceptable arguments, every
    construction returns a slab and the counter stays 0. *)
Theorem construct_all_never_refuses (argss : list (option SlabArgs)) :
  Forall acceptable argss →
  (construct_all 0 argss).1 = 0
  ∧ length (construct_all 0 argss).2 = length argss
  ∧ Forall (λ r, ∃ w, r = Return w) (construct_all 0 argss).2.
Proof.
  induction 1 as [|args argss Hargs _ (IH1 & IH2 & IH3)]; simpl.
  - repeat split. constructor.
  - destruct (new_Slab_acceptable 0 args ltac:(lia) Hargs) as [w ->].
    destruct (construct_all 0 argss) as [n rs]. simpl in *.
    repeat split; [assumption|congruence|]. constructor; eauto.
Qed.

Lemma construct_all_never_refuses_witness :
  (construct_all 0
     (replicate 1297 (Some (mkSlabArgs (Some "A"%string) (Some quiet_mesh) None None)))).1 = 0
  ∧ length (construct_all 0
      (replicate 1297
         (Some (mkSlabArgs (Some "A"%string) (Some quiet_mesh) None None)))).2
    = length (replicate 1297
                (Some (mkSlabArgs (Some "A"%string) (Some quiet_mesh) None None)))
  ∧ Forall (λ r, ∃ w, r = Return w)
      (construct_all 0
         (replicate 1297
            (Some (mkSlabArgs (Some "A"%string) (Some quiet_mesh) None None)))).2.
Proof.
  apply (construct_all_never_refuses
           (replicate 1297 (Some (mkSlabArgs (Some "A"%string) (Some quiet_mesh) None None)))).
  apply Forall_replicate. exists (mkSlabArgs (Some "A"%string) (Some quiet_mesh) None None).
  exists "A"%string, quiet_mesh. repeat split; reflexivity.
Defined.

(** C9 on the code.  In the same world before the subscription, p1 is the
    one resident memo of R and no resident memo cites it, but the head query
    answers with no id at all: it reads the stale [_memo_ids_by_parent]. *)
Theorem getHeadMemoIDsForRecord_misses_head :
  _memos_by_id (slab chain_R_killed) !! memo_id p1 = Some p1
  ∧ rid p1 = "R"%string
  ∧ ¬ cited chain_R_killed (memo_id p1)
  ∧ (getHeadMemoIDsForRecord "R" chain_R_killed).2 = Return [].
Proof.
  split; [evaluate|].
  split; [reflexivity|].
  split; [exact chain_R_killed_not_cited|].
  evaluate.
Qed.

(** C10.  Let the LRU list be [o] and let [_memo_ids_by_record[r]] be the
    non-empty list [l] of the ids of resident memos [ms], all on the LRU list.
    Then [getHeadMemosForRecord r] is not a read-only query: it returns the
    heads among [ms] and leaves the LRU list as [o] without the memos of the
    record, followed by the memos of the record in the order of [l].  So the
    record's last-inserted memo is the new tail, and every memo of another
    record now precedes all memos of [r].  Nothing else of the slab changes,
    and nothing is added to the trace or the microtask queue. *)
Theorem getHeadMemosForRecord_promotes (w : World) (o : list Memo) (r : string)
    (l : list string) (ms : list Memo) :
  lru_repr w o →
  _memo_ids_by_record (slab w) !! r = Some l →
  l ≠ [] →
  NoDup l →
  Forall2 (λ i m, _memos_by_id (slab w) !! i = Some m ∧ memo_id m = i ∧ m ∈ o) l ms →
  ∃ w', getHeadMemosForRecord r w = (w', Return (heads_of (slab w) ms))
        ∧ lru_repr w' (filter (λ x, memo_id x ∉ l) o ++ ms)
        ∧ this_tail (slab w') = last ms
        ∧ lru_only w w'.
Proof.
  intros Hrepr Hl Hne Hnd HF.
  destruct (head_loop_promotes l ms w o [] Hrepr HF) as (w' & Hrun & Hrepr' & Hlru).
  rewrite (foldl_promote o l ms) in Hrepr'; [|apply Hrepr|exact Hnd|].
  2:{ eapply Forall2_impl; [exact HF|]. intros i m (_ & ? & ?). split; assumption. }
  exists w'. unfold getHeadMemosForRecord. rewrite bind_run. unfold this. cbn beta iota.
  rewrite Hl. simpl default. rewrite Hrun. split; [reflexivity|].
  split; [exact Hrepr'|]. split; [|exact Hlru].
  destruct Hrepr' as (_ & _ & -> & _).
  destruct ms as [|m ms]; [apply Forall2_nil_inv_r in HF; contradiction|].
  rewrite last_app. destruct (last (m :: ms)) eqn:E; [reflexivity|].
  apply last_None in E. discriminate.
Qed.

Lemma getHeadMemosForRecord_promotes_witness :
  lru_repr interleaved [p1; m1; p2]
  ∧ ∃ w', getHeadMemosForRecord "R" interleaved
          = (w', Return (heads_of (slab interleaved) [p1; p2]))
          ∧ lru_repr w' (filter (λ x, memo_id x ∉ ["p1"%string; "p2"%string]) [p1; m1; p2]
                           ++ [p1; p2])
          ∧ this_tail (slab w') = last [p1; p2]
          ∧ lru_only interleaved w'.
Proof.
  split; [exact interleaved_order|].
  apply (getHeadMemosForRecord_promotes interleaved [p1; m1; p2] "R"
           ["p1"%string; "p2"%string] [p1; p2]).
  - exact interleaved_order.
  - evaluate.
  - discriminate.
  - decide_by_evaluation.
  - repeat constructor; try (evaluate).
Defined.

(** The query in the example moves m1, the memo of another record, to the
    head of the LRU list: it is the next to be evicted. *)
Example interleaved_after_query :
  this_head (slab interleaved) = Some p1
  ∧ this_head (slab (getHeadMemosForRecord "R" interleaved).1) = Some m1
  ∧ this_tail (slab (getHeadMemosForRecord "R" interleaved).1) = Some p2
  ∧ (getHeadMemoIDsForRecord "R" interleaved).2 = Return ["p2"%string].
Proof. evaluate. Qed.

(** ** Further properties *)

(** X1.  [killMemo] refuses a resident memo whose record is subscribed and
    whose id has no truthy entry in [_memo_ids_by_parent]: nothing changes. *)
Theorem killMemo_refuses_indexed_head (memo : Memo) (w : World) :
  resident w (memo_id memo) →
  is_Some (_records_by_id (slab w) !! rid memo) →
  truthy_string (_memo_ids_by_parent (slab w) !! memo_id memo) = false →
  killMemo (ByObj memo) w = (w, Return tt).
Proof.
  intros [m' Hres] Hsub Hidx. unfold killMemo. rewrite bind_run. unfold this, resolve.
  cbn beta iota. rewrite Hres, Hidx. rewrite bool_decide_eq_true_2 by exact Hsub.
  reflexivity.
Qed.

Lemma killMemo_refuses_indexed_head_witness :
  killMemo (ByObj p1) subscribed_p1 = (subscribed_p1, Return tt).
Proof.
  apply (killMemo_refuses_indexed_head p1 subscribed_p1).
  - exists p1. evaluate.
  - exists [observer_R]. evaluate.
  - evaluate.
Defined.

(** X2.  The head query answers with the ids of [_memo_ids_by_record[r]], in
    order, that have no truthy entry in [_memo_ids_by_parent]. *)
Theorem getHeadMemoIDsForRecord_by_index (w : World) (o : list Memo) (r : string)
    (l : list string) (ms : list Memo) :
  lru_repr w o →
  _memo_ids_by_record (slab w) !! r = Some l →
  Forall2 (λ i m, _memos_by_id (slab w) !! i = Some m ∧ memo_id m = i ∧ m ∈ o) l ms →
  (getHeadMemoIDsForRecord r w).2
  = Return (filter (λ i, truthy_string (_memo_ids_by_parent (slab w) !! i) = false) l).
Proof.
  intros Hrepr Hl HF.
  destruct (head_loop_promotes l ms w o [] Hrepr HF) as (w' & Hrun & _).
  unfold getHeadMemoIDsForRecord, getHeadMemosForRecord.
  rewrite !bind_run. unfold this. cbn beta iota. rewrite Hl. simpl default. rewrite Hrun.
  simpl. f_equal. apply heads_of_ids.
  eapply Forall2_impl; [exact HF|]. intros i m (_ & ? & _). assumption.
Qed.

Lemma getHeadMemoIDsForRecord_by_index_witness :
  (getHeadMemoIDsForRecord "R" chain_R).2
  = Return (filter (λ i, truthy_string (_memo_ids_by_parent (slab chain_R) !! i) = false)
              ["p1"%string; "p2"%string]).
Proof.
  apply (getHeadMemoIDsForRecord_by_index chain_R [p1; p2] "R" ["p1"%string; "p2"%string]
           [p1; p2]).
  - split; [decide_by_evaluation|].
    evaluate.
  - evaluate.
  - repeat constructor; try (evaluate).
Defined.

(** Scenario "Parent chain head". *)
Example chain_R_head :
  (getHeadMemoIDsForRecord "R" chain_R).2 = Return ["p2"%string]
  ∧ _memo_ids_by_parent (slab chain_R) !! "p1"%string = Some "p2"%string.
Proof. evaluate. Qed.

(** X3.  [getMemo] of a resident memo on a well-formed LRU list returns the memo
    and moves it to the tail; the other memos keep their order, and nothing
    but the head, the tail and the links changes. *)
Theorem getMemo_moves_to_tail (w : World) (o : list Memo) (i : string) (m : Memo) :
  lru_repr w o →
  _memos_by_id (slab w) !! i = Some m →
  memo_id m = i →
  m ∈ o →
  ∃ w', getMemo i w = (w', Return (Some m))
        ∧ lru_repr w' (filter (λ x, memo_id x ≠ i) o ++ [m])
        ∧ lru_only w w'.
Proof.
  intros Hrepr Hm <- Hin.
  destruct (getMemo_promotes w o (memo_id m) m Hrepr Hm eq_refl Hin)
    as (w' & Hget & Hrepr' & Hlru).
  exists w'. split; [exact Hget|]. split; [|exact Hlru].
  unfold promote in Hrepr'.
  rewrite (filter_id_eq o m) in Hrepr' by (apply Hrepr || exact Hin). exact Hrepr'.
Qed.

Lemma getMemo_moves_to_tail_witness :
  ∃ w', getMemo "m1" three_puts = (w', Return (Some m1))
        ∧ lru_repr w' (filter (λ x, memo_id x ≠ "m1"%string) [m1; m2; m3] ++ [m1])
        ∧ lru_only three_puts w'.
Proof.
  apply (getMemo_moves_to_tail three_puts [m1; m2; m3] "m1" m1).
  - split; [decide_by_evaluation|].
    evaluate.
  - evaluate.
  - reflexivity.
  - left.
Defined.

(** An id that is not stored: [getMemo] returns [undefined], no change. *)
Lemma getMemo_unknown (w : World) (i : string) :
  _memos_by_id (slab w) !! i = None → getMemo i w = (w, Return None).
Proof.
  intros Hi. unfold getMemo. rewrite bind_run. unfold this. cbn beta iota.
  rewrite Hi. reflexivity.
Qed.

(** X4.  Storing a new memo below the limit: the three indexes get their
    entries, [size] grows by one, the memo is listed under its own id in
    [ref_peerings] with the remotes recorded there before, and on a
    well-formed LRU list a memo object that was never linked goes last. *)
Theorem putMemo_stores (memo : Memo) (w : World) :
  _memos_by_id (slab w) !! memo_id memo = None →
  this_size (slab w) ≠ limit (slab w) →
  ∃ w', putMemo memo w = (w', Return tt)
    ∧ _memos_by_id (slab w') = <[memo_id memo := memo]> (_memos_by_id (slab w))
    ∧ _memo_ids_by_record (slab w')
      = <[rid memo := default [] (_memo_ids_by_record (slab w) !! rid memo)
                        ++ [memo_id memo]]> (_memo_ids_by_record (slab w))
    ∧ (∀ p, _memo_ids_by_parent (slab w') !! p
            = if bool_decide (p ∈ parents memo) then Some (memo_id memo)
              else _memo_ids_by_parent (slab w) !! p)
    ∧ this_size (slab w') = this_size (slab w) + 1
    ∧ (∃ r, ref_peerings (slab w') !! memo_id memo = Some r
            ∧ memo_id memo ∈ memos r
            ∧ remotes r = default [] (remotes <$> ref_peerings (slab w) !! memo_id memo))
    ∧ ∀ o, lru_repr w o →
           links w !! memo_id memo = None →
           memo_id memo ∉ memo_id <$> o →
           lru_repr w' (o ++ [memo]).
Proof.
  intros Hnew Hsize. eexists. split; [apply (putMemo_below_limit memo w Hnew Hsize)|].
  cbn [slab links].
  pose proof (self_peer_fields (memo_id memo)
                (set_size (λ n, n + 1)
                   (set_tail (Some memo)
                      (match this_tail (slab w) with
                       | Some _ =>
                           foldl (λ s p, set_memo_ids_by_parent (<[p := memo_id memo]>) s)
                             (set_memo_ids_by_record
                                (λ m, <[rid memo := default [] (m !! rid memo)
                                                      ++ [memo_id memo]]> m)
                                (set_memos_by_id (<[memo_id memo := memo]>) (slab w)))
                             (parents memo)
                       | None =>
                           set_head (Some memo)
                             (foldl (λ s p, set_memo_ids_by_parent (<[p := memo_id memo]>) s)
                                (set_memo_ids_by_record
                                   (λ m, <[rid memo := default [] (m !! rid memo)
                                                         ++ [memo_id memo]]> m)
                                   (set_memos_by_id (<[memo_id memo := memo]>) (slab w)))
                                (parents memo))
                       end))))
    as (Eids & Epar & Erec & Esz & Ehd & Etl & Hpeer).
  fold (stored memo (slab w)) in Eids, Epar, Erec, Esz, Ehd, Etl, Hpeer.
  destruct (foldl_parent_index (memo_id memo) (parents memo)
              (set_memo_ids_by_record
                 (λ m, <[rid memo := default [] (m !! rid memo) ++ [memo_id memo]]> m)
                 (set_memos_by_id (<[memo_id memo := memo]>) (slab w))))
    as (Hin & Hout & Eidx).
  cbn zeta in Hin, Hout, Eidx.
  set (indexed := foldl _ _ (parents memo)) in *.
  rewrite Eids, Epar, Erec, Esz.
  assert (∀ A (f : Slab → A),
            (∀ s, f (set_head (Some memo) s) = f s) →
            f (match this_tail (slab w) with
               | Some _ => indexed
               | None => set_head (Some memo) indexed
               end) = f indexed) as Hcase
    by (intros A f Hf; destruct (this_tail (slab w)); [reflexivity|apply Hf]).
  split.
  { cbn [set_size set_tail _memos_by_id].
    rewrite (Hcase _ _memos_by_id) by reflexivity. rewrite <- Eidx. reflexivity. }
  split.
  { cbn [set_size set_tail _memo_ids_by_record].
    rewrite (Hcase _ _memo_ids_by_record) by reflexivity. rewrite <- Eidx. reflexivity. }
  split.
  { intros p. cbn [set_size set_tail _memo_ids_by_parent].
    rewrite (Hcase _ _memo_ids_by_parent) by reflexivity.
    case_bool_decide as Hp; [apply Hin, Hp|]. rewrite (Hout p Hp). reflexivity. }
  split.
  { cbn [set_size set_tail this_size].
    rewrite (Hcase _ this_size) by reflexivity. rewrite <- Eidx. reflexivity. }
  split.
  { destruct Hpeer as (r & Hr & Hmem & Hrem). exists r. split; [exact Hr|].
    split; [exact Hmem|]. rewrite Hrem. cbn [set_size set_tail ref_peerings].
    rewrite (Hcase _ ref_peerings) by reflexivity. rewrite <- Eidx. reflexivity. }
  intros o (Hnd & Hhead & Htail & Hchain) Hfresh Hid.
  assert (older_of (links w) memo = None ∧ newer_of (links w) memo = None) as [Hold Hnew'].
  { unfold older_of, newer_of. rewrite Hfresh. split; reflexivity. }
  split.
  { rewrite fmap_app. apply NoDup_app. split; [exact Hnd|]. split; [|apply NoDup_singleton].
    intros x Hx Hx'. apply list_elem_of_singleton in Hx'. subst x. exact (Hid Hx). }
  cbn [slab links]. rewrite Ehd, Etl. cbn [set_size set_tail this_head this_tail].
  destruct o as [|f o].
  - simpl in Htail. rewrite Htail. cbn [set_head this_head]. simpl.
    repeat split; assumption.
  - destruct (last (f :: o)) as [t|] eqn:Et; [|apply last_None in Et; discriminate].
    rewrite Htail. split.
    { rewrite <- Eidx. simpl. simpl in Hhead. exact Hhead. }
    split; [rewrite last_snoc; reflexivity|].
    assert (t ∈ f :: o) as Ht by (apply last_Some_elem_of, Et).
    assert (∀ x, x ∈ f :: o → memo_id x ≠ memo_id memo) as Hne.
    { intros x Hx E. apply Hid. rewrite <- E. apply list_elem_of_fmap_2, Hx. }
    apply chain_app. split.
    + simpl head. simpl from_option.
      apply (chain_frame (links w) _ None None (f :: o) None (Some memo) Hnd Hchain).
      * intros x Hx. rewrite older_upd_older, older_upd_newer.
        rewrite bool_decide_eq_false_2 by (apply Hne, Hx).
        case_bool_decide as E; [|reflexivity]. injection E as E.
        apply (chain_head_older (links w) None None (f :: o) f x Hchain eq_refl).
        symmetry. exact E.
      * intros x Hx. rewrite newer_upd_older, newer_upd_newer, Et. simpl.
        repeat case_bool_decide; congruence.
    + rewrite Et. simpl. rewrite older_upd_older, newer_upd_older, newer_upd_newer.
      rewrite bool_decide_eq_true_2 by reflexivity.
      rewrite bool_decide_eq_false_2; [repeat split; assumption|].
      intros E. apply (Hne t Ht). symmetry. exact E.
Qed.

Lemma putMemo_stores_witness :
  ∃ w', putMemo m1 (slab_A quiet_mesh 5 10) = (w', Return tt)
        ∧ _memos_by_id (slab w') = <[memo_id m1 := m1]> ∅
        ∧ this_size (slab w') = 1
        ∧ lru_repr w' [m1].
Proof.
  destruct (putMemo_stores m1 (slab_A quiet_mesh 5 10))
    as (w' & Hput & Hids & _ & _ & Hsize & _ & Hlru).
  - reflexivity.
  - discriminate.
  - exists w'. split; [exact Hput|]. split; [exact Hids|]. split; [exact Hsize|].
    apply (Hlru []).
    + repeat split. constructor.
    + reflexivity.
    + apply not_elem_of_nil.
Defined.

(** ** Removing a memo for good *)

Lemma deregister_refs_frame (i : string) (refs : list string) :
  ∀ s changes, ∃ rp, (deregister_refs i refs s changes).1.1 = set_ref_peerings (λ _, rp) s.
Proof.
  induction refs as [|r refs IH]; intros s changes; simpl.
  - exists (ref_peerings s). destruct s; reflexivity.
  - destruct (ref_peerings s !! r) as [rp|]; [|exists (ref_peerings s); destruct s; reflexivity].
    case_bool_decide.
    + destruct (IH (set_ref_peerings (delete r) s)
                  (foldl (record_change i 0) changes (remotes rp).*1)) as [rp' ->].
      exists rp'. reflexivity.
    + destruct (IH (set_ref_peerings
                      (<[r := mkRefPeering (filter (λ j, j ≠ i) (memos rp)) (remotes rp)]>) s)
                  changes) as [rp' ->].
      exists rp'. reflexivity.
Qed.

Lemma deregister_refs_succeeds (i : string) (refs : list string) :
  ∀ s changes,
    NoDup refs →
    (∀ r, r ∈ refs → is_Some (ref_peerings s !! r)) →
    (deregister_refs i refs s changes).2 = None.
Proof.
  induction refs as [|r refs IH]; intros s changes Hnd Hall; simpl; [reflexivity|].
  apply NoDup_cons in Hnd as [Hr Hnd].
  destruct (Hall r) as [rp ->]; [left|].
  case_bool_decide; apply IH; try exact Hnd; intros r' Hr'; simpl.
  - rewrite lookup_delete_ne by (intros ->; exact (Hr Hr')). apply Hall. right. exact Hr'.
  - rewrite lookup_insert_ne by (intros ->; exact (Hr Hr')). apply Hall. right. exact Hr'.
Qed.

Lemma killMemo_parentless (memo m' : Memo) (w : World) (mbr : list string) :
  _memos_by_id (slab w) !! memo_id memo = Some m' →
  (_records_by_id (slab w) !! rid memo = None
   ∨ truthy_string (_memo_ids_by_parent (slab w) !! memo_id memo) = true) →
  parents memo = [] →
  _memo_ids_by_record (slab w) !! rid memo = Some mbr →
  let s1 := set_memo_ids_by_record (<[rid memo := splice_indexOf (memo_id memo) mbr]>)
              (set_memos_by_id (delete (memo_id memo)) (slab w)) in
  let refs := default [] (local_peerings (slab w) !! memo_id memo) in
  ∀ s' changes,
    deregister_refs (memo_id memo) refs s1 [] = (s', changes, None) →
    killMemo (ByObj memo) w
    = (mkWorld
         (set_size (λ n, n - 1)
            (unlink_slab memo (links w) (set_local_peerings (delete (memo_id memo)) s')))
         (unlink_links memo (links w))
         (trace w ++ [SendPeeringChanges (this_id (slab w)) changes])
         (microtasks w),
       Return tt).
Proof.
  intros Hres Hfree Hpar Hmbr s1 refs s' changes Hder. unfold killMemo.
  rewrite bind_run. unfold this at 1, resolve. cbn beta iota. rewrite Hres.
  assert (bool_decide (is_Some (_records_by_id (slab w) !! rid memo))
          && negb (truthy_string (_memo_ids_by_parent (slab w) !! memo_id memo)) = false)
    as ->.
  { destruct Hfree as [-> | ->].
    - rewrite bool_decide_eq_false_2; [reflexivity|]. intros [? ?]; discriminate.
    - apply andb_false_r. }
  rewrite bind_run. unfold update at 1. rewrite bind_run. rewrite Hmbr.
  unfold update at 1. rewrite Hpar. rewrite bind_run. simpl forEach. unfold mret at 1, M_ret at 1.
  rewrite bind_run. unfold deregisterPeeringForMemo. rewrite bind_run. unfold this at 1.
  cbn [slab links trace microtasks]. fold s1. cbn beta iota.
  change (local_peerings s1) with (local_peerings (slab w)). fold refs. rewrite Hder.
  rewrite bind_run. unfold update at 1. unfold emit at 1.
  cbn [slab links trace microtasks]. cbn beta iota.
  rewrite bind_run. unfold get_newer at 1. rewrite bind_run. unfold get_older at 1.
  cbn [slab links trace microtasks]. cbn beta iota.
  unfold unlink_slab, unlink_links.
  destruct (newer_of (links w) memo) as [n|], (older_of (links w) memo) as [o|];
    rewrite bind_run, bind_run;
    [unfold set_newer at 1, set_older at 1 | unfold set_older at 1, update at 1
    | unfold set_newer at 1, update at 1 | unfold update at 1, update at 1];
    cbn [slab links trace microtasks]; cbn beta iota; unfold update;
    cbn [slab links trace microtasks]; reflexivity.
Qed.

Lemma chain_last_newer (h : gmap string Links) (o : list Memo) :
  ∀ (prev next : option Memo) (l x : Memo),
    chain h prev o next → last o = Some l → memo_id x = memo_id l → newer_of h x = next.
Proof.
  induction o as [|y o IH]; intros prev next l x Hc Hl E; [discriminate|].
  destruct Hc as (_ & Hn & Hc). destruct o as [|z o].
  - injection Hl as <-. rewrite (newer_of_id h x y E). exact Hn.
  - apply (IH (Some y) next l x Hc); [exact Hl|exact E].
Qed.

Lemma chain_set_next (h h' : gmap string Links) (prev : option Memo) (o : list Memo)
    (next next' : option Memo) :
  NoDup (memo_id <$> o) →
  chain h prev o next →
  (∀ x, x ∈ o → older_of h' x = older_of h x) →
  (∀ x, x ∈ o →
     newer_of h' x
     = if bool_decide (memo_id <$> last o = Some (memo_id x)) then next' else newer_of h x) →
  chain h' prev o next'.
Proof.
  intros Hnd Hc Ho Hn. apply (chain_frame h h' prev prev o next next' Hnd Hc); [|exact Hn].
  intros x Hx. rewrite (Ho x Hx). case_bool_decide as E; [|reflexivity].
  destruct (head o) as [f|] eqn:Ef; [|discriminate]. injection E as E.
  apply (chain_head_older h prev next o f x Hc Ef). symmetry. exact E.
Qed.

Lemma chain_set_prev (h h' : gmap string Links) (prev prev' : option Memo) (o : list Memo)
    (next : option Memo) :
  NoDup (memo_id <$> o) →
  chain h prev o next →
  (∀ x, x ∈ o →
     older_of h' x
     = if bool_decide (memo_id <$> head o = Some (memo_id x)) then prev' else older_of h x) →
  (∀ x, x ∈ o → newer_of h' x = newer_of h x) →
  chain h' prev' o next.
Proof.
  intros Hnd Hc Ho Hn. apply (chain_frame h h' prev prev' o next next Hnd Hc); [exact Ho|].
  intros x Hx. rewrite (Hn x Hx). case_bool_decide as E; [|reflexivity].
  destruct (last o) as [l|] eqn:El; [|discriminate]. injection E as E.
  apply (chain_last_newer h o prev next l x Hc El). symmetry. exact E.
Qed.

Lemma unlink_repr (memo : Memo) (s : Slab) (h : gmap string Links) (o1 o2 : list Memo) :
  NoDup (memo_id <$> (o1 ++ memo :: o2)) →
  this_head s = head (o1 ++ memo :: o2) →
  this_tail s = last (o1 ++ memo :: o2) →
  chain h None (o1 ++ memo :: o2) None →
  this_head (unlink_slab memo h s) = head (o1 ++ o2)
  ∧ this_tail (unlink_slab memo h s) = last (o1 ++ o2)
  ∧ chain (unlink_links memo h) None (o1 ++ o2) None.
Proof.
  intros Hnd Hhead Htail Hchain.
  pose proof (NoDup_ids_split o1 o2 memo Hnd) as (Hnd1 & Hnd2 & Hd1 & Hd2 & Hd12).
  apply chain_app in Hchain as (Ha & Hom & Hnm & Hb). simpl in Ha.
  rewrite from_option_Some_None in Hom. rewrite from_option_Some_None in Hnm.
  unfold unlink_slab, unlink_links. rewrite Hom, Hnm.
  destruct o2 as [|n o2]; destruct (last o1) as [p|] eqn:Ep; cbn [head].
  - (* memo was the tail *)
    assert (p ∈ o1) as Hp by (apply last_Some_elem_of, Ep).
    rewrite app_nil_r. cbn [this_head this_tail set_tail]. split; [|split; [symmetry; exact Ep|]].
    + rewrite Hhead. destruct o1; [inversion Hp|reflexivity].
    + apply (chain_set_next h _ None o1 (Some memo) None Hnd1 Ha).
      * intros x Hx. apply older_upd_newer.
      * intros x Hx. rewrite newer_upd_newer, Ep. simpl.
        repeat case_bool_decide; congruence.
  - (* memo was alone *)
    apply last_None in Ep. subst o1. repeat split.
  - (* memo was in the middle *)
    assert (p ∈ o1) as Hp by (apply last_Some_elem_of, Ep).
    split; [|split].
    + rewrite Hhead. destruct o1; [inversion Hp|reflexivity].
    + rewrite Htail. rewrite !last_app. simpl last at 1.
      destruct (last (n :: o2)) eqn:E; [|apply last_None in E; discriminate].
      destruct o2; simpl in *; congruence.
    + apply chain_app. split.
      * simpl. apply (chain_set_next h _ None o1 (Some memo) (Some n) Hnd1 Ha).
        -- intros x Hx. rewrite older_upd_older, older_upd_newer.
           rewrite bool_decide_eq_false_2 by (apply (Hd12 x n Hx); left). reflexivity.
        -- intros x Hx. rewrite newer_upd_older, newer_upd_newer, Ep. simpl.
           repeat case_bool_decide; congruence.
      * rewrite Ep. simpl from_option.
        apply (chain_set_prev h _ (Some memo) (Some p) (n :: o2) None Hnd2 Hb).
        -- intros x Hx. rewrite older_upd_older, older_upd_newer. simpl.
           repeat case_bool_decide; congruence.
        -- intros x Hx. rewrite newer_upd_older, newer_upd_newer.
           rewrite bool_decide_eq_false_2; [reflexivity|].
           intros E. apply (Hd12 p x Hp Hx). symmetry. exact E.
  - (* memo was the head *)
    apply last_None in Ep. subst o1. simpl in *. split; [reflexivity|]. split.
    + rewrite Htail. reflexivity.
    + apply (chain_set_prev h _ (Some memo) None (n :: o2) None Hnd2 Hb).
      * intros x Hx. rewrite older_upd_older. simpl. repeat case_bool_decide; congruence.
      * intros x Hx. apply newer_upd_older.
Qed.

Lemma deregister_refs_lookup (i : string) (refs : list string) :
  ∀ s changes r,
    NoDup refs →
    (∀ x, x ∈ refs → is_Some (ref_peerings s !! x)) →
    ref_peerings (deregister_refs i refs s changes).1.1 !! r
    = if bool_decide (r ∈ refs) then ref_peerings s !! r ≫= drop_member i
      else ref_peerings s !! r.
Proof.
  induction refs as [|x refs IH]; intros s changes r Hnd Hall; simpl.
  - reflexivity.
  - apply NoDup_cons in Hnd as [Hx Hnd].
    destruct (Hall x) as [rp Ex]; [left|]. rewrite Ex.
    assert (ref_peerings (deregister_refs i refs
               (set_ref_peerings (λ m, match drop_member i rp with
                                       | Some rp' => <[x := rp']> m
                                       | None => delete x m end) s)
               (if bool_decide (filter (λ j, j ≠ i) (memos rp) = [])
                then foldl (record_change i 0) changes (remotes rp).*1 else changes)).1.1 !! r
            = if bool_decide (r ∈ x :: refs) then ref_peerings s !! r ≫= drop_member i
              else ref_peerings s !! r) as H.
    { rewrite IH; [|exact Hnd|].
      - simpl. destruct (decide (r = x)) as [->|Hne].
        + rewrite (bool_decide_eq_false_2 _ Hx), (bool_decide_eq_true_2 (x ∈ x :: refs))
            by left.
          rewrite Ex. simpl. destruct (drop_member i rp).
          * apply lookup_insert_eq.
          * apply lookup_delete_eq.
        + assert (bool_decide (r ∈ x :: refs) = bool_decide (r ∈ refs)) as ->.
          { apply bool_decide_ext. rewrite elem_of_cons. tauto. }
          assert (match drop_member i rp with
                  | Some rp' => <[x:=rp']> (ref_peerings s)
                  | None => delete x (ref_peerings s)
                  end !! r = ref_peerings s !! r) as ->; [|reflexivity].
          destruct (drop_member i rp);
            [apply lookup_insert_ne|apply lookup_delete_ne]; congruence.
      - intros y Hy. simpl.
        assert (y ≠ x) as Hne by (intros ->; exact (Hx Hy)).
        destruct (drop_member i rp);
          [rewrite lookup_insert_ne by congruence|rewrite lookup_delete_ne by congruence];
          apply Hall; right; exact Hy. }
    unfold drop_member in H at 1 2. case_bool_decide; exact H.
Qed.

(** [killMemo] of a resident memo without parents that is not protected, on
    a well-formed LRU list and a consistent peering registry. *)
Lemma killMemo_run (memo m' : Memo) (w : World) (o : list Memo) (mbr : list string) :
  lru_repr w o →
  memo ∈ o →
  _memos_by_id (slab w) !! memo_id memo = Some m' →
  (_records_by_id (slab w) !! rid memo = None
   ∨ truthy_string (_memo_ids_by_parent (slab w) !! memo_id memo) = true) →
  parents memo = [] →
  _memo_ids_by_record (slab w) !! rid memo = Some mbr →
  NoDup (default [] (local_peerings (slab w) !! memo_id memo)) →
  (∀ r, r ∈ default [] (local_peerings (slab w) !! memo_id memo) →
        is_Some (ref_peerings (slab w) !! r)) →
  ∃ w' changes,
    killMemo (ByObj memo) w = (w', Return tt)
    ∧ _memos_by_id (slab w') = delete (memo_id memo) (_memos_by_id (slab w))
    ∧ _memo_ids_by_record (slab w')
      = <[rid memo := splice_indexOf (memo_id memo) mbr]> (_memo_ids_by_record (slab w))
    ∧ _memo_ids_by_parent (slab w') = _memo_ids_by_parent (slab w)
    ∧ _records_by_id (slab w') = _records_by_id (slab w)
    ∧ this_size (slab w') = this_size (slab w) - 1
    ∧ local_peerings (slab w') = delete (memo_id memo) (local_peerings (slab w))
    ∧ (∀ r, ref_peerings (slab w') !! r
            = if bool_decide (r ∈ default [] (local_peerings (slab w) !! memo_id memo))
              then ref_peerings (slab w) !! r ≫= drop_member (memo_id memo)
              else ref_peerings (slab w) !! r)
    ∧ trace w' = trace w ++ [SendPeeringChanges (this_id (slab w)) changes]
    ∧ microtasks w' = microtasks w
    ∧ lru_repr w' (filter (λ x, memo_id x ≠ memo_id memo) o).
Proof.
  intros (Hnd & Hhead & Htail & Hchain) Hin Hres Hfree Hpar Hmbr Hrefs Hall.
  set (s1 := set_memo_ids_by_record (<[rid memo := splice_indexOf (memo_id memo) mbr]>)
               (set_memos_by_id (delete (memo_id memo)) (slab w))).
  set (refs := default [] (local_peerings (slab w) !! memo_id memo)) in *.
  pose proof (deregister_refs_succeeds (memo_id memo) refs s1 [] Hrefs Hall) as Hok.
  pose proof (deregister_refs_frame (memo_id memo) refs s1 []) as [rp Hrp].
  pose proof (λ r, deregister_refs_lookup (memo_id memo) refs s1 [] r Hrefs Hall) as Hlook.
  destruct (deregister_refs (memo_id memo) refs s1 []) as [[s' changes] e] eqn:Hder.
  simpl in Hok, Hrp, Hlook. subst e s'.
  apply list_elem_of_split in Hin as (o1 & o2 & ->).
  destruct (unlink_repr memo
              (set_local_peerings (delete (memo_id memo)) (set_ref_peerings (λ _, rp) s1))
              (links w) o1 o2 Hnd Hhead Htail Hchain) as (Hh' & Ht' & Hc').
  pose proof (NoDup_ids_split o1 o2 memo Hnd) as (Hnd1 & Hnd2 & Hd1 & Hd2 & Hd12).
  assert (filter (λ x, memo_id x ≠ memo_id memo) (o1 ++ memo :: o2) = o1 ++ o2) as Hf.
  { rewrite filter_app, filter_cons_False by (intros H; apply H; reflexivity).
    rewrite !filter_keeps_all; [reflexivity| |].
    - intros x Hx E. exact (Hd2 x Hx E).
    - intros x Hx E. exact (Hd1 x Hx E). }
  eexists _, changes. split.
  { apply (killMemo_parentless memo m' w mbr Hres Hfree Hpar Hmbr
             (set_ref_peerings (λ _, rp) s1) changes). exact Hder. }
  cbn [slab links trace microtasks]. rewrite Hf.
  assert (∀ s, _memos_by_id (unlink_slab memo (links w) s) = _memos_by_id s
               ∧ _memo_ids_by_record (unlink_slab memo (links w) s) = _memo_ids_by_record s
               ∧ _memo_ids_by_parent (unlink_slab memo (links w) s) = _memo_ids_by_parent s
               ∧ _records_by_id (unlink_slab memo (links w) s) = _records_by_id s
               ∧ this_size (unlink_slab memo (links w) s) = this_size s
               ∧ local_peerings (unlink_slab memo (links w) s) = local_peerings s
               ∧ ref_peerings (unlink_slab memo (links w) s) = ref_peerings s) as Hu.
  { intros s. unfold unlink_slab.
    destruct (newer_of (links w) memo), (older_of (links w) memo); repeat split. }
  set (s2 := set_local_peerings (delete (memo_id memo)) (set_ref_peerings (λ _, rp) s1)) in *.
  destruct (Hu s2) as (U1 & U2 & U3 & U4 & U5 & U6 & U7).
  repeat split; simpl;
    try (rewrite ?U1, ?U2, ?U3, ?U4, ?U5, ?U6, ?U7; reflexivity).
  - intros r. rewrite U7. exact (Hlook r).
  - rewrite fmap_app. apply NoDup_app. split; [exact Hnd1|]. split; [|exact Hnd2].
    intros i (x & -> & Hx)%list_elem_of_fmap (y & E & Hy)%list_elem_of_fmap.
    exact (Hd12 x y Hx Hy E).
  - exact Hh'.
  - exact Ht'.
  - exact Hc'.
Qed.

(** ** Eviction of one memo, with its reaction *)

Lemma call_evictMemo (memo : Memo) (w : World) :
  microtasks w = [] →
  call (evictMemo (ByObj memo)) w
  = (run_task (ThenKill (replication_promise (slab w) memo) memo)
       (mkWorld (slab w) (links w)
          (trace w ++ Evicting (memo_id memo) true :: replication_events (slab w) memo) [])).1.
Proof.
  intros Hq. unfold call. rewrite evictMemo_run, Hq. reflexivity.
Qed.

Lemma replication_promise_unwanted (s : Slab) (memo : Memo) :
  desiredReplicas memo ≤ 0 → replication_promise s memo = Fulfilled None.
Proof.
  intros H. unfold replication_promise.
  destruct (Z.leb_spec (desiredReplicas memo) 0); [reflexivity|lia].
Qed.

Lemma replication_promise_wanted (s : Slab) (memo : Memo) :
  0 < desiredReplicas memo →
  replication_promise s memo
  = match ref_peerings s !! memo_id memo with
    | Some _ => Fulfilled (Some true)
    | None => Rejected TypeError
    end.
Proof.
  intros H. unfold replication_promise, getMemoPeers.
  destruct (Z.leb_spec (desiredReplicas memo) 0); [lia|].
  destruct (ref_peerings s !! memo_id memo); reflexivity.
Qed.

Lemma drain_unwanted (s : Slab) (o : list Memo) (w : World) :
  (∀ m, m ∈ o → desiredReplicas m ≤ 0) →
  microtasks w = (λ m, ThenKill (replication_promise s m) m) <$> o →
  drain w = mkWorld (slab w) (links w) (trace w) [].
Proof.
  intros Hall Hq. unfold drain. rewrite Hq. clear Hq.
  generalize (mkWorld (slab w) (links w) (trace w) []) as w0.
  induction o as [|m o IH]; intros w0; [reflexivity|].
  rewrite fmap_cons. simpl foldl.
  rewrite (replication_promise_unwanted _ m) by (apply Hall; left). simpl.
  apply IH. intros x Hx. apply Hall. right. exact Hx.
Qed.

(** ** Dictionaries in insertion order *)

Lemma alist_get_None {V} (k : string) (l : list (string * V)) :
  alist_get k l = None ↔ k ∉ l.*1.
Proof.
  induction l as [|[k' v] l IH]; simpl.
  - split; [intros _; apply not_elem_of_nil|reflexivity].
  - case_bool_decide as E.
    + subst k'. split; [discriminate|]. intros H. exfalso. apply H. left.
    + rewrite IH, not_elem_of_cons. tauto.
Qed.

Lemma alist_get_elem {V} (k : string) (v : V) (l : list (string * V)) :
  NoDup l.*1 → (alist_get k l = Some v ↔ (k, v) ∈ l).
Proof.
  induction l as [|[k' v'] l IH]; simpl; intros Hnd.
  - split; [discriminate|]. intros H. inversion H.
  - apply NoDup_cons in Hnd as [Hk Hnd]. rewrite elem_of_cons. case_bool_decide as E.
    + subst k'. split; [intros [= ->]; left; reflexivity|].
      intros [[= ->]|H]; [reflexivity|]. exfalso. apply Hk.
      apply list_elem_of_fmap. exists (k, v). split; [reflexivity|exact H].
    + rewrite (IH Hnd). split; [right; assumption|]. intros [[= -> ->]|H]; [congruence|exact H].
Qed.

Lemma alist_set_keys {V} (k : string) (v : V) (l : list (string * V)) :
  (alist_set k v l).*1 = if bool_decide (k ∈ l.*1) then l.*1 else l.*1 ++ [k].
Proof.
  induction l as [|[k' v'] l IH]; [reflexivity|].
  cbn [alist_set]. rewrite (fmap_cons fst (k', v') l). cbn [fst].
  destruct (decide (k = k')) as [->|E].
  - rewrite (bool_decide_eq_true_2 (k' = k')) by reflexivity.
    rewrite bool_decide_eq_true_2 by left. reflexivity.
  - rewrite (bool_decide_eq_false_2 (k = k')) by exact E.
    rewrite fmap_cons. cbn [fst]. rewrite IH. destruct (decide (k ∈ l.*1)) as [E1|E1].
    + rewrite (bool_decide_eq_true_2 _ E1).
      rewrite bool_decide_eq_true_2 by (right; exact E1). reflexivity.
    + rewrite (bool_decide_eq_false_2 _ E1).
      rewrite bool_decide_eq_false_2; [reflexivity|].
      intros [->|H]%elem_of_cons; [congruence|exact (E1 H)].
Qed.

Lemma alist_set_NoDup {V} (k : string) (v : V) (l : list (string * V)) :
  NoDup l.*1 → NoDup (alist_set k v l).*1.
Proof.
  intros Hnd. rewrite alist_set_keys. case_bool_decide as E; [exact Hnd|].
  apply NoDup_app. split; [exact Hnd|]. split; [|apply NoDup_singleton].
  intros x Hx ->%list_elem_of_singleton. exact (E Hx).
Qed.

Lemma alist_get_set {V} (k k' : string) (v : V) (l : list (string * V)) :
  alist_get k' (alist_set k v l) = if bool_decide (k' = k) then Some v else alist_get k' l.
Proof.
  induction l as [|[k0 v0] l IH]; simpl.
  - case_bool_decide; reflexivity.
  - destruct (decide (k = k0)) as [->|Hne].
    + rewrite (bool_decide_eq_true_2 (k0 = k0)) by reflexivity. simpl.
      case_bool_decide; reflexivity.
    + rewrite (bool_decide_eq_false_2 (k = k0)) by exact Hne. simpl. rewrite IH.
      destruct (decide (k' = k0)) as [->|Hne'].
      * rewrite (bool_decide_eq_true_2 (k0 = k0)) by reflexivity.
        rewrite bool_decide_eq_false_2 by congruence. reflexivity.
      * rewrite (bool_decide_eq_false_2 (k' = k0)) by exact Hne'. reflexivity.
Qed.

Lemma alist_delete_keys {V} (k : string) (l : list (string * V)) :
  (alist_delete k l).*1 = filter (λ x, x ≠ k) l.*1.
Proof.
  unfold alist_delete. induction l as [|[k' v'] l IH]; [reflexivity|].
  rewrite fmap_cons. simpl fst at 2. destruct (decide (k' = k)) as [->|Hne].
  - rewrite filter_cons_False by (simpl; tauto).
    rewrite (filter_cons_False (λ x, x ≠ k)) by tauto. exact IH.
  - rewrite filter_cons_True by exact Hne.
    rewrite (filter_cons_True (λ x, x ≠ k)) by exact Hne. rewrite fmap_cons, IH. reflexivity.
Qed.

Lemma alist_delete_NoDup {V} (k : string) (l : list (string * V)) :
  NoDup l.*1 → NoDup (alist_delete k l).*1.
Proof. intros H. rewrite alist_delete_keys. apply NoDup_filter, H. Qed.

Lemma alist_get_delete {V} (k k' : string) (l : list (string * V)) :
  alist_get k' (alist_delete k l) = if bool_decide (k' = k) then None else alist_get k' l.
Proof.
  unfold alist_delete. induction l as [|[k0 v0] l IH]; simpl.
  - case_bool_decide; reflexivity.
  - destruct (decide (k0 = k)) as [->|Hne].
    + rewrite filter_cons_False by (simpl; tauto). rewrite IH.
      case_bool_decide; reflexivity.
    + rewrite filter_cons_True by exact Hne. simpl. rewrite IH.
      destruct (decide (k' = k0)) as [->|Hne'].
      * rewrite (bool_decide_eq_true_2 (k0 = k0)) by reflexivity.
        rewrite bool_decide_eq_false_2 by exact Hne. reflexivity.
      * rewrite (bool_decide_eq_false_2 (k' = k0)) by exact Hne'. reflexivity.
Qed.

Lemma copy_remotes_lookup (l : list (string * Z)) (k : string) :
  copy_remotes l !! k = alist_get k l.
Proof.
  unfold copy_remotes.
  assert (∀ (ks : list string) (acc : gmap string Z),
            foldl (λ acc k, match alist_get k l with
                            | Some v => <[k := v]> acc
                            | None => acc
                            end) acc ks !! k
            = if bool_decide (k ∈ ks) then from_option Some (acc !! k) (alist_get k l)
              else acc !! k) as H.
  { induction ks as [|k0 ks IH]; intros acc.
    - rewrite bool_decide_eq_false_2 by apply not_elem_of_nil. reflexivity.
    - cbn [foldl]. rewrite IH. destruct (decide (k = k0)) as [->|Hne].
      + rewrite (bool_decide_eq_true_2 (k0 ∈ k0 :: ks)) by left.
        destruct (alist_get k0 l) as [v|]; cbn [from_option].
        * rewrite lookup_insert_eq. destruct (bool_decide (k0 ∈ ks)); reflexivity.
        * destruct (bool_decide (k0 ∈ ks)); reflexivity.
      + assert (∀ acc' : gmap string Z,
                  acc' = acc ∨ (∃ v, acc' = <[k0 := v]> acc) → acc' !! k = acc !! k)
          as Hacc.
        { intros acc' [->|[v ->]]; [reflexivity|]. apply lookup_insert_ne. congruence. }
        rewrite Hacc by (destruct (alist_get k0 l); eauto).
        destruct (decide (k ∈ ks)) as [Hin|Hout].
        * rewrite !bool_decide_eq_true_2; [reflexivity|right; exact Hin|exact Hin].
        * rewrite !bool_decide_eq_false_2; [reflexivity| |exact Hout].
          intros [?|?]%elem_of_cons; contradiction. }
  rewrite H, lookup_empty. case_bool_decide as E.
  - destruct (alist_get k l); reflexivity.
  - symmetry. apply alist_get_None, E.
Qed.

(** ** Peering changes from other slabs *)

Lemma RefPeering_eta (r : RefPeering) : mkRefPeering (memos r) (remotes r) = r.
Proof. destruct r; reflexivity. Qed.

Lemma receive_fold (sender : string) (change : list (string * Z)) :
  ∀ s,
    NoDup change.*1 →
    ∃ rp', foldl (receive_one sender) s change = set_ref_peerings (λ _, rp') s
           ∧ ∀ k, rp' !! k
                  = (λ r, mkRefPeering (memos r)
                            (received sender (alist_get k change) (remotes r)))
                    <$> ref_peerings s !! k.
Proof.
  induction change as [|[k0 st0] change IH]; intros s Hnd.
  - exists (ref_peerings s). split; [destruct s; reflexivity|].
    intros k. simpl. destruct (ref_peerings s !! k) as [r|]; simpl; [|reflexivity].
    rewrite RefPeering_eta. reflexivity.
  - rewrite fmap_cons in Hnd. apply NoDup_cons in Hnd as [Hk0 Hnd]. cbn [foldl].
    destruct (IH (receive_one sender s (k0, st0)) Hnd) as (rp' & -> & Hrp').
    exists rp'. split.
    { unfold receive_one. destruct (ref_peerings s !! k0); reflexivity. }
    intros k. rewrite Hrp'. cbn [alist_get]. destruct (decide (k = k0)) as [->|Hne].
    + rewrite (bool_decide_eq_true_2 (k0 = k0)) by reflexivity.
      assert (alist_get k0 change = None) as -> by (apply alist_get_None; exact Hk0).
      unfold receive_one. destruct (ref_peerings s !! k0) as [r|] eqn:E.
      * simpl. rewrite lookup_insert_eq. reflexivity.
      * rewrite E. reflexivity.
    + rewrite (bool_decide_eq_false_2 (k = k0)) by exact Hne.
      unfold receive_one. destruct (ref_peerings s !! k0) as [r|] eqn:E; [|reflexivity].
      simpl. rewrite lookup_insert_ne by congruence. reflexivity.
Qed.

Lemma filter_keys (P : string * Z → Prop) `{∀ e, Decision (P e)} (l : list (string * Z))
    (x : string) :
  NoDup l.*1 →
  (x ∈ (filter P l).*1 ↔ ∃ v, alist_get x l = Some v ∧ P (x, v)).
Proof.
  intros Hnd. rewrite list_elem_of_fmap. split.
  - intros ([k v] & -> & [HP Hin]%list_elem_of_filter). exists v.
    split; [apply (alist_get_elem k v l Hnd); exact Hin|exact HP].
  - intros (v & Hget & HP). exists (x, v). split; [reflexivity|].
    apply list_elem_of_filter. split; [exact HP|apply (alist_get_elem x v l Hnd); exact Hget].
Qed.

Lemma received_NoDup (sender : string) (st : option Z) (l : list (string * Z)) :
  NoDup l.*1 → NoDup (received sender st l).*1.
Proof.
  intros H. destruct st as [st|]; [|exact H]. simpl.
  destruct (st =? 0); [apply alist_delete_NoDup|apply alist_set_NoDup]; exact H.
Qed.

Lemma alist_get_received (sender : string) (st : Z) (l : list (string * Z)) (x : string) :
  alist_get x (received sender (Some st) l)
  = if bool_decide (x = sender) then (if st =? 0 then None else Some st) else alist_get x l.
Proof.
  simpl. destruct (st =? 0); [rewrite alist_get_delete|rewrite alist_get_set]; reflexivity.
Qed.

Lemma receive_fold_frame (sender : string) (change : list (string * Z)) :
  ∀ s, ∃ rp, foldl (receive_one sender) s change = set_ref_peerings (λ _, rp) s.
Proof.
  induction change as [|[k st] change IH]; intros s.
  - exists (ref_peerings s). destruct s; reflexivity.
  - cbn [foldl]. destruct (IH (receive_one sender s (k, st))) as [rp ->].
    exists rp. unfold receive_one. destruct (ref_peerings s !! k); reflexivity.
Qed.

(** ** Reading the peerings of a memo *)

Lemma peerings_loop_run (s : Slab) (include_self : bool) (refs : list string) :
  ∀ acc,
    (∀ r, r ∈ refs → is_Some (ref_peerings s !! r)) →
    ∃ peerings,
      peerings_loop s include_self refs acc = Return peerings
      ∧ ∀ r, peerings !! r
             = if bool_decide (r ∈ refs)
               then (λ rp, if include_self
                           then <[this_id s := 2]> (copy_remotes (remotes rp))
                           else copy_remotes (remotes rp)) <$> ref_peerings s !! r
               else acc !! r.
Proof.
  induction refs as [|r0 refs IH]; intros acc Hall.
  - exists acc. split; [reflexivity|]. intros r.
    rewrite bool_decide_eq_false_2 by apply not_elem_of_nil. reflexivity.
  - cbn [peerings_loop]. destruct (Hall r0) as [rp0 E0]; [left|]. rewrite E0.
    edestruct IH as (peerings & -> & Hp); [intros r Hr; apply Hall; right; exact Hr|].
    exists peerings. split; [reflexivity|]. intros r. rewrite Hp.
    destruct (decide (r ∈ refs)) as [Hin|Hout].
    + rewrite !bool_decide_eq_true_2; [reflexivity|right; exact Hin|exact Hin].
    + rewrite (bool_decide_eq_false_2 _ Hout). destruct (decide (r = r0)) as [->|Hne].
      * rewrite bool_decide_eq_true_2 by left. rewrite lookup_insert_eq, E0. reflexivity.
      * rewrite bool_decide_eq_false_2
          by (intros [?|?]%elem_of_cons; contradiction).
        apply lookup_insert_ne. congruence.
Qed.

(** ** Properties kept by every step *)

Section preserves.
Variable P : World → Prop.

Lemma preserves_bind {A B} (c : M A) (f : A → M B) :
  preserves P c → (∀ a, preserves P (f a)) → preserves P (c ≫= f).
Proof.
  intros Hc Hf w Hw. rewrite bind_run. specialize (Hc w Hw).
  destruct (c w) as [w' [a|e]]; simpl in *; [apply Hf|]; exact Hc.
Qed.

Lemma preserves_ret {A} (a : A) : preserves P (mret a).
Proof. intros w Hw. exact Hw. Qed.

Lemma preserves_throw {A} (e : Exn) : preserves P (@throw A e).
Proof. intros w Hw. exact Hw. Qed.

Lemma preserves_this : preserves P this.
Proof. intros w Hw. exact Hw. Qed.

Lemma preserves_forEach {A} (xs : list A) (body : A → M unit) :
  (∀ x, preserves P (body x)) → preserves P (forEach xs body).
Proof.
  intros Hb. induction xs as [|x xs IH]; simpl; [apply preserves_ret|].
  apply preserves_bind; [apply Hb|intros _; exact IH].
Qed.
End preserves.

Lemma foldl_note_remote (me i : string) (states : list (string * Z)) :
  ∀ r changes,
    memos (foldl (note_remote me i) (r, changes) states).1 = memos r
    ∧ (NoDup (remotes r).*1
       → NoDup (remotes (foldl (note_remote me i) (r, changes) states).1).*1).
Proof.
  induction states as [|[remote st] states IH]; intros r changes; [split; auto|].
  cbn [foldl].
  destruct (note_remote me i (r, changes) (remote, st)) as [r' changes'] eqn:E.
  assert (memos r' = memos r ∧ (NoDup (remotes r).*1 → NoDup (remotes r').*1)) as [E1 E2].
  { unfold note_remote in E.
    destruct (bool_decide (remote ≠ me)
              && negb (truthy_state (alist_get remote (remotes r))));
      injection E as <- <-; [|split; auto].
    split; [reflexivity|]. simpl. apply alist_set_NoDup. }
  destruct (IH r' changes') as [H1 H2]. rewrite H1. split; [exact E1|].
  intros Hnd. apply H2, E2, Hnd.
Qed.

Lemma peering_ok_fields (s s' : Slab) :
  local_peerings s' = local_peerings s →
  ref_peerings s' = ref_peerings s →
  peering_ok s → peering_ok s'.
Proof. unfold peering_ok. intros -> ->. auto. Qed.

Lemma note_ref_ok (i : string) (s : Slab) (changes : list (string * list (string * Z)))
    (entry : string * list (string * Z)) :
  peering_ok s → peering_ok (note_ref i (s, changes) entry).1.
Proof.
  intros [H1 H2]. destruct entry as [ref states]. unfold note_ref.
  set (refs := default [] (local_peerings s !! i)).
  set (refs' := if bool_decide (ref ∈ refs) then refs else refs ++ [ref]).
  set (s1 := if bool_decide (ref ∈ refs) then s
             else set_local_peerings (<[i := refs ++ [ref]]>) s).
  assert (ref_peerings s1 = ref_peerings s) as Hrp1.
  { unfold s1. destruct (bool_decide (ref ∈ refs)); reflexivity. }
  set (r0 := default (mkRefPeering [] []) (ref_peerings s1 !! ref)).
  set (r1 := if bool_decide (i ∈ memos r0) then r0
             else mkRefPeering (memos r0 ++ [i]) (remotes r0)).
  pose proof (foldl_note_remote (this_id s) i states r1 changes) as [Hm Hr].
  destruct (foldl (note_remote (this_id s) i) (r1, changes) states) as [r2 changes'].
  simpl in Hm, Hr. cbn [fst].
  assert (NoDup refs ∧ ∀ r, r ∈ refs → ∃ rp, ref_peerings s !! r = Some rp ∧ i ∈ memos rp)
    as [Hrefs Hrefs2].
  { unfold refs. destruct (local_peerings s !! i) as [l|] eqn:E; simpl.
    - exact (H1 i l E).
    - split; [apply NoDup_nil_2|]. intros r Hr0. inversion Hr0. }
  assert (∀ m, local_peerings s1 !! m
               = if bool_decide (m = i)
                 then (if bool_decide (ref ∈ refs) then local_peerings s !! i else Some refs')
                 else local_peerings s !! m) as Hlp.
  { intros m. unfold s1, refs'. destruct (decide (ref ∈ refs)) as [Hin|Hin].
    - rewrite !(bool_decide_eq_true_2 _ Hin).
      destruct (decide (m = i)) as [->|E];
        [rewrite bool_decide_eq_true_2 by reflexivity
        |rewrite bool_decide_eq_false_2 by exact E]; reflexivity.
    - rewrite !(bool_decide_eq_false_2 _ Hin). simpl.
      destruct (decide (m = i)) as [->|E].
      + rewrite bool_decide_eq_true_2 by reflexivity. apply lookup_insert_eq.
      + rewrite bool_decide_eq_false_2 by exact E. apply lookup_insert_ne. congruence. }
  assert (NoDup (memos r0) ∧ NoDup (remotes r0).*1
          ∧ ∀ m, m ∈ memos r0 → ∃ l, local_peerings s !! m = Some l ∧ ref ∈ l)
    as (Hr0a & Hr0b & Hr0c).
  { unfold r0. rewrite Hrp1. destruct (ref_peerings s !! ref) as [rp|] eqn:E; simpl.
    - destruct (H2 ref rp E) as (? & _ & ? & ?). auto.
    - split; [apply NoDup_nil_2|]. split; [apply NoDup_nil_2|]. intros m Hm0. inversion Hm0. }
  assert (memos r2 = if bool_decide (i ∈ memos r0) then memos r0 else memos r0 ++ [i])
    as Hm2.
  { rewrite Hm. unfold r1. destruct (bool_decide (i ∈ memos r0)); reflexivity. }
  assert (i ∈ memos r2) as Hi2.
  { rewrite Hm2. destruct (decide (i ∈ memos r0)) as [E|E];
      [rewrite (bool_decide_eq_true_2 _ E); exact E|rewrite (bool_decide_eq_false_2 _ E)].
    apply elem_of_app. right. left. }
  assert (∀ m, m ∈ memos r0 → m ∈ memos r2) as Hsub.
  { intros m Hm0. rewrite Hm2. destruct (bool_decide (i ∈ memos r0)); [exact Hm0|].
    apply elem_of_app. left. exact Hm0. }
  assert (∀ r, r ∈ refs → r ∈ refs') as Hsub'.
  { intros r Hr0. unfold refs'. destruct (bool_decide (ref ∈ refs)); [exact Hr0|].
    apply elem_of_app. left. exact Hr0. }
  assert (ref ∈ refs') as Hrefin.
  { unfold refs'. destruct (decide (ref ∈ refs)) as [E|E];
      [rewrite (bool_decide_eq_true_2 _ E); exact E|rewrite (bool_decide_eq_false_2 _ E)].
    apply elem_of_app. right. left. }
  assert (NoDup refs') as Hnd'.
  { unfold refs'. destruct (decide (ref ∈ refs)) as [E|E];
      [rewrite (bool_decide_eq_true_2 _ E); exact Hrefs|rewrite (bool_decide_eq_false_2 _ E)].
    apply NoDup_app.
    split; [exact Hrefs|]. split; [|apply NoDup_singleton].
    intros x Hx ->%list_elem_of_singleton. exact (E Hx). }
  assert (local_peerings s1 !! i = Some refs' ∨ (local_peerings s !! i = None ∧ refs' = []))
    as Hli.
  { rewrite Hlp, bool_decide_eq_true_2 by reflexivity. unfold refs'.
    destruct (decide (ref ∈ refs)) as [Hin|Hin].
    - rewrite !(bool_decide_eq_true_2 _ Hin). unfold refs in Hin |- *.
      destruct (local_peerings s !! i); [left; reflexivity|inversion Hin].
    - rewrite !(bool_decide_eq_false_2 _ Hin). left. reflexivity. }
  destruct Hli as [Hli|[_ Hnil]]; [|rewrite Hnil in Hrefin; inversion Hrefin].
  split.
  - intros m l. simpl. intros Hl.
    assert (NoDup l ∧ ∀ r, r ∈ l → r = ref ∨ ∃ rp, ref_peerings s !! r = Some rp ∧ m ∈ memos rp)
      as [Hl1 Hl2].
    { destruct (decide (m = i)) as [->|Hne].
      - rewrite Hli in Hl. injection Hl as <-. split; [exact Hnd'|].
        intros r Hr0. unfold refs' in Hr0. destruct (bool_decide (ref ∈ refs)).
        + right. apply Hrefs2, Hr0.
        + apply elem_of_app in Hr0 as [Hr0|Hr0];
            [right; apply Hrefs2, Hr0|left; apply list_elem_of_singleton, Hr0].
      - rewrite Hlp, bool_decide_eq_false_2 in Hl by exact Hne.
        destruct (H1 m l Hl) as [? Hx]. split; [assumption|]. intros r Hr0. right.
        apply Hx, Hr0. }
    split; [exact Hl1|]. intros r Hr0. destruct (decide (r = ref)) as [->|Hne].
    + rewrite lookup_insert_eq. exists r2. split; [reflexivity|].
      destruct (decide (m = i)) as [->|Hmi]; [exact Hi2|].
      apply Hsub. rewrite Hlp, bool_decide_eq_false_2 in Hl by exact Hmi.
      destruct (H1 m l Hl) as [_ Hx]. destruct (Hx ref Hr0) as (rp & E & Hin).
      unfold r0. rewrite Hrp1, E. exact Hin.
    + rewrite lookup_insert_ne by congruence. rewrite Hrp1.
      destruct (Hl2 r Hr0) as [?|?]; [congruence|assumption].
  - intros r rp. simpl. destruct (decide (r = ref)) as [->|Hne].
    + rewrite lookup_insert_eq. intros [= <-].
      split. { rewrite Hm2. destruct (decide (i ∈ memos r0)) as [E|E];
                 [rewrite (bool_decide_eq_true_2 _ E); exact Hr0a
                 |rewrite (bool_decide_eq_false_2 _ E)].
               apply NoDup_app.
               split; [exact Hr0a|]. split; [|apply NoDup_singleton].
               intros x Hx ->%list_elem_of_singleton. exact (E Hx). }
      split. { intros E. rewrite E in Hi2. inversion Hi2. }
      split. { apply Hr. unfold r1. destruct (bool_decide (i ∈ memos r0)); exact Hr0b. }
      intros m Hm0. destruct (decide (m = i)) as [->|Hmi].
      * exists refs'. split; [exact Hli|exact Hrefin].
      * rewrite Hlp, bool_decide_eq_false_2 by exact Hmi. apply Hr0c.
        rewrite Hm2 in Hm0. destruct (bool_decide (i ∈ memos r0)); [exact Hm0|].
        apply elem_of_app in Hm0 as [Hm0|Hm0]; [exact Hm0|].
        apply list_elem_of_singleton in Hm0. congruence.
    + rewrite lookup_insert_ne by congruence. rewrite Hrp1. intros E.
      destruct (H2 r rp E) as (Ha & Hb & Hc & Hd). split; [exact Ha|]. split; [exact Hb|].
      split; [exact Hc|]. intros m Hm0. destruct (Hd m Hm0) as (l & El & Hl).
      destruct (decide (m = i)) as [->|Hmi].
      * exists refs'. split; [exact Hli|]. apply Hsub'. unfold refs. rewrite El. exact Hl.
      * exists l. rewrite Hlp, bool_decide_eq_false_2 by exact Hmi. split; assumption.
Qed.

Lemma peering_update (f : Slab → Slab) :
  (∀ s, peering_ok s → peering_ok (f s)) → preserves peering_inv (update f).
Proof. intros Hf w Hw. apply Hf, Hw. Qed.

Lemma foldl_note_ref_ok (i : string) (peerings : list (string * list (string * Z))) :
  ∀ s changes, peering_ok s → peering_ok (foldl (note_ref i) (s, changes) peerings).1.
Proof.
  induction peerings as [|e peerings IH]; intros s changes Hs; [exact Hs|].
  cbn [foldl]. pose proof (note_ref_ok i s changes e Hs) as H.
  destruct (note_ref i (s, changes) e) as [s1 changes1]. apply IH, H.
Qed.

Lemma local_default_ok (i : string) (s : Slab) :
  peering_ok s →
  peering_ok (set_local_peerings (λ lp, <[i := default [] (lp !! i)]> lp) s).
Proof.
  intros [H1 H2]. split.
  - intros m refs. simpl. destruct (decide (m = i)) as [->|Hne].
    + rewrite lookup_insert_eq. intros [= <-].
      destruct (local_peerings s !! i) as [l|] eqn:E; simpl.
      * exact (H1 _ l E).
      * split; [apply NoDup_nil_2|]. intros r Hr. inversion Hr.
    + rewrite lookup_insert_ne by congruence. apply H1.
  - intros r rp E. destruct (H2 r rp E) as (Ha & Hb & Hc & Hd).
    split; [exact Ha|]. split; [exact Hb|]. split; [exact Hc|].
    intros m Hm. destruct (Hd m Hm) as (l & El & Hl). simpl.
    destruct (decide (m = i)) as [->|Hne].
    + rewrite lookup_insert_eq, El. exists l. split; [reflexivity|exact Hl].
    + rewrite lookup_insert_ne by congruence. exists l. split; assumption.
Qed.

Lemma updateMemoPeerings_ok (memo : Memo) (peerings : list (string * list (string * Z)))
    (silent : bool) :
  preserves peering_inv (updateMemoPeerings memo peerings silent).
Proof.
  intros w Hw. unfold updateMemoPeerings.
  rewrite bind_run. unfold update at 1. rewrite bind_run. unfold this at 1.
  cbn [slab links trace microtasks]. cbn beta iota.
  pose proof (foldl_note_ref_ok (memo_id memo) peerings _ []
                (local_default_ok (memo_id memo) (slab w) Hw)) as H.
  destruct (foldl (note_ref (memo_id memo)) _ peerings) as [s' changes].
  simpl in H. rewrite bind_run. unfold update at 1. cbn [slab links trace microtasks].
  destruct (_ && _); exact H.
Qed.

Lemma drop_member_Some (i : string) (rp rp' : RefPeering) :
  drop_member i rp = Some rp' →
  memos rp' = filter (λ j, j ≠ i) (memos rp) ∧ memos rp' ≠ [] ∧ remotes rp' = remotes rp.
Proof.
  unfold drop_member. case_bool_decide as E; [discriminate|]. intros [= <-]. auto.
Qed.

Lemma deregistered_ok (i : string) (s : Slab) (rp : gmap string RefPeering) :
  peering_ok s →
  (∀ r, rp !! r
        = if bool_decide (r ∈ default [] (local_peerings s !! i))
          then ref_peerings s !! r ≫= drop_member i
          else ref_peerings s !! r) →
  peering_ok (set_local_peerings (delete i) (set_ref_peerings (λ _, rp) s)).
Proof.
  intros [H1 H2] Hrp. split.
  - intros m refs. simpl. destruct (decide (m = i)) as [->|Hne].
    { rewrite lookup_delete_eq. discriminate. }
    rewrite lookup_delete_ne by congruence. intros E.
    destruct (H1 m refs E) as [Hnd Hx]. split; [exact Hnd|]. intros r Hr.
    destruct (Hx r Hr) as (rp0 & E0 & Hm). rewrite Hrp, E0.
    destruct (bool_decide (r ∈ default [] (local_peerings s !! i))); [|eauto].
    simpl. unfold drop_member.
    assert (m ∈ filter (λ j, j ≠ i) (memos rp0)) as Hin
      by (apply list_elem_of_filter; split; assumption).
    rewrite bool_decide_eq_false_2 by (intros Hnil; rewrite Hnil in Hin; inversion Hin).
    eexists. split; [reflexivity|exact Hin].
  - intros r rp'. simpl. rewrite Hrp.
    destruct (decide (r ∈ default [] (local_peerings s !! i))) as [Hr|Hr].
    + rewrite (bool_decide_eq_true_2 _ Hr).
      destruct (ref_peerings s !! r) as [rp0|] eqn:E0; [|discriminate]. simpl.
      intros (Hm & Hne & Hrem)%drop_member_Some.
      destruct (H2 r rp0 E0) as (Ha & _ & Hc & Hd).
      rewrite Hm, Hrem. split; [apply NoDup_filter, Ha|]. split; [rewrite <- Hm; exact Hne|].
      split; [exact Hc|]. intros m [Hmi Hin]%list_elem_of_filter.
      destruct (Hd m Hin) as (l & El & Hl). exists l.
      rewrite lookup_delete_ne by congruence. split; assumption.
    + rewrite (bool_decide_eq_false_2 _ Hr). intros E0.
      destruct (H2 r rp' E0) as (Ha & Hb & Hc & Hd).
      split; [exact Ha|]. split; [exact Hb|]. split; [exact Hc|].
      intros m Hin. destruct (Hd m Hin) as (l & El & Hl). exists l.
      rewrite lookup_delete_ne; [split; assumption|].
      intros <-. apply Hr. rewrite El. exact Hl.
Qed.

Lemma deregisterPeeringForMemo_run (memo : Memo) (w : World) :
  peering_ok (slab w) →
  ∃ rp changes,
    deregisterPeeringForMemo memo w
    = (mkWorld (set_local_peerings (delete (memo_id memo))
                  (set_ref_peerings (λ _, rp) (slab w)))
         (links w) (trace w ++ [SendPeeringChanges (this_id (slab w)) changes])
         (microtasks w), Return tt)
    ∧ (∀ r, rp !! r
            = if bool_decide (r ∈ default [] (local_peerings (slab w) !! memo_id memo))
              then ref_peerings (slab w) !! r ≫= drop_member (memo_id memo)
              else ref_peerings (slab w) !! r)
    ∧ peering_ok (set_local_peerings (delete (memo_id memo))
                    (set_ref_peerings (λ _, rp) (slab w))).
Proof.
  intros Hok. pose proof Hok as [H1 H2].
  set (refs := default [] (local_peerings (slab w) !! memo_id memo)).
  assert (NoDup refs ∧ ∀ r, r ∈ refs → is_Some (ref_peerings (slab w) !! r)) as [Hnd Hall].
  { unfold refs. destruct (local_peerings (slab w) !! memo_id memo) as [l|] eqn:E; simpl.
    - destruct (H1 _ l E) as [? Hx]. split; [assumption|]. intros r Hr.
      destruct (Hx r Hr) as (rp & -> & _). eauto.
    - split; [apply NoDup_nil_2|]. intros r Hr. inversion Hr. }
  pose proof (deregister_refs_succeeds (memo_id memo) refs (slab w) [] Hnd Hall) as Hs.
  pose proof (deregister_refs_frame (memo_id memo) refs (slab w) []) as [rp Hrp].
  pose proof (λ r, deregister_refs_lookup (memo_id memo) refs (slab w) [] r Hnd Hall) as Hl.
  destruct (deregister_refs (memo_id memo) refs (slab w) []) as [[s' changes] e] eqn:Hder.
  simpl in Hs, Hrp, Hl. subst e s'. exists rp, changes. split; [|split].
  - unfold deregisterPeeringForMemo. rewrite bind_run. unfold this at 1. cbn beta iota.
    fold refs. rewrite Hder. rewrite bind_run. reflexivity.
  - exact Hl.
  - apply deregistered_ok; [exact Hok|exact Hl].
Qed.

Lemma deregisterPeeringForMemo_ok (memo : Memo) :
  preserves peering_inv (deregisterPeeringForMemo memo).
Proof.
  intros w Hw. destruct (deregisterPeeringForMemo_run memo w Hw) as (rp & ch & -> & _ & H).
  exact H.
Qed.

Lemma receive_one_ok (sender : string) (s : Slab) (entry : string * Z) :
  peering_ok s → peering_ok (receive_one sender s entry).
Proof.
  intros [H1 H2]. destruct entry as [k st]. unfold receive_one.
  destruct (ref_peerings s !! k) as [r0|] eqn:E0; [|split; assumption].
  destruct (H2 k r0 E0) as (Ha0 & Hb0 & Hc0 & Hd0). split.
  - intros m refs El. destruct (H1 m refs El) as [Hnd Hx]. split; [exact Hnd|].
    intros r Hr. simpl. destruct (decide (r = k)) as [->|Hne].
    + rewrite lookup_insert_eq. eexists. split; [reflexivity|]. simpl.
      destruct (Hx k Hr) as (rp & E & Hm). congruence.
    + rewrite lookup_insert_ne by congruence. apply Hx, Hr.
  - intros r rp. simpl. destruct (decide (r = k)) as [->|Hne].
    + rewrite lookup_insert_eq. intros [= <-]. simpl.
      split; [exact Ha0|]. split; [exact Hb0|]. split; [|exact Hd0].
      destruct (st =? 0); [apply alist_delete_NoDup|apply alist_set_NoDup]; exact Hc0.
    + rewrite lookup_insert_ne by congruence. apply H2.
Qed.

Lemma receivePeeringChange_ok (sender : string) (change : list (string * Z)) :
  preserves peering_inv (receivePeeringChange sender change).
Proof.
  apply peering_update. induction change as [|e change IH] using rev_ind; intros s Hs.
  - exact Hs.
  - rewrite foldl_app. simpl. apply receive_one_ok, IH, Hs.
Qed.

Ltac keeps_step :=
  match goal with
  | |- preserves _ (mret _) => apply preserves_ret
  | |- preserves _ (throw _) => apply preserves_throw
  | |- preserves _ this => apply preserves_this
  | |- preserves _ (_ ≫= _) => apply preserves_bind; [|intros ?]
  | |- preserves _ (forEach _ _) => apply preserves_forEach; intros ?
  | |- preserves _ (match ?x with _ => _ end) => destruct x
  end.

Ltac keeps_peering :=
  repeat first
    [ keeps_step
    | apply updateMemoPeerings_ok
    | apply deregisterPeeringForMemo_ok
    | (intros w Hw; exact Hw) ].

Lemma checkMemoReplicationFactor_peering (memo : Memo) :
  preserves peering_inv (checkMemoReplicationFactor memo).
Proof. unfold checkMemoReplicationFactor. keeps_peering. Qed.

Lemma killMemo_peering (arg : MemoArg) : preserves peering_inv (killMemo arg).
Proof. unfold killMemo. keeps_peering. Qed.

Lemma evictMemo_peering (arg : MemoArg) : preserves peering_inv (evictMemo arg).
Proof.
  unfold evictMemo. keeps_peering. apply checkMemoReplicationFactor_peering.
Qed.

Lemma evict_loop_peering (ct : nat) :
  ∀ memo, preserves peering_inv (evict_loop ct memo).
Proof.
  induction ct as [|ct IH]; intros [m|]; simpl; try apply preserves_ret.
  apply preserves_bind; [apply evictMemo_peering|]. intros _.
  apply preserves_bind; [intros w Hw; exact Hw|]. intros newer. apply IH.
Qed.

Lemma evictMemos_peering : preserves peering_inv evictMemos.
Proof.
  unfold evictMemos. apply preserves_bind; [apply preserves_this|]. intros s.
  destruct (_ <=? 0); [apply preserves_ret|apply evict_loop_peering].
Qed.

Lemma putMemo_peering (memo : Memo) : preserves peering_inv (putMemo memo).
Proof.
  unfold putMemo, registerMemoPeering.
  repeat first
    [ keeps_step
    | apply evictMemos_peering
    | apply updateMemoPeerings_ok
    | apply checkMemoReplicationFactor_peering
    | (intros w Hw; exact Hw) ].
Qed.

Lemma getMemo_peering (i : string) : preserves peering_inv (getMemo i).
Proof. unfold getMemo. keeps_peering. Qed.

Lemma head_loop_peering (ids : list string) :
  ∀ head, preserves peering_inv (head_loop ids head).
Proof.
  induction ids as [|i ids IH]; intros head; simpl; [apply preserves_ret|].
  apply preserves_bind; [apply getMemo_peering|]. intros [memo|]; [|apply preserves_throw].
  apply preserves_bind; [apply preserves_this|]. intros s.
  destruct (negb _); apply IH.
Qed.

Lemma getHeadMemosForRecord_peering (r : string) :
  preserves peering_inv (getHeadMemosForRecord r).
Proof.
  unfold getHeadMemosForRecord. apply preserves_bind; [apply preserves_this|].
  intros s. apply head_loop_peering.
Qed.

Lemma perform_peering (c : Call) : preserves peering_inv (perform c).
Proof.
  destruct c; simpl.
  - apply putMemo_peering.
  - apply preserves_bind; [apply getMemo_peering|intros ?; apply preserves_ret].
  - apply killMemo_peering.
  - apply evictMemo_peering.
  - apply evictMemos_peering.
  - apply preserves_bind;
      [apply checkMemoReplicationFactor_peering|intros ?; apply preserves_ret].
  - apply updateMemoPeerings_ok.
  - apply updateMemoPeerings_ok.
  - apply receivePeeringChange_ok.
  - apply deregisterPeeringForMemo_ok.
  - apply preserves_bind; [apply getHeadMemosForRecord_peering|intros ?; apply preserves_ret].
  - apply preserves_bind; [|intros ?; apply preserves_ret].
    unfold getHeadMemoIDsForRecord.
    apply preserves_bind; [apply getHeadMemosForRecord_peering|intros ?; apply preserves_ret].
  - intros w Hw. exact Hw.
  - apply preserves_bind; [|intros ?; apply preserves_ret].
    unfold genChildID. keeps_peering.
Qed.

Lemma run_task_peering (t : Task) : preserves peering_inv (run_task t).
Proof.
  destruct t as [[v|e] memo|[v|e]]; simpl; try (intros w Hw; exact Hw).
  destruct (truthy_value v); [|apply preserves_ret]. intros w Hw.
  pose proof (killMemo_peering (ByObj memo) w Hw) as H.
  destruct (killMemo (ByObj memo) w) as [w' [[]|e]]; exact H.
Qed.

Lemma drain_peering (w : World) : peering_inv w → peering_inv (drain w).
Proof.
  intros Hw. unfold drain.
  assert (peering_inv (mkWorld (slab w) (links w) (trace w) [])) as H0 by exact Hw.
  revert H0. generalize (mkWorld (slab w) (links w) (trace w) []).
  induction (microtasks w) as [|t q IH]; intros w0 H0; [exact H0|].
  simpl. apply IH, run_task_peering, H0.
Qed.

Lemma new_Slab_fresh (k : Z) (args : option SlabArgs) (w : World) :
  (new_Slab k args).2 = Return w →
  ∃ i q l m, w = mkWorld (mkSlab i 0 ∅ ∅ ∅ ∅ 0 q l m ∅ ∅ None None) ∅ [RegisterSlab i] [].
Proof.
  unfold new_Slab. destruct (1296 <? k); [discriminate|].
  destruct args as [a|]; [|discriminate].
  destruct (args_id a) as [i|]; [|discriminate].
  destruct (args_mesh a) as [m|]; [|destruct (bool_decide _); discriminate].
  destruct (bool_decide (i = ""%string)); [discriminate|].
  destruct (bool_decide (js_length i ≠ 1%nat)); [discriminate|].
  intros [= <-]. eauto.
Qed.

Lemma reachable_peering (w : World) : reachable w → peering_ok (slab w).
Proof.
  induction 1 as [k args w Hnew|c w Hw IH].
  - apply new_Slab_fresh in Hnew as (i & q & l & m & ->). split.
    + intros x refs. simpl. rewrite lookup_empty. discriminate.
    + intros r rp. simpl. rewrite lookup_empty. discriminate.
  - apply drain_peering, perform_peering, IH.
Qed.

(** ** Child ids *)

Lemma value36_digit36 (d : N) : (d < 36)%N → value36 (digit36 d) = d.
Proof.
  intros Hd. unfold value36, digit36.
  destruct (N.ltb_spec d 10) as [H|H]; rewrite Ascii.N_ascii_embedding by lia.
  - destruct (N.ltb_spec (48 + d) 58); lia.
  - destruct (N.ltb_spec (87 + d) 58); lia.
Qed.

Lemma decode36_digits36 (fuel : nat) :
  ∀ n rest, (n < 36 ^ N.of_nat fuel)%N →
            decode36 (digits36 fuel n rest) 0 = decode36 rest n.
Proof.
  induction fuel as [|fuel IH]; intros n rest Hn.
  - simpl in Hn. assert (n = 0%N) as -> by lia. reflexivity.
  - cbn [digits36]. destruct (N.ltb_spec n 36) as [H|H].
    + cbn [decode36]. rewrite N.mod_small by exact H.
      rewrite value36_digit36 by exact H. reflexivity.
    + rewrite IH.
      * cbn [decode36]. rewrite value36_digit36 by (apply N.mod_lt; lia).
        f_equal. rewrite (N.div_mod n 36) at 3 by lia. lia.
      * rewrite Nat2N.inj_succ, N.pow_succ_r' in Hn.
        apply N.Div0.div_lt_upper_bound. exact Hn.
Qed.

Lemma size_bound (n : N) : (n < 36 ^ N.of_nat (S (N.size_nat n)))%N.
Proof.
  assert (n < 2 ^ N.of_nat (N.size_nat n))%N as H.
  { destruct n as [|p]; [reflexivity|]. simpl N.size_nat.
    induction p as [p IH|p IH|]; [| |reflexivity];
      simpl Pos.size_nat; rewrite Nat2N.inj_succ, N.pow_succ_r'; lia. }
  eapply N.lt_le_trans; [exact H|].
  transitivity (36 ^ N.of_nat (N.size_nat n))%N.
  - apply N.pow_le_mono_l. lia.
  - apply N.pow_le_mono_r; lia.
Qed.

Lemma decode36_toString36 (n : Z) : 0 ≤ n → decode36 (toString36 n) 0 = Z.to_N n.
Proof.
  intros Hn. unfold toString36. destruct (Z.ltb_spec n 0); [lia|].
  rewrite decode36_digits36 by apply size_bound. reflexivity.
Qed.

Lemma toString36_inj (a b : Z) : 0 ≤ a → 0 ≤ b → toString36 a = toString36 b → a = b.
Proof.
  intros Ha Hb E. apply (f_equal (λ s, decode36 s 0)) in E.
  rewrite !decode36_toString36 in E by assumption. lia.
Qed.

Lemma one_char_prefix (a b x y : string) :
  String.length a = 1%nat → String.length b = 1%nat →
  (a +:+ x = b +:+ y)%string → a = b ∧ x = y.
Proof.
  destruct a as [|ca [|? ?]], b as [|cb [|? ?]]; try discriminate.
  intros _ _ E. change (String ca x = String cb y) in E. injection E as -> ->. auto.
Qed.

Lemma genChildID_run (w : World) :
  genChildID w
  = (mkWorld (set_child_increment js_increment (slab w)) (links w) (trace w) (microtasks w),
     Return (this_id (slab w) +:+ toString36 (child_increment (slab w)))).
Proof. reflexivity. Qed.

Lemma append_inj_l (a x y : string) : (a +:+ x = a +:+ y)%string → x = y.
Proof.
  induction a as [|c a IH]; intros E; [exact E|].
  change (String c (a +:+ x) = String c (a +:+ y)) in E. injection E as E. exact (IH E).
Qed.

Lemma genChildIDs_run (n : nat) :
  ∀ w,
    0 ≤ child_increment (slab w) →
    child_increment (slab w) + Z.of_nat n ≤ 2 ^ 53 →
    ∃ w', genChildIDs n w
          = (w', Return ((λ k, this_id (slab w) +:+ toString36 k)
                           <$> seqZ (child_increment (slab w)) (Z.of_nat n)))
          ∧ this_id (slab w') = this_id (slab w)
          ∧ child_increment (slab w') = child_increment (slab w) + Z.of_nat n.
Proof.
  induction n as [|n IH]; intros w H0 Hn.
  - exists w. split; [reflexivity|]. split; [reflexivity|lia].
  - cbn [genChildIDs]. rewrite bind_run, genChildID_run.
    set (w1 := mkWorld (set_child_increment js_increment (slab w)) (links w) (trace w)
                 (microtasks w)).
    assert (child_increment (slab w1) = child_increment (slab w) + 1) as Hc.
    { unfold w1. cbn [slab]. unfold set_child_increment. cbn [child_increment].
      unfold js_increment. destruct (Z.ltb_spec (child_increment (slab w)) (2 ^ 53)); lia. }
    destruct (IH w1) as (w' & Hrun & Hid & Hcnt); [lia|lia|].
    exists w'. rewrite bind_run, Hrun. split; [|split].
    + unfold mret, M_ret. rewrite Hc. f_equal. f_equal.
      rewrite Nat2Z.inj_succ, (seqZ_cons (child_increment (slab w))) by lia.
      rewrite fmap_cons. do 3 f_equal; lia.
    + exact Hid.
    + rewrite Hcnt, Hc. lia.
Qed.

(** ** Listing the LRU list *)

Lemma dump_loop_chain (h : gmap string Links) (o : list Memo) :
  ∀ (next : option Memo) (fuel : nat),
    chain h None o next →
    (length o ≤ fuel)%nat →
    dump_loop fuel h (last o) = Some (reverse o).
Proof.
  induction o as [|m o IH] using rev_ind; intros next fuel Hc Hf.
  - destruct fuel; reflexivity.
  - rewrite last_snoc, reverse_snoc. rewrite length_app in Hf. simpl in Hf.
    destruct fuel as [|fuel]; [lia|]. apply chain_app in Hc as [Ha Hb].
    simpl in Ha, Hb. destruct Hb as (Ho & _ & _). rewrite from_option_Some_None in Ho.
    simpl. rewrite Ho, (IH (Some m) fuel Ha) by lia. reflexivity.
Qed.

(** ** Memo objects and the record index *)

Section maintains.
Context {I : World → Prop}.

Lemma maintains_bind {A B} (c : M A) (f : A → M B) (φ : A → Prop) (ψ : B → Prop) :
  maintains I c φ → (∀ a, φ a → maintains I (f a) ψ) → maintains I (c ≫= f) ψ.
Proof.
  intros Hc Hf w Hw. rewrite bind_run. destruct (Hc w Hw) as [H1 H2].
  destruct (c w) as [w' [a|e]]; simpl in *.
  - apply (Hf a (H2 a eq_refl) w' H1).
  - split; [exact H1|discriminate].
Qed.

Lemma maintains_ret {A} (a : A) (φ : A → Prop) : φ a → maintains I (mret a) φ.
Proof. intros Ha w Hw. split; [exact Hw|]. intros b [= <-]. exact Ha. Qed.

Lemma maintains_throw {A} (e : Exn) (φ : A → Prop) : maintains I (throw e) φ.
Proof. intros w Hw. split; [exact Hw|discriminate]. Qed.



Lemma maintains_forEach {A} (xs : list A) (body : A → M unit) (φ : unit → Prop) :
  (∀ u, φ u) →
  (∀ x, maintains I (body x) φ) → maintains I (forEach xs body) φ.
Proof.
  intros Hφ Hb. induction xs as [|x xs IH]; simpl; [apply maintains_ret, Hφ|].
  apply (maintains_bind _ _ φ); [apply Hb|intros _ _; exact IH].
Qed.
End maintains.

Lemma splice_indexOf_NoDup (x : string) (l : list string) :
  NoDup l → x ∈ l →
  NoDup (splice_indexOf x l) ∧ ∀ y, y ∈ splice_indexOf x l ↔ y ∈ l ∧ y ≠ x.
Proof.
  intros Hnd Hx. unfold splice_indexOf.
  assert (∃ l', remove_first x l = Some l' ∧ NoDup l' ∧ ∀ y, y ∈ l' ↔ y ∈ l ∧ y ≠ x)
    as (l' & -> & H1 & H2); [|split; assumption].
  induction l as [|z l IH]; [inversion Hx|].
  apply NoDup_cons in Hnd as [Hz Hnd]. simpl.
  destruct (decide (x = z)) as [->|Hne].
  - rewrite bool_decide_eq_true_2 by reflexivity. exists l. split; [reflexivity|].
    split; [exact Hnd|]. intros y. rewrite elem_of_cons. split.
    + intros Hy. split; [right; exact Hy|]. intros ->. exact (Hz Hy).
    + intros [[->|Hy] Hyz]; [congruence|exact Hy].
  - rewrite bool_decide_eq_false_2 by exact Hne.
    apply elem_of_cons in Hx as [->|Hx]; [congruence|].
    destruct (IH Hnd Hx) as (l' & -> & H1 & H2). exists (z :: l'). split; [reflexivity|].
    split.
    + apply NoDup_cons. split; [|exact H1]. intros Hz'. apply H2 in Hz' as [Hz' _].
      exact (Hz Hz').
    + intros y. rewrite !elem_of_cons, H2. split.
      * intros [->|[Hy Hyx]]; [split; [left; reflexivity|congruence]|split; [right|]; assumption].
      * intros [[->|Hy] Hyx]; [left; reflexivity|right; split; assumption].
Qed.

Section sound.
Variable U : string → Memo.
Hypothesis U_id : ∀ i, memo_id (U i) = i.

Lemma sound_this : maintains (sound U) this (slab_sound U).
Proof. intros w Hw. split; [exact Hw|]. intros s [= <-]. apply Hw. Qed.

Lemma sound_update (f : Slab → Slab) (φ : unit → Prop) :
  (∀ u, φ u) →
  (∀ s, slab_sound U s → slab_sound U (f s)) → maintains (sound U) (update f) φ.
Proof.
  intros Hφ Hf w (Hs & Hn & Ho & Hq). split; [|intros; apply Hφ].
  split; [apply Hf, Hs|]. auto.
Qed.

Lemma sound_emit (e : Event) (φ : unit → Prop) :
  (∀ u, φ u) → maintains (sound U) (emit e) φ.
Proof. intros Hφ w Hw. split; [exact Hw|intros; apply Hφ]. Qed.

Lemma sound_enqueue (t : Task) (φ : unit → Prop) :
  (∀ u, φ u) → task_ok U t → maintains (sound U) (enqueue t) φ.
Proof.
  intros Hφ Ht w (Hs & Hn & Ho & Hq). split; [|intros; apply Hφ].
  split; [exact Hs|]. split; [exact Hn|]. split; [exact Ho|].
  simpl. apply Forall_app. split; [exact Hq|]. apply Forall_singleton, Ht.
Qed.

Lemma sound_get_newer (memo : Memo) :
  maintains (sound U) (get_newer memo) (λ v, ∀ n, v = Some n → is_object U n).
Proof.
  intros w Hw. split; [exact Hw|]. intros v [= <-] n Hn.
  destruct Hw as (_ & H & _). exact (H memo n Hn).
Qed.

Lemma sound_get_older (memo : Memo) :
  maintains (sound U) (get_older memo) (λ v, ∀ n, v = Some n → is_object U n).
Proof.
  intros w Hw. split; [exact Hw|]. intros v [= <-] n Hn.
  destruct Hw as (_ & _ & H & _). exact (H memo n Hn).
Qed.

Lemma sound_set_newer (memo : Memo) (v : option Memo) (φ : unit → Prop) :
  (∀ u, φ u) →
  (∀ n, v = Some n → is_object U n) → maintains (sound U) (set_newer memo v) φ.
Proof.
  intros Hφ Hv w (Hs & Hn & Ho & Hq). split; [|intros; apply Hφ].
  split; [exact Hs|]. split; [|split; [|exact Hq]]; simpl.
  - intros x m. rewrite newer_upd_newer. case_bool_decide; [apply Hv|apply Hn].
  - intros x m. rewrite older_upd_newer. apply Ho.
Qed.

Lemma sound_set_older (memo : Memo) (v : option Memo) (φ : unit → Prop) :
  (∀ u, φ u) →
  (∀ n, v = Some n → is_object U n) → maintains (sound U) (set_older memo v) φ.
Proof.
  intros Hφ Hv w (Hs & Hn & Ho & Hq). split; [|intros; apply Hφ].
  split; [exact Hs|]. split; [|split; [|exact Hq]]; simpl.
  - intros x m. rewrite newer_upd_older. apply Hn.
  - intros x m. rewrite older_upd_older. case_bool_decide; [apply Hv|apply Ho].
Qed.

Lemma slab_sound_head (s : Slab) (v : option Memo) :
  (∀ n, v = Some n → is_object U n) → slab_sound U s → slab_sound U (set_head v s).
Proof. intros Hv (H1 & H2 & H3 & H4). split; [|split; [|split]]; auto. Qed.

Lemma slab_sound_tail (s : Slab) (v : option Memo) :
  (∀ n, v = Some n → is_object U n) → slab_sound U s → slab_sound U (set_tail v s).
Proof. intros Hv (H1 & H2 & H3 & H4). split; [|split; [|split]]; auto. Qed.

Lemma sound_checkMemoReplicationFactor (memo : Memo) :
  maintains (sound U) (checkMemoReplicationFactor memo) (λ _, True).
Proof.
  unfold checkMemoReplicationFactor.
  apply (maintains_bind _ _ _ _ sound_this). intros s _.
  destruct (getMemoPeers s (memo_id memo) true); [|apply maintains_ret; exact I].
  apply (maintains_bind _ _ (λ _, True)); [apply sound_emit; auto|]. intros _ _.
  apply (maintains_bind _ _ (λ _, True)); [|intros _ _; apply maintains_ret; exact I].
  apply maintains_forEach; [auto|]. intros x. apply sound_emit. auto.
Qed.

Lemma foldl_note_ref_frame (i : string) (peerings : list (string * list (string * Z))) :
  ∀ s changes,
    ∃ lp rp, (foldl (note_ref i) (s, changes) peerings).1
             = set_local_peerings (λ _, lp) (set_ref_peerings (λ _, rp) s).
Proof.
  induction peerings as [|[ref states] peerings IH]; intros s changes.
  - exists (local_peerings s), (ref_peerings s). destruct s; reflexivity.
  - cbn [foldl].
    destruct (note_ref i (s, changes) (ref, states)) as [s1 changes1] eqn:E.
    assert (∃ lp rp, s1 = set_local_peerings (λ _, lp) (set_ref_peerings (λ _, rp) s))
      as (lp & rp & ->).
    { unfold note_ref in E.
      destruct (foldl (note_remote (this_id s) i) _ states) as [r2 changes'].
      injection E as <- _. destruct (bool_decide (ref ∈ _)); eexists _, _; reflexivity. }
    destruct (IH (set_local_peerings (λ _, lp) (set_ref_peerings (λ _, rp) s)) changes1)
      as (lp' & rp' & ->).
    exists lp', rp'. reflexivity.
Qed.

Lemma sound_updateMemoPeerings (memo : Memo) (peerings : list (string * list (string * Z)))
    (silent : bool) :
  maintains (sound U) (updateMemoPeerings memo peerings silent) (λ _, True).
Proof.
  unfold updateMemoPeerings.
  apply (maintains_bind _ _ (λ _, True)).
  { apply sound_update; [auto|]. intros s Hs. exact Hs. }
  intros _ _. apply (maintains_bind _ _ _ _ sound_this). intros s Hs.
  destruct (foldl_note_ref_frame (memo_id memo) peerings s []) as (lp & rp & E).
  destruct (foldl (note_ref (memo_id memo)) (s, []) peerings) as [s' changes].
  simpl in E. subst s'.
  apply (maintains_bind _ _ (λ _, True)).
  { apply sound_update; [auto|]. intros _ _. exact Hs. }
  intros _ _. destruct (_ && _); [apply sound_emit; auto|apply maintains_ret; exact I].
Qed.

Lemma sound_deregisterPeeringForMemo (memo : Memo) :
  maintains (sound U) (deregisterPeeringForMemo memo) (λ _, True).
Proof.
  unfold deregisterPeeringForMemo.
  apply (maintains_bind _ _ _ _ sound_this). intros s Hs.
  destruct (deregister_refs_frame (memo_id memo)
              (default [] (local_peerings s !! memo_id memo)) s []) as [rp E].
  destruct (deregister_refs _ _ s []) as [[s' changes] [e|]]; simpl in E; subst s'.
  - apply (maintains_bind _ _ (λ _, True)); [|intros _ _; apply maintains_throw].
    apply sound_update; [auto|]. intros _ _. exact Hs.
  - apply (maintains_bind _ _ (λ _, True)); [|intros _ _; apply sound_emit; auto].
    apply sound_update; [auto|]. intros _ _. exact Hs.
Qed.
End sound.

Section sound_methods.
Variable U : string → Memo.
Hypothesis U_id : ∀ i, memo_id (U i) = i.

Lemma resolve_object (s : Slab) (arg : MemoArg) (memo : Memo) :
slab_sound U s →
match arg with ByObj m => is_object U m | ById _ => True end →
resolve s arg = Some memo → is_object U memo.
Proof using U_id.
intros (H1 & _) Harg. destruct arg as [i|m]; simpl.
- intros E. rewrite (H1 i memo E). unfold is_object. rewrite U_id. reflexivity.
- intros [= <-]. exact Harg.
Qed.

(** The part of [killMemo] after the two indexes are updated. *)
Lemma sound_kill_rest (memo : Memo) :
is_object U memo →
maintains (sound U)
  (forEach (parents memo) (λ parent_id,
     s ← this;
     match _memo_ids_by_parent s !! parent_id with
     | None => throw TypeError
     | Some ref => throw TypeError
     end);;
   deregisterPeeringForMemo memo;;
   newer ← get_newer memo;
   older ← get_older memo;
   match newer, older with
   | Some n, Some o => set_newer o (Some n);; set_older n (Some o)
   | Some n, None => set_older n None;; update (set_head (Some n))
   | None, Some o => set_newer o None;; update (set_tail (Some o))
   | None, None => update (set_head None);; update (set_tail None)
   end;;
   update (set_size (λ n, n - 1)))
  (λ _, True).
Proof.
intros Hm.
apply (maintains_bind _ _ (λ _, True)).
{ apply maintains_forEach; [auto|]. intros p.
  apply (maintains_bind _ _ _ _ (sound_this U)). intros s _.
  destruct (_memo_ids_by_parent s !! p); apply maintains_throw. }
intros _ _. apply (maintains_bind _ _ _ _ (sound_deregisterPeeringForMemo U memo)).
intros _ _. apply (maintains_bind _ _ _ _ (sound_get_newer U memo)). intros newer Hn.
apply (maintains_bind _ _ _ _ (sound_get_older U memo)). intros older Ho.
apply (maintains_bind _ _ (λ _, True)).
- destruct newer as [n|], older as [o|].
  + apply (maintains_bind _ _ (λ _, True)); [|intros _ _];
      [apply sound_set_newer|apply sound_set_older]; auto;
      intros x [= <-]; auto.
  + apply (maintains_bind _ _ (λ _, True)); [|intros _ _].
    * apply sound_set_older; [auto|discriminate].
    * apply sound_update; [auto|]. intros s. apply slab_sound_head.
      intros x [= <-]. auto.
  + apply (maintains_bind _ _ (λ _, True)); [|intros _ _].
    * apply sound_set_newer; [auto|discriminate].
    * apply sound_update; [auto|]. intros s. apply slab_sound_tail.
      intros x [= <-]. auto.
  + apply (maintains_bind _ _ (λ _, True)); [|intros _ _]; apply sound_update; auto;
      intros s; [apply slab_sound_head|apply slab_sound_tail]; discriminate.
- intros _ _. apply sound_update; [auto|]. intros s Hs. exact Hs.
Qed.

Lemma slab_sound_killed (s : Slab) (memo : Memo) (mbr : list string) :
slab_sound U s →
_memos_by_id s !! memo_id memo = Some memo →
_memo_ids_by_record s !! rid memo = Some mbr →
slab_sound U
  (set_memo_ids_by_record (<[rid memo := splice_indexOf (memo_id memo) mbr]>)
     (set_memos_by_id (delete (memo_id memo)) s)).
Proof using U_id.
intros (H1 & [H2 H3] & H4 & H5) Hres Hmbr.
destruct (H2 _ mbr Hmbr) as [Hnd Hall].
assert (memo_id memo ∈ mbr) as Hin.
{ destruct (H3 _ memo Hres) as (l & El & Hl). congruence. }
destruct (splice_indexOf_NoDup (memo_id memo) mbr Hnd Hin) as [Hnd' Hsp].
split; [|split; [split|split]]; simpl.
- intros i m. destruct (decide (i = memo_id memo)) as [->|Hne].
  + rewrite lookup_delete_eq. discriminate.
  + rewrite lookup_delete_ne by congruence. apply H1.
- intros r l. destruct (decide (r = rid memo)) as [->|Hne].
  + rewrite lookup_insert_eq. intros [= <-]. split; [exact Hnd'|].
    intros i [Hi Hne]%Hsp. rewrite lookup_delete_ne by congruence. apply Hall, Hi.
  + rewrite lookup_insert_ne by congruence. intros El.
    destruct (H2 r l El) as [Hndl Hl]. split; [exact Hndl|]. intros i Hi.
    destruct (Hl i Hi) as (m & Em & Hr). exists m. split; [|exact Hr].
    rewrite lookup_delete_ne; [exact Em|]. intros <-. apply Hne.
    rewrite Hres in Em. injection Em as <-. symmetry. exact Hr.
- intros i m. destruct (decide (i = memo_id memo)) as [->|Hne].
  { rewrite lookup_delete_eq. discriminate. }
  rewrite lookup_delete_ne by congruence. intros Em.
  destruct (H3 i m Em) as (l & El & Hl).
  destruct (decide (rid m = rid memo)) as [E|E].
  + rewrite E, lookup_insert_eq. eexists. split; [reflexivity|]. apply Hsp.
    split; [|exact Hne]. rewrite E, Hmbr in El. injection El as ->. exact Hl.
  + rewrite lookup_insert_ne by congruence. eauto.
- exact H4.
- exact H5.
Qed.

Lemma sound_killMemo (arg : MemoArg) :
match arg with ByObj m => is_object U m | ById _ => True end →
maintains (sound U) (killMemo arg) (λ _, True).
Proof using U_id.
intros Harg w Hw. pose proof Hw as (Hs & Hn & Ho & Hq).
destruct (resolve (slab w) arg) as [memo|] eqn:Hres.
2:{ assert (killMemo arg w = emit (ConsoleError "invalid memo") w) as ->.
    { unfold killMemo. rewrite bind_run. unfold this at 1. cbn beta iota.
      rewrite Hres. reflexivity. }
    apply (sound_emit U _ (λ _, True)); auto. }
pose proof (resolve_object (slab w) arg memo Hs Harg Hres) as Hobj.
destruct (_memos_by_id (slab w) !! memo_id memo) as [m'|] eqn:Hm.
2:{ assert (killMemo arg w = emit (ConsoleError "invalid memo") w) as ->.
    { unfold killMemo. rewrite bind_run. unfold this at 1. cbn beta iota.
      rewrite Hres, Hm. reflexivity. }
    apply (sound_emit U _ (λ _, True)); auto. }
assert (m' = memo) as ->.
{ destruct Hs as (H1 & _). rewrite (H1 _ m' Hm). symmetry. exact Hobj. }
destruct (bool_decide (is_Some (_records_by_id (slab w) !! rid memo))
          && negb (truthy_string (_memo_ids_by_parent (slab w) !! memo_id memo)))
  eqn:Hprot.
{ assert (killMemo arg w = (w, Return tt)) as ->.
  { unfold killMemo. rewrite bind_run. unfold this at 1. cbn beta iota.
    rewrite Hres, Hm, Hprot. reflexivity. }
  split; [exact Hw|auto]. }
pose proof Hs as (H1 & [H2 H3] & H4 & H5).
destruct (H3 _ memo Hm) as (mbr & Hmbr & Hin).
match goal with |- sound U (?c w).1 ∧ _ =>
  assert (∃ rest : M unit,
            maintains (sound U) rest (λ _, True)
            ∧ c w = rest (mkWorld
                      (set_memo_ids_by_record
                         (<[rid memo := splice_indexOf (memo_id memo) mbr]>)
                         (set_memos_by_id (delete (memo_id memo)) (slab w)))
                      (links w) (trace w) (microtasks w)))
    as (rest & Hrest & ->)
end.
{ eexists. split; [exact (sound_kill_rest memo Hobj)|].
  unfold killMemo. rewrite bind_run. unfold this at 1. cbn beta iota.
  rewrite Hres, Hm, Hprot.
  rewrite bind_run. unfold update at 1. rewrite bind_run, Hmbr. unfold update at 1.
  reflexivity. }
apply Hrest. split; [|auto].
apply slab_sound_killed; [exact Hs|exact Hm|exact Hmbr].
Qed.
End sound_methods.

Section sound_calls.
Variable U : string → Memo.
Hypothesis U_id : ∀ i, memo_id (U i) = i.

Lemma sound_evictMemo (arg : MemoArg) :
match arg with ByObj m => is_object U m | ById _ => True end →
maintains (sound U) (evictMemo arg) (λ _, True).
Proof using U_id.
intros Harg. unfold evictMemo.
apply (maintains_bind _ _ _ _ (sound_this U)). intros s Hs.
destruct (resolve s arg) as [memo|] eqn:Hres; [|apply maintains_throw].
pose proof (resolve_object U U_id s arg memo Hs Harg Hres) as Hobj.
apply (maintains_bind _ _ (λ _, True)); [apply sound_emit; auto|]. intros _ _.
apply (maintains_bind _ _ _ _ (sound_checkMemoReplicationFactor U memo)). intros p _.
apply sound_enqueue; [auto|exact Hobj].
Qed.

Lemma sound_evict_loop (ct : nat) :
∀ memo, (∀ m, memo = Some m → is_object U m) →
        maintains (sound U) (evict_loop ct memo) (λ _, True).
Proof using U_id.
induction ct as [|ct IH]; intros [m|] Hm; simpl; try (apply maintains_ret; exact I).
apply (maintains_bind _ _ (λ _, True)).
{ apply sound_evictMemo. apply Hm. reflexivity. }
intros _ _. apply (maintains_bind _ _ _ _ (sound_get_newer U m)). intros newer Hn.
apply IH, Hn.
Qed.

Lemma sound_evictMemos : maintains (sound U) evictMemos (λ _, True).
Proof using U_id.
unfold evictMemos. apply (maintains_bind _ _ _ _ (sound_this U)). intros s Hs.
destruct (_ <=? 0); [apply maintains_ret; exact I|].
apply sound_evict_loop. apply Hs.
Qed.

(** The part of [putMemo] after the two indexes are updated. *)
Lemma sound_put_rest (memo : Memo) (s : Slab) :
is_object U memo →
slab_sound U s →
maintains (sound U)
  (forEach (parents memo) (λ parent_id,
     update (set_memo_ids_by_parent (<[parent_id := memo_id memo]>)));;
   forEach (default [] (_records_by_id s !! rid memo)) (λ r,
     emit (AddedMemos r [memo_id memo]));;
   match this_tail s with
   | Some t => set_newer t (Some memo);; set_older memo (Some t)
   | None => update (set_head (Some memo))
   end;;
   update (set_tail (Some memo));;
   (if bool_decide (this_size s = limit s)
    then evictMemos
    else update (set_size (λ n, n + 1)));;
   registerMemoPeering memo (memo_id memo) (this_id s) 2 false;;
   p ← checkMemoReplicationFactor memo;
   enqueue (CatchLog p))
  (λ _, True).
Proof using U_id.
intros Hobj Hs.
apply (maintains_bind _ _ (λ _, True)).
{ apply maintains_forEach; [auto|]. intros p. apply sound_update; [auto|].
  intros s0 Hs0. exact Hs0. }
intros _ _. apply (maintains_bind _ _ (λ _, True)).
{ apply maintains_forEach; [auto|]. intros r. apply sound_emit. auto. }
intros _ _. apply (maintains_bind _ _ (λ _, True)).
{ destruct (this_tail s) as [t|] eqn:Et.
  - apply (maintains_bind _ _ (λ _, True)); [|intros _ _].
    + apply sound_set_newer; [auto|]. intros x [= <-]. exact Hobj.
    + apply sound_set_older; [auto|]. intros x [= <-]. apply Hs, Et.
  - apply sound_update; [auto|]. intros s0. apply slab_sound_head.
    intros x [= <-]. exact Hobj. }
intros _ _. apply (maintains_bind _ _ (λ _, True)).
{ apply sound_update; [auto|]. intros s0. apply slab_sound_tail.
  intros x [= <-]. exact Hobj. }
intros _ _. apply (maintains_bind _ _ (λ _, True)).
{ destruct (bool_decide (this_size s = limit s)); [apply sound_evictMemos|].
  apply sound_update; [auto|]. intros s0 Hs0. exact Hs0. }
intros _ _. apply (maintains_bind _ _ (λ _, True)).
{ apply sound_updateMemoPeerings. }
intros _ _. apply (maintains_bind _ _ _ _ (sound_checkMemoReplicationFactor U memo)).
intros p _. apply sound_enqueue; [auto|exact I].
Qed.

Lemma slab_sound_put (s : Slab) (memo : Memo) :
is_object U memo →
slab_sound U s →
_memos_by_id s !! memo_id memo = None →
slab_sound U
  (set_memo_ids_by_record
     (λ m, <[rid memo := default [] (m !! rid memo) ++ [memo_id memo]]> m)
     (set_memos_by_id (<[memo_id memo := memo]>) s)).
Proof.
intros Hobj (H1 & [H2 H3] & H4 & H5) Hnew.
split; [|split; [split|split]]; simpl.
- intros i m. destruct (decide (i = memo_id memo)) as [->|Hne].
  + rewrite lookup_insert_eq. intros [= <-]. exact Hobj.
  + rewrite lookup_insert_ne by congruence. apply H1.
- intros r l. destruct (decide (r = rid memo)) as [->|Hne].
  + rewrite lookup_insert_eq. intros [= <-].
    assert (NoDup (default [] (_memo_ids_by_record s !! rid memo))
            ∧ ∀ i, i ∈ default [] (_memo_ids_by_record s !! rid memo) →
                   ∃ m, _memos_by_id s !! i = Some m ∧ rid m = rid memo) as [Hnd Hall].
    { destruct (_memo_ids_by_record s !! rid memo) as [l|] eqn:El; simpl.
      - exact (H2 _ l El).
      - split; [apply NoDup_nil_2|]. intros i Hi. inversion Hi. }
    split.
    * apply NoDup_app. split; [exact Hnd|]. split; [|apply NoDup_singleton].
      intros x Hx ->%list_elem_of_singleton.
      destruct (Hall _ Hx) as (m & Em & _). congruence.
    * intros i [Hi|Hi]%elem_of_app.
      -- destruct (Hall i Hi) as (m & Em & Hr). exists m. split; [|exact Hr].
         rewrite lookup_insert_ne; [exact Em|]. intros <-. congruence.
      -- apply list_elem_of_singleton in Hi. subst i. exists memo.
         split; [apply lookup_insert_eq|reflexivity].
  + rewrite lookup_insert_ne by congruence. intros El.
    destruct (H2 r l El) as [Hnd Hl]. split; [exact Hnd|]. intros i Hi.
    destruct (Hl i Hi) as (m & Em & Hr). exists m. split; [|exact Hr].
    rewrite lookup_insert_ne; [exact Em|]. intros <-. congruence.
- intros i m. destruct (decide (i = memo_id memo)) as [->|Hne].
  + rewrite lookup_insert_eq. intros [= <-]. rewrite lookup_insert_eq.
    eexists. split; [reflexivity|]. apply elem_of_app. right. left.
  + rewrite lookup_insert_ne by congruence. intros Em.
    destruct (H3 i m Em) as (l & El & Hl).
    destruct (decide (rid m = rid memo)) as [E|E].
    * rewrite E, lookup_insert_eq. eexists. split; [reflexivity|].
      apply elem_of_app. left. rewrite <- E, El. exact Hl.
    * rewrite lookup_insert_ne by congruence. eauto.
- exact H4.
- exact H5.
Qed.

Lemma sound_putMemo (memo : Memo) :
is_object U memo → maintains (sound U) (putMemo memo) (λ _, True).
Proof using U_id.
intros Hobj w Hw. pose proof Hw as (Hs & Hn & Ho & Hq).
destruct (_memos_by_id (slab w) !! memo_id memo) as [m'|] eqn:Hm.
{ assert (putMemo memo w = (w, Return tt)) as ->.
  { unfold putMemo. rewrite bind_run. unfold this at 1. cbn beta iota.
    rewrite Hm. reflexivity. }
  split; [exact Hw|auto]. }
match goal with |- sound U (?c w).1 ∧ _ =>
  assert (∃ rest : M unit,
            maintains (sound U) rest (λ _, True)
            ∧ c w = rest (mkWorld
                      (set_memo_ids_by_record
                         (λ m, <[rid memo := default [] (m !! rid memo)
                                               ++ [memo_id memo]]> m)
                         (set_memos_by_id (<[memo_id memo := memo]>) (slab w)))
                      (links w) (trace w) (microtasks w)))
    as (rest & Hrest & ->)
end.
{ eexists. split; [exact (sound_put_rest memo (slab w) Hobj Hs)|].
  unfold putMemo. rewrite bind_run. unfold this at 1. cbn beta iota.
  rewrite Hm. rewrite bind_run. unfold update at 1. rewrite bind_run.
  unfold update at 1. reflexivity. }
apply Hrest. split; [|auto]. apply slab_sound_put; assumption.
Qed.

Lemma sound_getMemo (i : string) :
maintains (sound U) (getMemo i) (λ v, ∀ m, v = Some m → is_object U m).
Proof using U_id.
unfold getMemo. apply (maintains_bind _ _ _ _ (sound_this U)). intros s Hs.
destruct (_memos_by_id s !! i) as [memo|] eqn:Hm; [|apply maintains_ret; discriminate].
assert (is_object U memo) as Hobj
  by exact (resolve_object U U_id s (ById i) memo Hs I Hm).
destruct (same_memo memo (this_tail s)).
{ apply maintains_ret. intros m [= <-]. exact Hobj. }
apply (maintains_bind _ _ _ _ (sound_get_newer U memo)). intros newer Hn.
apply (maintains_bind _ _ (λ _, True)).
{ destruct newer as [n|]; [|apply maintains_ret; exact I].
  apply (maintains_bind _ _ (λ _, True)).
  { destruct (same_memo memo (this_head s)); [|apply maintains_ret; exact I].
    apply sound_update; [auto|]. intros s0. apply slab_sound_head.
    intros x [= <-]. apply Hn. reflexivity. }
  intros _ _. apply (maintains_bind _ _ _ _ (sound_get_older U memo)). intros older Ho.
  apply sound_set_older; [auto|exact Ho]. }
intros _ _. apply (maintains_bind _ _ _ _ (sound_get_older U memo)). intros older Ho.
apply (maintains_bind _ _ (λ _, True)).
{ destruct older as [o|]; [|apply maintains_ret; exact I].
  apply (maintains_bind _ _ _ _ (sound_get_newer U memo)). intros newer' Hn'.
  apply sound_set_newer; [auto|exact Hn']. }
intros _ _. apply (maintains_bind _ _ (λ _, True)).
{ apply sound_set_newer; [auto|discriminate]. }
intros _ _. apply (maintains_bind _ _ (λ _, True)).
{ apply sound_set_older; [auto|]. apply Hs. }
intros _ _. apply (maintains_bind _ _ (λ _, True)).
{ destruct (this_tail s); [|apply maintains_ret; exact I].
  apply sound_set_newer; [auto|]. intros x [= <-]. exact Hobj. }
intros _ _. apply (maintains_bind _ _ (λ _, True)).
{ apply sound_update; [auto|]. intros s0. apply slab_sound_tail.
  intros x [= <-]. exact Hobj. }
intros _ _. apply maintains_ret. intros m [= <-]. exact Hobj.
Qed.

Lemma sound_head_loop (ids : list string) :
∀ head, maintains (sound U) (head_loop ids head) (λ _, True).
Proof using U_id.
induction ids as [|i ids IH]; intros head; simpl; [apply maintains_ret; exact I|].
apply (maintains_bind _ _ _ _ (sound_getMemo i)). intros [memo|] _;
  [|apply maintains_throw].
apply (maintains_bind _ _ _ _ (sound_this U)). intros s _.
destruct (negb _); apply IH.
Qed.

Lemma sound_getHeadMemosForRecord (r : string) :
maintains (sound U) (getHeadMemosForRecord r) (λ _, True).
Proof using U_id.
unfold getHeadMemosForRecord. apply (maintains_bind _ _ _ _ (sound_this U)).
intros s _. apply sound_head_loop.
Qed.

Lemma sound_perform (c : Call) :
call_ok U c → maintains (sound U) (perform c) (λ _, True).
Proof using U_id.
destruct c as [memo|i|arg|arg| |memo|memo ref remote st silent|memo peerings silent
              |sender change|memo|r|r|rec| ]; simpl; intros Hc.
- apply sound_putMemo, Hc.
- apply (maintains_bind _ _ _ _ (sound_getMemo i)). intros; apply maintains_ret; exact I.
- apply (sound_killMemo U U_id). destruct arg; exact Hc.
- apply sound_evictMemo. destruct arg; exact Hc.
- apply sound_evictMemos.
- apply (maintains_bind _ _ _ _ (sound_checkMemoReplicationFactor U memo)).
  intros; apply maintains_ret; exact I.
- apply sound_updateMemoPeerings.
- apply sound_updateMemoPeerings.
- apply sound_update; [auto|]. intros s Hs.
  destruct (receive_fold_frame sender change s) as [rp ->]. exact Hs.
- apply sound_deregisterPeeringForMemo.
- apply (maintains_bind _ _ _ _ (sound_getHeadMemosForRecord r)).
  intros; apply maintains_ret; exact I.
- apply (maintains_bind _ _ (λ _, True)); [|intros; apply maintains_ret; exact I].
  unfold getHeadMemoIDsForRecord.
  apply (maintains_bind _ _ _ _ (sound_getHeadMemosForRecord r)).
  intros; apply maintains_ret; exact I.
- apply sound_update; [auto|]. intros s Hs. exact Hs.
- apply (maintains_bind _ _ (λ _, True)); [|intros; apply maintains_ret; exact I].
  unfold genChildID. apply (maintains_bind _ _ _ _ (sound_this U)). intros s _.
  apply (maintains_bind _ _ (λ _, True)); [|intros; apply maintains_ret; exact I].
  apply sound_update; [auto|]. intros s0 Hs0. exact Hs0.
Qed.

Lemma sound_run_task (t : Task) :
task_ok U t → maintains (sound U) (run_task t) (λ _, True).
Proof using U_id.
destruct t as [[v|e] memo|[v|e]]; simpl; intros Ht;
  try (apply sound_emit; auto); try (apply maintains_ret; exact I).
destruct (truthy_value v); [|apply maintains_ret; exact I]. intros w Hw.
destruct (sound_killMemo U U_id (ByObj memo) Ht w Hw) as [H _].
destruct (killMemo (ByObj memo) w) as [w' [[]|e]]; simpl in *; (split; [exact H|auto]).
Qed.

Lemma sound_drain (w : World) : sound U w → sound U (drain w).
Proof using U_id.
intros (Hs & Hn & Ho & Hq). unfold drain.
assert (sound U (mkWorld (slab w) (links w) (trace w) [])) as H0.
{ split; [exact Hs|]. split; [exact Hn|]. split; [exact Ho|]. constructor. }
revert H0. generalize (mkWorld (slab w) (links w) (trace w) []).
induction Hq as [|t q Ht Hq IH]; intros w0 H0; [exact H0|].
simpl. apply IH. apply (sound_run_task t Ht w0 H0).
Qed.

Lemma reachable_sound (w : World) : reachable_with U w → sound U w.
Proof using U_id.
induction 1 as [k args w Hnew|c w Hc Hw IH].
- apply new_Slab_fresh in Hnew as (i & q & l & m & ->).
  split; [split; [|split; [split|split]]|split; [|split]]; simpl;
    try (intros; discriminate); try constructor;
    intros j x; rewrite lookup_empty; discriminate.
- apply sound_drain. apply (sound_perform c Hc w IH).
Qed.
End sound_calls.

(** ** What the invariants give *)

Lemma hasMemosForRecord_index (s : Slab) (r : string) :
  index_ok s →
  (hasMemosForRecord s r = true ↔ ∃ i m, _memos_by_id s !! i = Some m ∧ rid m = r).
Proof.
  intros [H1 H2]. unfold hasMemosForRecord. split.
  - destruct (_memo_ids_by_record s !! r) as [[|i l]|] eqn:E; try discriminate.
    intros _. destruct (H1 r (i :: l) E) as [_ Hall].
    destruct (Hall i) as (m & Em & Hr); [left|]. eauto.
  - intros (i & m & Em & <-). destruct (H2 i m Em) as (l & -> & Hl).
    destruct l; [inversion Hl|reflexivity].
Qed.

Lemma getMemo_frame (i : string) (w : World) :
  ∃ hd tl h',
    getMemo i w
    = (mkWorld (set_head hd (set_tail tl (slab w))) h' (trace w) (microtasks w),
       Return (_memos_by_id (slab w) !! i)).
Proof.
  destruct w as [s h tr q]. unfold getMemo. rewrite bind_run. unfold this at 1.
  cbn [slab links trace microtasks]. cbn beta iota.
  assert (s = set_head (this_head s) (set_tail (this_tail s) s)) as Eta
    by (destruct s; reflexivity).
  destruct (_memos_by_id s !! i) as [memo|].
  2:{ exists (this_head s), (this_tail s), h. rewrite <- Eta. reflexivity. }
  destruct (same_memo memo (this_tail s)).
  { exists (this_head s), (this_tail s), h. rewrite <- Eta. reflexivity. }
  unfold mbind, M_bind, get_newer, get_older, set_newer, set_older, update, mret, M_ret.
  cbn [slab links trace microtasks].
  destruct (newer_of h memo) as [n|]; [destruct (same_memo memo (this_head s))|];
    cbn [slab links trace microtasks];
    repeat match goal with
           | |- context [match older_of ?h ?m with _ => _ end] =>
               destruct (older_of h m); cbn [slab links trace microtasks]
           | |- context [match this_tail ?s with _ => _ end] =>
               destruct (this_tail s) eqn:?; cbn [slab links trace microtasks]
           end;
    eexists _, _, _; reflexivity.
Qed.

Lemma head_loop_returns (ids : list string) :
  ∀ (acc : list Memo) (w : World),
    (∀ i, i ∈ ids → is_Some (_memos_by_id (slab w) !! i)) →
    ∃ w' found,
      head_loop ids acc w = (w', Return (acc ++ heads_of (slab w) found))
      ∧ Forall2 (λ i m, _memos_by_id (slab w) !! i = Some m) ids found
      ∧ _memos_by_id (slab w') = _memos_by_id (slab w)
      ∧ _memo_ids_by_record (slab w') = _memo_ids_by_record (slab w)
      ∧ _memo_ids_by_parent (slab w') = _memo_ids_by_parent (slab w).
Proof.
  induction ids as [|i ids IH]; intros acc w Hall.
  - exists w, []. simpl. rewrite app_nil_r. repeat split. constructor.
  - destruct (Hall i) as [memo Hm]; [left|].
    destruct (getMemo_frame i w) as (hd & tl & h' & Hget).
    set (w1 := mkWorld (set_head hd (set_tail tl (slab w))) h' (trace w) (microtasks w)).
    cbn [head_loop]. rewrite bind_run, Hget, Hm. cbn beta iota.
    rewrite bind_run. unfold this at 1. cbn beta iota.
    destruct (IH (if negb (truthy_string (_memo_ids_by_parent (slab w) !! memo_id memo))
                  then acc ++ [memo] else acc) w1)
      as (w' & found & Hrun & Hfound & E1 & E2 & E3).
    { intros j Hj. apply Hall. right. exact Hj. }
    exists w', (memo :: found). split; [|split; [|auto]].
    + cbn [slab set_head set_tail _memo_ids_by_parent].
      fold w1. unfold heads_of. rewrite filter_cons.
      destruct (truthy_string (_memo_ids_by_parent (slab w) !! memo_id memo)) eqn:Et;
        cbn [negb] in *.
      * rewrite decide_False by discriminate. exact Hrun.
      * rewrite decide_True by reflexivity. rewrite Hrun, <- app_assoc. reflexivity.
    + constructor; [exact Hm|exact Hfound].
Qed.

Lemma reachable_with_reachable (U : string → Memo) (w : World) :
  reachable_with U w → reachable w.
Proof.
  induction 1 as [k args w Hnew|c w _ _ IH].
  - exact (reachable_new k args w Hnew).
  - exact (reachable_call c w IH).
Qed.

Lemma Forall2_heads (s : Slab) (ids : list string) (found : list Memo) :
  Forall2 (λ i m, _memos_by_id s !! i = Some m) ids found →
  (∀ i m, _memos_by_id s !! i = Some m → memo_id m = i) →
  Forall2 (λ i m, _memos_by_id s !! i = Some m)
    (filter (λ i, truthy_string (_memo_ids_by_parent s !! i) = false) ids)
    (heads_of s found).
Proof.
  intros HF Hid. induction HF as [|i m ids found Hm HF IH]; [constructor|].
  unfold heads_of. rewrite !filter_cons. rewrite (Hid i m Hm).
  destruct (decide (truthy_string (_memo_ids_by_parent s !! i) = false));
    [constructor; [exact Hm|exact IH]|exact IH].
Qed.

Lemma getHeadMemosForRecord_returns (U : string → Memo) (w : World) (r : string) :
  (∀ i, memo_id (U i) = i) →
  sound U w →
  ∃ w' heads,
    getHeadMemosForRecord r w = (w', Return heads)
    ∧ Forall2 (λ i m, _memos_by_id (slab w) !! i = Some m)
        (filter (λ i, truthy_string (_memo_ids_by_parent (slab w) !! i) = false)
           (default [] (_memo_ids_by_record (slab w) !! r)))
        heads
    ∧ _memos_by_id (slab w') = _memos_by_id (slab w)
    ∧ _memo_ids_by_record (slab w') = _memo_ids_by_record (slab w)
    ∧ _memo_ids_by_parent (slab w') = _memo_ids_by_parent (slab w).
Proof.
  intros U_id ((H1 & [H2 H3] & _) & _).
  unfold getHeadMemosForRecord. rewrite bind_run. unfold this at 1. cbn beta iota.
  destruct (head_loop_returns (default [] (_memo_ids_by_record (slab w) !! r)) [] w)
    as (w' & found & Hrun & Hfound & E1 & E2 & E3).
  { destruct (_memo_ids_by_record (slab w) !! r) as [l|] eqn:El; simpl.
    - intros i Hi. destruct (H2 r l El) as [_ Hall].
      destruct (Hall i Hi) as (m & -> & _). eauto.
    - intros i Hi. inversion Hi. }
  exists w', (heads_of (slab w) found). split; [exact Hrun|]. split; [|auto].
  apply Forall2_heads; [exact Hfound|]. intros i m Hm. rewrite (H1 i m Hm). apply U_id.
Qed.

Lemma killMemo_returns (U : string → Memo) (arg : MemoArg) (w : World) :
  (∀ i, memo_id (U i) = i) →
  sound U w →
  peering_ok (slab w) →
  match arg with
  | ByObj m => is_object U m ∧ parents m = []
  | ById i => parents (U i) = []
  end →
  ∃ w', killMemo arg w = (w', Return tt).
Proof.
  intros U_id Hw Hpeer Harg. pose proof Hw as (Hs & _).
  destruct (resolve (slab w) arg) as [memo|] eqn:Hres.
  2:{ eexists. unfold killMemo. rewrite bind_run. unfold this at 1. cbn beta iota.
      rewrite Hres. reflexivity. }
  assert (is_object U memo ∧ parents memo = []) as [Hobj Hpar].
  { destruct arg as [i|m]; simpl in Hres.
    - destruct Hs as (H1 & _). rewrite (H1 i memo Hres). unfold is_object.
      rewrite U_id. auto.
    - injection Hres as <-. exact Harg. }
  destruct (_memos_by_id (slab w) !! memo_id memo) as [m'|] eqn:Hm.
  2:{ eexists. unfold killMemo. rewrite bind_run. unfold this at 1. cbn beta iota.
      rewrite Hres, Hm. reflexivity. }
  destruct (bool_decide (is_Some (_records_by_id (slab w) !! rid memo))
            && negb (truthy_string (_memo_ids_by_parent (slab w) !! memo_id memo)))
    eqn:Hprot.
  { eexists. unfold killMemo. rewrite bind_run. unfold this at 1. cbn beta iota.
    rewrite Hres, Hm, Hprot. reflexivity. }
  assert (m' = memo) as ->.
  { destruct Hs as (H1 & _). rewrite (H1 _ m' Hm). symmetry. exact Hobj. }
  destruct Hs as (_ & [_ H3] & _). destruct (H3 _ memo Hm) as (mbr & Hmbr & _).
  assert (killMemo arg w = killMemo (ByObj memo) w) as ->.
  { unfold killMemo. rewrite !bind_run. unfold this. cbn beta iota. rewrite Hres.
    reflexivity. }
  set (s1 := set_memo_ids_by_record (<[rid memo := splice_indexOf (memo_id memo) mbr]>)
               (set_memos_by_id (delete (memo_id memo)) (slab w))).
  set (refs := default [] (local_peerings (slab w) !! memo_id memo)).
  assert (NoDup refs ∧ ∀ r, r ∈ refs → is_Some (ref_peerings s1 !! r)) as [Hnd Hall].
  { destruct Hpeer as [P1 _]. unfold refs.
    destruct (local_peerings (slab w) !! memo_id memo) as [l|] eqn:E; simpl.
    - destruct (P1 _ l E) as [? Hx]. split; [assumption|]. intros r Hr.
      destruct (Hx r Hr) as (rp & -> & _). eauto.
    - split; [apply NoDup_nil_2|]. intros r Hr. inversion Hr. }
  pose proof (deregister_refs_succeeds (memo_id memo) refs s1 [] Hnd Hall) as Hok.
  destruct (deregister_refs (memo_id memo) refs s1 []) as [[s' changes] e] eqn:Hder.
  simpl in Hok. subst e. eexists.
  apply (killMemo_parentless memo memo w mbr Hm); [|exact Hpar|exact Hmbr|exact Hder].
  apply andb_false_iff in Hprot as [Hp|Hp].
  - left. apply bool_decide_eq_false in Hp.
    destruct (_records_by_id (slab w) !! rid memo); [exfalso; apply Hp; eauto|reflexivity].
  - right. apply negb_false_iff in Hp. exact Hp.
Qed.

(** ** Registering a peering with another slab *)

Lemma note_ref_remote (i ref remote : string) (st : Z) (s : Slab) :
  remote ≠ this_id s →
  let refs := default [] (local_peerings s !! i) in
  let r0 := default (mkRefPeering [] []) (ref_peerings s !! ref) in
  let known := truthy_state (alist_get remote (remotes r0)) in
  note_ref i (s, []) (ref, [(remote, st)])
  = (set_ref_peerings
       (<[ref := mkRefPeering
                   (if bool_decide (i ∈ memos r0) then memos r0 else memos r0 ++ [i])
                   (if known then remotes r0 else alist_set remote st (remotes r0))]>)
       (if bool_decide (ref ∈ refs) then s
        else set_local_peerings (<[i := refs ++ [ref]]>) s),
     if known then [] else [(remote, [(i, st)])]).
Proof.
  intros Hne refs r0 known. unfold note_ref. fold refs.
  assert (ref_peerings (if bool_decide (ref ∈ refs) then s
                        else set_local_peerings (<[i := refs ++ [ref]]>) s)
          = ref_peerings s) as -> by (destruct (bool_decide (ref ∈ refs)); reflexivity).
  fold r0. cbn [foldl]. unfold note_remote.
  rewrite (bool_decide_eq_true_2 (remote ≠ this_id s) Hne). cbn [andb].
  assert (remotes (if bool_decide (i ∈ memos r0) then r0
                   else mkRefPeering (memos r0 ++ [i]) (remotes r0)) = remotes r0) as Erem
    by (destruct (bool_decide (i ∈ memos r0)); reflexivity).
  rewrite Erem. fold known. unfold record_change. cbn [alist_get alist_set default].
  destruct known; cbn [negb];
    destruct (bool_decide (i ∈ memos r0)); destruct r0; reflexivity.
Qed.

Lemma registerMemoPeering_remote (memo : Memo) (ref remote : string) (st : Z)
    (silent : bool) (w : World) :
  remote ≠ this_id (slab w) →
  let r0 := default (mkRefPeering [] []) (ref_peerings (slab w) !! ref) in
  let known := truthy_state (alist_get remote (remotes r0)) in
  let refs := default [] (local_peerings (slab w) !! memo_id memo) in
  registerMemoPeering memo ref remote st silent w
  = (mkWorld
       (set_ref_peerings
          (<[ref := mkRefPeering
                      (if bool_decide (memo_id memo ∈ memos r0) then memos r0
                       else memos r0 ++ [memo_id memo])
                      (if known then remotes r0 else alist_set remote st (remotes r0))]>)
          (set_local_peerings
             (<[memo_id memo := if bool_decide (ref ∈ refs) then refs else refs ++ [ref]]>)
             (slab w)))
       (links w)
       (trace w ++ if known || silent then []
                   else [SendPeeringChanges (this_id (slab w))
                           [(remote, [(memo_id memo, st)])]])
       (microtasks w),
     Return tt).
Proof.
  intros Hne r0 known refs. unfold registerMemoPeering, updateMemoPeerings.
  rewrite bind_run. unfold update at 1. rewrite bind_run. unfold this at 1.
  cbn [slab links trace microtasks foldl]. cbn beta iota.
  set (s0 := set_local_peerings
               (λ lp, <[memo_id memo := default [] (lp !! memo_id memo)]> lp) (slab w)).
  rewrite (note_ref_remote (memo_id memo) ref remote st s0) by exact Hne.
  assert (default [] (local_peerings s0 !! memo_id memo) = refs) as ->
    by (unfold s0; simpl; rewrite lookup_insert_eq; reflexivity).
  change (ref_peerings s0) with (ref_peerings (slab w)). fold r0. fold known.
  assert ((if bool_decide (ref ∈ refs) then s0
           else set_local_peerings (<[memo_id memo := refs ++ [ref]]>) s0)
          = set_local_peerings
              (<[memo_id memo := if bool_decide (ref ∈ refs) then refs else refs ++ [ref]]>)
              (slab w)) as ->.
  { unfold s0. destruct (bool_decide (ref ∈ refs)).
    - reflexivity.
    - unfold set_local_peerings. cbn. rewrite insert_insert_eq. reflexivity. }
  rewrite bind_run. unfold update at 1. cbn [slab links trace microtasks].
  destruct known, silent; cbn [negb andb orb]; unfold mret, M_ret, emit;
    cbn [slab links trace microtasks]; rewrite ?app_nil_r; reflexivity.
Qed.

(** ** The LRU list holds the resident memos *)

Lemma lru_append (w w' : World) (o : list Memo) (memo : Memo) :
  lru_repr w o →
  unlinked w memo →
  memo_id memo ∉ memo_id <$> o →
  this_head (slab w')
  = match this_tail (slab w) with Some _ => this_head (slab w) | None => Some memo end →
  this_tail (slab w') = Some memo →
  links w'
  = match this_tail (slab w) with
    | Some t => upd_older memo (Some t) (upd_newer t (Some memo) (links w))
    | None => links w
    end →
  lru_repr w' (o ++ [memo]).
Proof.
  intros (Hnd & Hhead & Htail & Hchain) [Hnew' Hold] Hid Eh Et El.
  split.
  { rewrite fmap_app. apply NoDup_app. split; [exact Hnd|]. split; [|apply NoDup_singleton].
    intros x Hx Hx'. apply list_elem_of_singleton in Hx'. subst x. exact (Hid Hx). }
  rewrite Eh, Et, El, Htail, Hhead. destruct o as [|f o].
  - simpl. repeat split; assumption.
  - destruct (last (f :: o)) as [t|] eqn:Elast; [|apply last_None in Elast; discriminate].
    split; [reflexivity|]. split; [rewrite last_snoc; reflexivity|].
    assert (t ∈ f :: o) as Ht by (apply last_Some_elem_of, Elast).
    assert (∀ x, x ∈ f :: o → memo_id x ≠ memo_id memo) as Hne.
    { intros x Hx E. apply Hid. rewrite <- E. apply list_elem_of_fmap_2, Hx. }
    apply chain_app. split.
    + simpl head. simpl from_option.
      apply (chain_set_next (links w) _ None (f :: o) None (Some memo) Hnd Hchain).
      * intros x Hx. rewrite older_upd_older, older_upd_newer.
        rewrite bool_decide_eq_false_2 by (apply Hne, Hx). reflexivity.
      * intros x Hx. rewrite newer_upd_older, newer_upd_newer, Elast. simpl.
        repeat case_bool_decide; congruence.
    + rewrite Elast. simpl. rewrite older_upd_older, newer_upd_older, newer_upd_newer.
      rewrite bool_decide_eq_true_2 by reflexivity.
      rewrite bool_decide_eq_false_2; [repeat split; assumption|].
      intros E. apply (Hne t Ht). symmetry. exact E.
Qed.

Lemma lru_exact_fields (w w' : World) (o : list Memo) :
  lru_fields w' = lru_fields w → lru_exact w o → lru_exact w' o.
Proof.
  unfold lru_fields. intros [= E1 E2 E3 E4] [(Hnd & Hh & Ht & Hc) Hm].
  split; [split; [exact Hnd|]|].
  - rewrite E2, E3, E4. auto.
  - intros m. rewrite E1. apply Hm.
Qed.

Lemma foldl_promote_perm (l : list string) : ∀ o, foldl (λ o i, promote i o) o l ≡ₚ o.
Proof.
  induction l as [|i l IH]; intros o; [reflexivity|].
  simpl. rewrite IH. apply promote_perm.
Qed.

Section lru_frame.
Variable X : gmap string Memo * option Memo * option Memo * gmap string Links.

Lemma same_lru_update (f : Slab → Slab) :
(∀ s, _memos_by_id (f s) = _memos_by_id s ∧ this_head (f s) = this_head s
      ∧ this_tail (f s) = this_tail s) →
preserves (same_lru X) (update f).
Proof.
intros Hf w Hw. unfold same_lru, lru_fields in *. simpl.
destruct (Hf (slab w)) as (-> & -> & ->). exact Hw.
Qed.

Ltac keeps_lru :=
repeat first
  [ keeps_step
  | (apply same_lru_update; intros ?; repeat split; reflexivity)
  | (intros w Hw; exact Hw) ].

Lemma checkMemoReplicationFactor_lru (memo : Memo) :
preserves (same_lru X) (checkMemoReplicationFactor memo).
Proof. unfold checkMemoReplicationFactor. keeps_lru. Qed.

Lemma evictMemo_lru (arg : MemoArg) : preserves (same_lru X) (evictMemo arg).
Proof. unfold evictMemo. keeps_lru. apply checkMemoReplicationFactor_lru. Qed.

Lemma evict_loop_lru (ct : nat) : ∀ memo, preserves (same_lru X) (evict_loop ct memo).
Proof.
induction ct as [|ct IH]; intros [m|]; simpl; try apply preserves_ret.
apply preserves_bind; [apply evictMemo_lru|]. intros _.
apply preserves_bind; [intros w Hw; exact Hw|]. intros newer. apply IH.
Qed.

Lemma evictMemos_lru : preserves (same_lru X) evictMemos.
Proof.
unfold evictMemos. apply preserves_bind; [apply preserves_this|]. intros s.
destruct (_ <=? 0); [apply preserves_ret|apply evict_loop_lru].
Qed.

Lemma updateMemoPeerings_lru (memo : Memo) (peerings : list (string * list (string * Z)))
  (silent : bool) :
preserves (same_lru X) (updateMemoPeerings memo peerings silent).
Proof.
intros w Hw. unfold updateMemoPeerings.
rewrite bind_run. unfold update at 1. rewrite bind_run. unfold this at 1.
cbn [slab links trace microtasks]. cbn beta iota.
destruct (foldl_note_ref_frame (memo_id memo) peerings
            (set_local_peerings
               (λ lp, <[memo_id memo := default [] (lp !! memo_id memo)]> lp) (slab w)) [])
  as (lp & rp & E).
destruct (foldl (note_ref (memo_id memo)) _ peerings) as [s' changes].
simpl in E. subst s'. rewrite bind_run. unfold update at 1.
cbn [slab links trace microtasks]. destruct (_ && _); exact Hw.
Qed.

Lemma deregisterPeeringForMemo_lru (memo : Memo) :
preserves (same_lru X) (deregisterPeeringForMemo memo).
Proof.
intros w Hw. unfold deregisterPeeringForMemo. rewrite bind_run. unfold this at 1.
cbn beta iota.
destruct (deregister_refs_frame (memo_id memo)
            (default [] (local_peerings (slab w) !! memo_id memo)) (slab w) []) as [rp E].
destruct (deregister_refs _ _ (slab w) []) as [[s' changes] [e|]]; simpl in E; subst s';
  exact Hw.
Qed.

Lemma receivePeeringChange_lru (sender : string) (change : list (string * Z)) :
preserves (same_lru X) (receivePeeringChange sender change).
Proof.
intros w Hw. unfold receivePeeringChange, update. simpl.
destruct (receive_fold_frame sender change (slab w)) as [rp E].
unfold same_lru, lru_fields in *. simpl. rewrite E. exact Hw.
Qed.

(** The part of [putMemo] after the memo is linked as the tail. *)
Lemma put_tail_lru (memo : Memo) (s : Slab) :
preserves (same_lru X)
  ((if bool_decide (this_size s = limit s)
    then evictMemos
    else update (set_size (λ n, n + 1)));;
   registerMemoPeering memo (memo_id memo) (this_id s) 2 false;;
   p ← checkMemoReplicationFactor memo;
   enqueue (CatchLog p)).
Proof.
apply preserves_bind.
{ destruct (bool_decide _); [apply evictMemos_lru|].
  apply same_lru_update. intros ?. repeat split; reflexivity. }
intros _. apply preserves_bind; [apply updateMemoPeerings_lru|]. intros _.
apply preserves_bind; [apply checkMemoReplicationFactor_lru|].
intros p w Hw. exact Hw.
Qed.
End lru_frame.

Lemma putMemo_lru_fields (memo : Memo) (w : World) :
  _memos_by_id (slab w) !! memo_id memo = None →
  lru_fields (putMemo memo w).1
  = (<[memo_id memo := memo]> (_memos_by_id (slab w)),
     match this_tail (slab w) with Some _ => this_head (slab w) | None => Some memo end,
     Some memo,
     match this_tail (slab w) with
     | Some t => upd_older memo (Some t) (upd_newer t (Some memo) (links w))
     | None => links w
     end).
Proof.
  intros Hnew.
  destruct (foldl_parent_index (memo_id memo) (parents memo)
              (set_memo_ids_by_record
                 (λ m, <[rid memo := default [] (m !! rid memo) ++ [memo_id memo]]> m)
                 (set_memos_by_id (<[memo_id memo := memo]>) (slab w))))
    as (_ & _ & Eidx).
  cbn zeta in Eidx. set (indexed := foldl _ _ (parents memo)) in *.
  assert (∃ w2, putMemo memo w
                = ((if bool_decide (this_size (slab w) = limit (slab w))
                    then evictMemos
                    else update (set_size (λ n, n + 1)));;
                   registerMemoPeering memo (memo_id memo) (this_id (slab w)) 2 false;;
                   p ← checkMemoReplicationFactor memo;
                   enqueue (CatchLog p)) w2
                ∧ slab w2 = set_tail (Some memo)
                              (match this_tail (slab w) with
                               | Some _ => indexed
                               | None => set_head (Some memo) indexed
                               end)
                ∧ links w2 = match this_tail (slab w) with
                             | Some t => upd_older memo (Some t)
                                           (upd_newer t (Some memo) (links w))
                             | None => links w
                             end) as (w2 & -> & Es & El).
  { unfold putMemo. rewrite bind_run. unfold this at 1. cbn beta iota.
    rewrite Hnew. rewrite bind_run. unfold update at 1. rewrite bind_run. unfold update at 1.
    rewrite bind_run, forEach_update. rewrite bind_run, forEach_emit.
    cbn [slab links trace microtasks]. fold indexed.
    destruct (this_tail (slab w)) as [t|].
    - rewrite bind_run. unfold set_newer at 1. rewrite bind_run. unfold set_older at 1.
      cbn beta iota. cbn [slab links trace microtasks].
      rewrite bind_run. unfold update at 1. cbn beta iota.
      cbn [slab links trace microtasks]. eexists. split; [reflexivity|]. split; reflexivity.
    - rewrite bind_run. unfold update at 1. rewrite bind_run. unfold update at 1.
      cbn beta iota. cbn [slab links trace microtasks].
      eexists. split; [reflexivity|]. split; reflexivity. }
  match goal with |- _ = ?X => apply (put_tail_lru X memo (slab w) w2) end.
  unfold same_lru, lru_fields. rewrite Es, El.
  destruct (this_tail (slab w)); rewrite <- Eidx; reflexivity.
Qed.

Section tidy.
Variable U : string → Memo.
Hypothesis U_id : ∀ i, memo_id (U i) = i.
Hypothesis U_parents : ∀ i, parents (U i) = [].

Lemma lru_exact_put (memo : Memo) (w : World) (o : list Memo) :
lru_exact w o →
_memos_by_id (slab w) !! memo_id memo = None →
unlinked w memo →
lru_exact (putMemo memo w).1 (o ++ [memo]).
Proof.
intros [Hrepr Hmem] Hnew Hun.
pose proof (putMemo_lru_fields memo w Hnew) as E. unfold lru_fields in E.
injection E as E1 E2 E3 E4.
assert (memo_id memo ∉ memo_id <$> o) as Hid.
{ intros (x & Ex & Hx)%list_elem_of_fmap. apply Hmem in Hx. rewrite <- Ex, Hnew in Hx.
  discriminate. }
split.
- apply (lru_append w _ o memo Hrepr Hun Hid E2 E3 E4).
- intros m. rewrite E1, elem_of_app, list_elem_of_singleton, Hmem.
  destruct (decide (memo_id m = memo_id memo)) as [E|E].
  + rewrite E, lookup_insert_eq, Hnew. split.
    * intros [?| ->]; [discriminate|reflexivity].
    * intros [= ->]. right. reflexivity.
  + rewrite lookup_insert_ne by congruence. split; [|left; assumption].
    intros [?| ->]; [assumption|contradiction].
Qed.

Lemma lru_exact_get (i : string) (w : World) (o : list Memo) :
sound U w → lru_exact w o → ∃ o', lru_exact (getMemo i w).1 o'.
Proof using U_id.
intros ((H1 & _) & _) [Hrepr Hmem].
destruct (_memos_by_id (slab w) !! i) as [m|] eqn:Hm.
2:{ rewrite (getMemo_unknown w i Hm). exists o. split; assumption. }
assert (memo_id m = i) as Hid by (rewrite (H1 i m Hm); apply U_id).
assert (m ∈ o) as Hin by (apply Hmem; rewrite Hid; exact Hm).
destruct (getMemo_promotes w o i m Hrepr Hm Hid Hin) as (w' & -> & Hrepr' & Hlru).
exists (promote i o). split; [exact Hrepr'|]. intros x. cbn [fst]. rewrite promote_perm.
destruct (lru_only_fields w w' Hlru) as (E & _). rewrite E. apply Hmem.
Qed.

Lemma lru_exact_heads (r : string) (w : World) (o : list Memo) :
sound U w → lru_exact w o → ∃ o', lru_exact (getHeadMemosForRecord r w).1 o'.
Proof using U_id.
intros ((H1 & [H2 _] & _) & _) [Hrepr Hmem].
unfold getHeadMemosForRecord. rewrite bind_run. unfold this at 1. cbn beta iota.
set (ids := default [] (_memo_ids_by_record (slab w) !! r)).
assert (Forall2 (λ i m, _memos_by_id (slab w) !! i = Some m ∧ memo_id m = i ∧ m ∈ o)
          ids (U <$> ids)) as HF.
{ apply Forall2_fmap_r, Forall_Forall2_diag, Forall_forall. intros i Hi.
  assert (∃ m, _memos_by_id (slab w) !! i = Some m) as [m Hm].
  { unfold ids in Hi. destruct (_memo_ids_by_record (slab w) !! r) as [l|] eqn:El;
      simpl in Hi; [|inversion Hi].
    destruct (H2 r l El) as [_ Hall]. destruct (Hall i Hi) as (m & Hm & _). eauto. }
  unfold compose. rewrite <- (H1 i m Hm). split; [exact Hm|].
  assert (memo_id m = i) as Hid by (rewrite (H1 i m Hm); apply U_id).
  split; [exact Hid|]. apply Hmem. rewrite Hid. exact Hm. }
destruct (head_loop_promotes ids (U <$> ids) w o [] Hrepr HF) as (w' & -> & Hrepr' & Hlru).
eexists. split; [exact Hrepr'|]. intros x. cbn [fst]. rewrite foldl_promote_perm.
destruct (lru_only_fields w w' Hlru) as (E & _). rewrite E. apply Hmem.
Qed.

Lemma lru_exact_kill (arg : MemoArg) (w : World) (o : list Memo) :
sound U w →
peering_ok (slab w) →
lru_exact w o →
match arg with ByObj m => is_object U m | ById _ => True end →
∃ o', lru_exact (killMemo arg w).1 o'.
Proof using U_id U_parents.
intros Hw Hpeer [Hrepr Hmem] Harg. pose proof Hw as (Hs & _).
destruct (resolve (slab w) arg) as [memo|] eqn:Hres.
2:{ assert (killMemo arg w = emit (ConsoleError "invalid memo") w) as ->.
    { unfold killMemo. rewrite bind_run. unfold this at 1. cbn beta iota.
      rewrite Hres. reflexivity. }
    exists o. split; assumption. }
pose proof (resolve_object U U_id (slab w) arg memo Hs Harg Hres) as Hobj.
destruct (_memos_by_id (slab w) !! memo_id memo) as [m'|] eqn:Hm.
2:{ assert (killMemo arg w = emit (ConsoleError "invalid memo") w) as ->.
    { unfold killMemo. rewrite bind_run. unfold this at 1. cbn beta iota.
      rewrite Hres, Hm. reflexivity. }
    exists o. split; assumption. }
assert (m' = memo) as ->.
{ destruct Hs as (H1 & _). rewrite (H1 _ m' Hm). symmetry. exact Hobj. }
destruct (bool_decide (is_Some (_records_by_id (slab w) !! rid memo))
          && negb (truthy_string (_memo_ids_by_parent (slab w) !! memo_id memo)))
  eqn:Hprot.
{ assert (killMemo arg w = (w, Return tt)) as ->.
  { unfold killMemo. rewrite bind_run. unfold this at 1. cbn beta iota.
    rewrite Hres, Hm, Hprot. reflexivity. }
  exists o. split; assumption. }
assert (killMemo arg w = killMemo (ByObj memo) w) as ->.
{ unfold killMemo. rewrite !bind_run. unfold this. cbn beta iota. rewrite Hres.
  reflexivity. }
destruct Hs as (_ & [_ H3] & _). destruct (H3 _ memo Hm) as (mbr & Hmbr & _).
destruct Hpeer as [P1 _].
destruct (killMemo_run memo memo w o mbr Hrepr) as (w' & changes & -> & E1 & _ & _ & _ & _
                                                     & _ & _ & _ & _ & Hrepr').
- apply Hmem, Hm.
- exact Hm.
- apply andb_false_iff in Hprot as [Hp|Hp].
  + left. apply bool_decide_eq_false in Hp.
    destruct (_records_by_id (slab w) !! rid memo); [exfalso; apply Hp; eauto|reflexivity].
  + right. apply negb_false_iff in Hp. exact Hp.
- rewrite Hobj. apply U_parents.
- exact Hmbr.
- destruct (local_peerings (slab w) !! memo_id memo) as [l|] eqn:E; simpl.
  + apply (P1 _ l E).
  + apply NoDup_nil_2.
- intros r Hr. destruct (local_peerings (slab w) !! memo_id memo) as [l|] eqn:E;
    simpl in Hr; [|inversion Hr].
  destruct (P1 _ l E) as [_ Hx]. destruct (Hx r Hr) as (rp & -> & _). eauto.
- eexists. split; [exact Hrepr'|]. intros x. cbn [fst]. rewrite E1, list_elem_of_filter, Hmem.
  destruct (decide (memo_id x = memo_id memo)) as [E|E].
  + rewrite E, lookup_delete_eq. split; [intros [? _]; contradiction|discriminate].
  + rewrite lookup_delete_ne by congruence. tauto.
Qed.
End tidy.

Lemma bind_mret_fst {A B} (m : M A) (g : A → B) (w : World) :
  ((m ≫= λ a, mret (g a)) w).1 = (m w).1.
Proof. rewrite bind_run. destruct (m w) as [w' [a|e]]; reflexivity. Qed.

Lemma perform_lru (X : gmap string Memo * option Memo * option Memo * gmap string Links)
    (c : Call) :
  match c with
  | PutMemo _ | GetMemo _ | KillMemo _ | GetHeadMemosForRecord _
  | GetHeadMemoIDsForRecord _ => False
  | _ => True
  end →
  preserves (same_lru X) (perform c).
Proof.
  destruct c as [memo|i|arg|arg| |memo|memo ref remote st silent|memo peerings silent
                |sender change|memo|r|r|rec| ]; simpl; intros Hc; try contradiction.
  - apply evictMemo_lru.
  - apply evictMemos_lru.
  - apply preserves_bind; [apply checkMemoReplicationFactor_lru|intros ?; apply preserves_ret].
  - apply updateMemoPeerings_lru.
  - apply updateMemoPeerings_lru.
  - apply receivePeeringChange_lru.
  - apply deregisterPeeringForMemo_lru.
  - apply same_lru_update. intros ?. repeat split; reflexivity.
  - apply preserves_bind; [|intros ?; apply preserves_ret].
    unfold genChildID. apply preserves_bind; [apply preserves_this|]. intros s.
    apply preserves_bind; [|intros ?; apply preserves_ret].
    apply same_lru_update. intros ?. repeat split; reflexivity.
Qed.

Section tidy_calls.
Variable U : string → Memo.
Hypothesis U_id : ∀ i, memo_id (U i) = i.
Hypothesis U_parents : ∀ i, parents (U i) = [].

Lemma tidy_perform (c : Call) (w : World) :
tidy U w → call_tidy U w c → tidy U (perform c w).1.
Proof using U_id U_parents.
intros (Hs & Hp & o & Ho) [Hok Hfresh].
split; [apply (sound_perform U U_id c Hok w Hs)|].
split; [apply (perform_peering c w Hp)|].
destruct c as [memo|i|arg|arg| |memo|memo ref remote st silent|memo peerings silent
              |sender change|memo|r|r|rec| ];
  try (exists o; apply (lru_exact_fields w); [|exact Ho];
       apply (perform_lru (lru_fields w)); [exact I|reflexivity]).
- simpl. destruct (_memos_by_id (slab w) !! memo_id memo) as [m'|] eqn:Hm.
  + assert (putMemo memo w = (w, Return tt)) as ->.
    { unfold putMemo. rewrite bind_run. unfold this at 1. cbn beta iota.
      rewrite Hm. reflexivity. }
    exists o. exact Ho.
  + destruct Hfresh as [[m' Hres]|Hun]; [congruence|].
    exists (o ++ [memo]). apply lru_exact_put; assumption.
- simpl. rewrite (bind_mret_fst (getMemo i) (λ _, tt)).
  apply (lru_exact_get U U_id i w o Hs Ho).
- simpl. apply (lru_exact_kill U U_id U_parents arg w o Hs Hp Ho).
  destruct arg; exact Hok.
- simpl. rewrite (bind_mret_fst (getHeadMemosForRecord r) (λ _, tt)).
  apply (lru_exact_heads U U_id r w o Hs Ho).
- simpl. rewrite (bind_mret_fst (getHeadMemoIDsForRecord r) (λ _, tt)).
  unfold getHeadMemoIDsForRecord.
  rewrite (bind_mret_fst (getHeadMemosForRecord r) (fmap memo_id)).
  apply (lru_exact_heads U U_id r w o Hs Ho).
Qed.

Lemma tidy_run_task (t : Task) (w : World) :
task_ok U t → tidy U w → tidy U (run_task t w).1.
Proof using U_id U_parents.
intros Ht (Hs & Hp & o & Ho).
split; [apply (sound_run_task U U_id t Ht w Hs)|].
split; [apply (run_task_peering t w Hp)|].
destruct t as [[v|e] memo|[v|e]]; simpl;
  try (exists o; apply (lru_exact_fields w); [reflexivity|exact Ho]).
destruct (truthy_value v); [|exists o; exact Ho].
destruct (lru_exact_kill U U_id U_parents (ByObj memo) w o Hs Hp Ho Ht) as [o' Ho'].
exists o'. destruct (killMemo (ByObj memo) w) as [w' [[]|e]]; [exact Ho'|].
apply (lru_exact_fields w'); [reflexivity|exact Ho'].
Qed.

Lemma tidy_drain (w : World) : tidy U w → tidy U (drain w).
Proof using U_id U_parents.
intros ((Hs & Hn & Ho & Hq) & Hp & o & Hex). unfold drain.
assert (tidy U (mkWorld (slab w) (links w) (trace w) [])) as H0.
{ split; [|split; [exact Hp|exists o; exact Hex]].
  split; [exact Hs|]. split; [exact Hn|]. split; [exact Ho|]. constructor. }
revert H0. generalize (mkWorld (slab w) (links w) (trace w) []).
induction Hq as [|t q Ht Hq IH]; intros w0 H0; [exact H0|].
simpl. apply IH. apply (tidy_run_task t w0 Ht H0).
Qed.

Lemma reachable_tidy_tidy (w : World) : reachable_tidy U w → tidy U w.
Proof using U_id U_parents.
induction 1 as [k args w Hnew|c w Hc Hw IH].
- split; [apply (reachable_sound U U_id), (reachable_with_new U k args w Hnew)|].
  split; [apply reachable_peering, (reachable_new k args w Hnew)|].
  apply new_Slab_fresh in Hnew as (i & q & l & m & ->).
  exists []. split; [repeat split; constructor|].
  intros x. simpl. rewrite lookup_empty. split; [intros Hx; inversion Hx|discriminate].
- apply tidy_drain, tidy_perform; assumption.
Qed.
End tidy_calls.

(** ** Storing and removing *)

Lemma stored_new (memo : Memo) (s : Slab) :
  parents memo = [] →
  local_peerings s !! memo_id memo = None →
  ref_peerings s !! memo_id memo = None →
  _memos_by_id (stored memo s) = <[memo_id memo := memo]> (_memos_by_id s)
  ∧ _memo_ids_by_record (stored memo s)
    = <[rid memo := default [] (_memo_ids_by_record s !! rid memo) ++ [memo_id memo]]>
        (_memo_ids_by_record s)
  ∧ _memo_ids_by_parent (stored memo s) = _memo_ids_by_parent s
  ∧ _records_by_id (stored memo s) = _records_by_id s
  ∧ this_size (stored memo s) = this_size s + 1
  ∧ local_peerings (stored memo s) = <[memo_id memo := [memo_id memo]]> (local_peerings s)
  ∧ ref_peerings (stored memo s)
    = <[memo_id memo := mkRefPeering [memo_id memo] []]> (ref_peerings s)
  ∧ this_id (stored memo s) = this_id s
  ∧ this_head (stored memo s)
    = match this_tail s with Some _ => this_head s | None => Some memo end
  ∧ this_tail (stored memo s) = Some memo.
Proof.
  intros Hpar Hlp Hrp. unfold stored, self_peer. rewrite Hpar. cbn [foldl].
  destruct (this_tail s);
    cbn [set_size set_tail set_head set_memo_ids_by_record set_memos_by_id
           set_local_peerings set_ref_peerings _memos_by_id _memo_ids_by_record
           _memo_ids_by_parent _records_by_id this_size local_peerings ref_peerings
           this_id this_head this_tail];
    rewrite Hlp; cbn [default]; rewrite lookup_insert_eq; cbn [default];
    rewrite bool_decide_eq_false_2 by apply not_elem_of_nil;
    cbn [set_size set_tail set_head set_memo_ids_by_record set_memos_by_id
           set_local_peerings set_ref_peerings _memos_by_id _memo_ids_by_record
           _memo_ids_by_parent _records_by_id this_size local_peerings ref_peerings
           this_id this_head this_tail];
    rewrite Hrp; cbn [default memos remotes];
    rewrite bool_decide_eq_false_2 by apply not_elem_of_nil;
    rewrite insert_insert_eq; repeat split; reflexivity.
Qed.

(** ** Further example worlds *)

Lemma three_puts_order : lru_repr three_puts [m1; m2; m3].
Proof.
  split; [decide_by_evaluation|].
  evaluate.
Qed.

Lemma chain_R_order : lru_repr chain_R [p1; p2].
Proof.
  split; [decide_by_evaluation|].
  evaluate.
Qed.

Lemma replicated_m5_order : lru_repr replicated_m5 [m5].
Proof.
  split; [decide_by_evaluation|].
  evaluate.
Qed.

Lemma slab_A_new (mesh : Mesh) :
  (new_Slab 0 (Some (mkSlabArgs (Some "A"%string) (Some mesh) (Some 5) (Some 10)))).2
  = Return (slab_A mesh 5 10).
Proof. reflexivity. Qed.

Lemma slab_A_2_3_new :
  (new_Slab 0 (Some (mkSlabArgs (Some "A"%string) (Some quiet_mesh) (Some 2) (Some 3)))).2
  = Return (slab_A quiet_mesh 2 3).
Proof. reflexivity. Qed.

Lemma chain_R_killed_reachable : reachable chain_R_killed.
Proof.
  apply (reachable_call (KillMemo (ByObj p2))).
  apply (reachable_call (PutMemo p2)).
  apply (reachable_call (PutMemo p1)).
  exact (reachable_new 0 _ _ (slab_A_new quiet_mesh)).
Qed.

Lemma objects_R_id (i : string) : memo_id (objects_R i) = i.
Proof. unfold objects_R. case_bool_decide as E; [rewrite E|]; reflexivity. Qed.

Lemma chain_R_killed_reachable_with : reachable_with objects_R chain_R_killed.
Proof.
  apply (reachable_with_call objects_R (KillMemo (ByObj p2))); [reflexivity|].
  apply (reachable_with_call objects_R (PutMemo p2)); [reflexivity|].
  apply (reachable_with_call objects_R (PutMemo p1)); [reflexivity|].
  exact (reachable_with_new objects_R 0 _ _ (slab_A_new quiet_mesh)).
Qed.

(** ** Further properties: removal *)

(** X6.  [killMemo] of a resident memo without parents that is not protected
    (its record has no subscriber list, or its id has a truthy entry in
    [_memo_ids_by_parent]), on a well-formed LRU list and with its peering
    entries in place, returns and removes the memo for good: it leaves
    [_memos_by_id], its id is spliced out of the record index, its peering is
    deregistered and announced to the mesh, [size] drops by one, and the LRU
    list is the old one without the memo.  [_memo_ids_by_parent] and the
    subscriptions stay as they are. *)
Theorem killMemo_removes (memo m' : Memo) (w : World) (o : list Memo) (mbr : list string) :
  lru_repr w o →
  memo ∈ o →
  _memos_by_id (slab w) !! memo_id memo = Some m' →
  (_records_by_id (slab w) !! rid memo = None
   ∨ truthy_string (_memo_ids_by_parent (slab w) !! memo_id memo) = true) →
  parents memo = [] →
  _memo_ids_by_record (slab w) !! rid memo = Some mbr →
  NoDup (default [] (local_peerings (slab w) !! memo_id memo)) →
  (∀ r, r ∈ default [] (local_peerings (slab w) !! memo_id memo) →
        is_Some (ref_peerings (slab w) !! r)) →
  ∃ w' changes,
    killMemo (ByObj memo) w = (w', Return tt)
    ∧ _memos_by_id (slab w') = delete (memo_id memo) (_memos_by_id (slab w))
    ∧ _memo_ids_by_record (slab w')
      = <[rid memo := splice_indexOf (memo_id memo) mbr]> (_memo_ids_by_record (slab w))
    ∧ _memo_ids_by_parent (slab w') = _memo_ids_by_parent (slab w)
    ∧ _records_by_id (slab w') = _records_by_id (slab w)
    ∧ this_size (slab w') = this_size (slab w) - 1
    ∧ local_peerings (slab w') = delete (memo_id memo) (local_peerings (slab w))
    ∧ (∀ r, ref_peerings (slab w') !! r
            = if bool_decide (r ∈ default [] (local_peerings (slab w) !! memo_id memo))
              then ref_peerings (slab w) !! r ≫= drop_member (memo_id memo)
              else ref_peerings (slab w) !! r)
    ∧ trace w' = trace w ++ [SendPeeringChanges (this_id (slab w)) changes]
    ∧ microtasks w' = microtasks w
    ∧ lru_repr w' (filter (λ x, memo_id x ≠ memo_id memo) o).
Proof. apply killMemo_run. Qed.

Lemma killMemo_removes_witness :
  ∃ w',
    killMemo (ByObj m2) three_puts = (w', Return tt)
    ∧ _memos_by_id (slab w') = delete "m2"%string (_memos_by_id (slab three_puts))
    ∧ this_size (slab w') = this_size (slab three_puts) - 1
    ∧ lru_repr w' [m1; m3].
Proof.
  destruct (killMemo_removes m2 m2 three_puts [m1; m2; m3] ["m2"%string])
    as (w' & changes & Hk & Hm & _ & _ & _ & Hs & _ & _ & _ & _ & Hl).
  - exact three_puts_order.
  - right; left.
  - evaluate.
  - left. evaluate.
  - reflexivity.
  - evaluate.
  - decide_by_evaluation.
  - intros r Hr.
    assert (default [] (local_peerings (slab three_puts) !! memo_id m2) = ["m2"%string])
      as E by evaluate.
    rewrite E in Hr. apply list_elem_of_singleton in Hr. subst r.
    apply (bool_decide_unpack _). evaluate.
  - exists w'. split; [exact Hk|]. split; [exact Hm|]. split; [exact Hs|exact Hl].
Defined.

(** X7.  Callers that pass one memo object per id never see [killMemo]
    throw for a memo without parents: in every world they can reach, the
    call returns, whether the memo is resident, protected or unknown. *)
Theorem killMemo_returns_without_parents (U : string → Memo) (arg : MemoArg) (w : World) :
  (∀ i, memo_id (U i) = i) →
  reachable_with U w →
  match arg with
  | ByObj m => is_object U m ∧ parents m = []
  | ById i => parents (U i) = []
  end →
  ∃ w', killMemo arg w = (w', Return tt).
Proof.
  intros U_id Hw Harg.
  apply (killMemo_returns U arg w U_id); [|
    apply reachable_peering, (reachable_with_reachable U), Hw|exact Harg].
  apply (reachable_sound U U_id), Hw.
Qed.

Lemma killMemo_returns_without_parents_witness :
  ∃ w', killMemo (ById "p1") chain_R_killed = (w', Return tt).
Proof.
  apply (killMemo_returns_without_parents objects_R (ById "p1") chain_R_killed).
  - exact objects_R_id.
  - exact chain_R_killed_reachable_with.
  - reflexivity.
Defined.

(** ** Further properties: eviction *)

(** X8.  Eviction frees nothing while the memos want no replica: when every
    memo of the LRU list has [desiredReplicas <= 0], a call of [evictMemos],
    run to quiescence, leaves the slab and the links as they were, whatever
    [size] and [quota] are. *)
Theorem evictMemos_keeps_unwanted (w : World) (o : list Memo) :
  lru_repr w o →
  microtasks w = [] →
  (∀ m, m ∈ o → desiredReplicas m ≤ 0) →
  slab (call evictMemos w) = slab w
  ∧ links (call evictMemos w) = links w
  ∧ microtasks (call evictMemos w) = [].
Proof.
  intros (Hnd & Hhead & Htail & Hchain) Hq Hall. unfold call, evictMemos.
  rewrite bind_run. unfold this. cbn beta iota.
  destruct (this_size (slab w) - quota (slab w) <=? 0).
  - simpl. rewrite drain_idle by exact Hq. repeat split. exact Hq.
  - rewrite Hhead, (evict_loop_run _ o None w Hchain), Hq. cbn [fst app].
    rewrite (drain_unwanted (slab w)
               (take (Z.to_nat (this_size (slab w) - quota (slab w))) o)).
    + repeat split.
    + intros m Hm. apply Hall. apply (subseteq_take _ _ _ Hm).
    + reflexivity.
Qed.

Lemma evictMemos_keeps_unwanted_witness :
  slab (call evictMemos three_puts) = slab three_puts
  ∧ links (call evictMemos three_puts) = links three_puts
  ∧ microtasks (call evictMemos three_puts) = [].
Proof.
  apply (evictMemos_keeps_unwanted three_puts [m1; m2; m3]).
  - exact three_puts_order.
  - evaluate.
  - intros m Hm. repeat (apply elem_of_cons in Hm as [->|Hm]; [simpl; lia|]).
    inversion Hm.
Defined.

(** X9.  [evictMemo] of a memo that wants replicas, has a peering entry and
    meets the conditions of X6: the mesh is asked for accepting slabs and
    the memo is pushed to each of them, and once the reaction has run the
    memo is removed as by [killMemo]. *)
Theorem evictMemo_removes_replicated (memo m' : Memo) (w : World) (o : list Memo)
    (mbr : list string) :
  microtasks w = [] →
  0 < desiredReplicas memo →
  lru_repr w o →
  memo ∈ o →
  _memos_by_id (slab w) !! memo_id memo = Some m' →
  (_records_by_id (slab w) !! rid memo = None
   ∨ truthy_string (_memo_ids_by_parent (slab w) !! memo_id memo) = true) →
  parents memo = [] →
  _memo_ids_by_record (slab w) !! rid memo = Some mbr →
  is_Some (ref_peerings (slab w) !! memo_id memo) →
  NoDup (default [] (local_peerings (slab w) !! memo_id memo)) →
  (∀ r, r ∈ default [] (local_peerings (slab w) !! memo_id memo) →
        is_Some (ref_peerings (slab w) !! r)) →
  ∃ changes,
    let w' := call (evictMemo (ByObj memo)) w in
    _memos_by_id (slab w') = delete (memo_id memo) (_memos_by_id (slab w))
    ∧ _memo_ids_by_record (slab w')
      = <[rid memo := splice_indexOf (memo_id memo) mbr]> (_memo_ids_by_record (slab w))
    ∧ this_size (slab w') = this_size (slab w) - 1
    ∧ local_peerings (slab w') = delete (memo_id memo) (local_peerings (slab w))
    ∧ lru_repr w' (filter (λ x, memo_id x ≠ memo_id memo) o)
    ∧ trace w'
      = trace w ++ Evicting (memo_id memo) true :: replication_events (slab w) memo
          ++ [SendPeeringChanges (this_id (slab w)) changes]
    ∧ microtasks w' = [].
Proof.
  intros Hq Hd Hrepr Hin Hres Hfree Hpar Hmbr [rp Hrp] Hnd Hall.
  rewrite (call_evictMemo memo w Hq), (replication_promise_wanted _ memo Hd), Hrp.
  set (w1 := mkWorld (slab w) (links w)
               (trace w ++ Evicting (memo_id memo) true :: replication_events (slab w) memo)
               []).
  destruct (killMemo_run memo m' w1 o mbr) as (w' & changes & Hk & H1 & H2 & _ & _ & H5 & H6
                                                & _ & H8 & H9 & H10);
    try assumption.
  subst w1. cbn [slab links trace microtasks] in *.
  exists changes. simpl run_task. rewrite Hk. cbn [fst].
  rewrite H1, H2, H5, H6, H8, H9, <- app_assoc.
  split; [reflexivity|]. split; [reflexivity|]. split; [reflexivity|].
  split; [reflexivity|]. split; [exact H10|]. split; reflexivity.
Qed.

Lemma evictMemo_removes_replicated_witness :
  ∃ changes,
    let w' := call (evictMemo (ByObj m5)) replicated_m5 in
    _memos_by_id (slab w') = delete "m5"%string (_memos_by_id (slab replicated_m5))
    ∧ _memo_ids_by_record (slab w')
      = <[rid m5 := splice_indexOf "m5" ["m5"%string]]>
          (_memo_ids_by_record (slab replicated_m5))
    ∧ this_size (slab w') = this_size (slab replicated_m5) - 1
    ∧ local_peerings (slab w') = delete "m5"%string (local_peerings (slab replicated_m5))
    ∧ lru_repr w' (filter (λ x, memo_id x ≠ "m5"%string) [m5])
    ∧ trace w'
      = trace replicated_m5 ++ Evicting "m5" true :: replication_events (slab replicated_m5) m5
          ++ [SendPeeringChanges (this_id (slab replicated_m5)) changes]
    ∧ microtasks w' = [].
Proof.
  apply (evictMemo_removes_replicated m5 m5 replicated_m5 [m5] ["m5"%string]).
  - evaluate.
  - reflexivity.
  - exact replicated_m5_order.
  - left.
  - evaluate.
  - left. evaluate.
  - reflexivity.
  - evaluate.
  - apply (bool_decide_unpack _). evaluate.
  - decide_by_evaluation.
  - intros r Hr.
    assert (default [] (local_peerings (slab replicated_m5) !! memo_id m5) = ["m5"%string])
      as E by evaluate.
    rewrite E in Hr. apply list_elem_of_singleton in Hr. subst r.
    apply (bool_decide_unpack _). evaluate.
Defined.

(** X10.  [evictMemo] of a memo object that wants replicas but has no entry
    in [ref_peerings] (a memo that was never stored here, or whose peering
    was deregistered): [getMemoPeers] answers [null], the executor throws,
    the promise is rejected and nothing handles the rejection; the slab and
    the links stay as they were and the mesh is not called. *)
Theorem evictMemo_unpeered_rejects (memo : Memo) (w : World) :
  microtasks w = [] →
  0 < desiredReplicas memo →
  ref_peerings (slab w) !! memo_id memo = None →
  call (evictMemo (ByObj memo)) w
  = mkWorld (slab w) (links w)
      (trace w ++ [Evicting (memo_id memo) true; UnhandledRejection TypeError]) [].
Proof.
  intros Hq Hd Hrp.
  rewrite (call_evictMemo memo w Hq), (replication_promise_wanted _ memo Hd), Hrp.
  unfold replication_events, getMemoPeers. rewrite Hrp. simpl.
  rewrite <- app_assoc. reflexivity.
Qed.

Lemma evictMemo_unpeered_rejects_witness :
  call (evictMemo (ByObj m5)) (slab_A eager_mesh 5 10)
  = mkWorld (slab (slab_A eager_mesh 5 10)) (links (slab_A eager_mesh 5 10))
      (trace (slab_A eager_mesh 5 10)
         ++ [Evicting (memo_id m5) true; UnhandledRejection TypeError]) [].
Proof.
  apply (evictMemo_unpeered_rejects m5 (slab_A eager_mesh 5 10)).
  - reflexivity.
  - reflexivity.
  - reflexivity.
Defined.

(** ** Further properties: peering *)

(** X11.  [receivePeeringChange] touches nothing but the remotes of entries
    that exist: for a change with one state per memo id, every entry of
    [ref_peerings] keeps its memos; where the change names the entry's id,
    a non-zero state is recorded for the sending slab and a zero state
    deletes the sending slab; ids without an entry are ignored, and no entry
    is created or deleted. *)
Theorem receivePeeringChange_records (sender : string) (change : list (string * Z))
    (w : World) :
  NoDup change.*1 →
  ∃ rp',
    receivePeeringChange sender change w
    = (mkWorld (set_ref_peerings (λ _, rp') (slab w)) (links w) (trace w) (microtasks w),
       Return tt)
    ∧ ∀ k, rp' !! k
           = (λ r, mkRefPeering (memos r)
                     (received sender (alist_get k change) (remotes r)))
             <$> ref_peerings (slab w) !! k.
Proof.
  intros Hnd. destruct (receive_fold sender change (slab w) Hnd) as (rp' & E & H).
  exists rp'. split; [|exact H]. unfold receivePeeringChange, update. rewrite E. reflexivity.
Qed.

Lemma receivePeeringChange_records_witness :
  ∃ rp',
    receivePeeringChange "B" [("m1"%string, 2); ("zz"%string, 1)] three_puts
    = (mkWorld (set_ref_peerings (λ _, rp') (slab three_puts)) (links three_puts)
         (trace three_puts) (microtasks three_puts), Return tt)
    ∧ ∀ k, rp' !! k
           = (λ r, mkRefPeering (memos r)
                     (received "B" (alist_get k [("m1"%string, 2); ("zz"%string, 1)])
                        (remotes r)))
             <$> ref_peerings (slab three_puts) !! k.
Proof.
  apply (receivePeeringChange_records "B" [("m1"%string, 2); ("zz"%string, 1)] three_puts).
  decide_by_evaluation.
Defined.

(** X12.  What a slab last announced decides how it counts: after
    [receivePeeringChange(sender, {k: state})] for a memo id [k] that has an
    entry, [getMemoPeers(k, true)] lists the sender exactly if the state is 2
    and [getMemoPeers(k, false)] exactly if it is not 0; the other slabs are
    listed as before. *)
Theorem receivePeeringChange_getMemoPeers (sender k : string) (st : Z) (w : World)
    (r : RefPeering) (has_memo : bool) :
  ref_peerings (slab w) !! k = Some r →
  NoDup (remotes r).*1 →
  ∃ peers peers',
    getMemoPeers (slab w) k has_memo = Some peers
    ∧ getMemoPeers (slab (receivePeeringChange sender [(k, st)] w).1) k has_memo
      = Some peers'
    ∧ (sender ∈ peers' ↔ if has_memo then st = 2 else st ≠ 0)
    ∧ ∀ x, x ≠ sender → (x ∈ peers' ↔ x ∈ peers).
Proof.
  intros Hr Hnd.
  assert (ref_peerings (slab (receivePeeringChange sender [(k, st)] w).1) !! k
          = Some (mkRefPeering (memos r) (received sender (Some st) (remotes r)))) as Hr'.
  { unfold receivePeeringChange, update. cbn [fst slab foldl]. unfold receive_one.
    cbn beta iota zeta. rewrite Hr. cbn [ref_peerings set_ref_peerings].
    rewrite lookup_insert_eq. reflexivity. }
  unfold getMemoPeers. rewrite Hr, Hr'. cbn [remotes].
  pose proof (received_NoDup sender (Some st) (remotes r) Hnd) as Hnd'.
  eexists _, _. split; [reflexivity|]. split; [reflexivity|].
  destruct has_memo.
  - split.
    + rewrite (filter_keys (λ e, e.2 = 2) _ sender Hnd'). split.
      * intros (v & Hv & Hp). rewrite alist_get_received in Hv.
        rewrite bool_decide_eq_true_2 in Hv by reflexivity.
        destruct (st =? 0); [discriminate|]. injection Hv as <-. exact Hp.
      * intros ->. exists 2. rewrite alist_get_received.
        rewrite bool_decide_eq_true_2 by reflexivity. split; reflexivity.
    + intros x Hx. rewrite (filter_keys (λ e, e.2 = 2) _ x Hnd').
      rewrite (filter_keys (λ e, e.2 = 2) _ x Hnd).
      rewrite alist_get_received, bool_decide_eq_false_2 by exact Hx. reflexivity.
  - split.
    + rewrite (filter_keys (λ e, e.2 ≠ 0) _ sender Hnd'). split.
      * intros (v & Hv & Hp). rewrite alist_get_received in Hv.
        rewrite bool_decide_eq_true_2 in Hv by reflexivity.
        destruct (st =? 0); [discriminate|]. injection Hv as <-. exact Hp.
      * intros Hst. exists st. rewrite alist_get_received.
        rewrite bool_decide_eq_true_2 by reflexivity.
        destruct (Z.eqb_spec st 0); [contradiction|]. split; [reflexivity|exact Hst].
    + intros x Hx. rewrite (filter_keys (λ e, e.2 ≠ 0) _ x Hnd').
      rewrite (filter_keys (λ e, e.2 ≠ 0) _ x Hnd).
      rewrite alist_get_received, bool_decide_eq_false_2 by exact Hx. reflexivity.
Qed.

Lemma receivePeeringChange_getMemoPeers_witness :
  ∃ peers peers',
    getMemoPeers (slab three_puts) "m1" true = Some peers
    ∧ getMemoPeers (slab (receivePeeringChange "B" [("m1"%string, 2)] three_puts).1)
        "m1" true = Some peers'
    ∧ ("B"%string ∈ peers' ↔ 2 = 2)
    ∧ ∀ x, x ≠ "B"%string → (x ∈ peers' ↔ x ∈ peers).
Proof.
  apply (receivePeeringChange_getMemoPeers "B" "m1" 2 three_puts
           (mkRefPeering ["m1"%string] []) true).
  - evaluate.
  - constructor.
Defined.

(** X13.  The peering registry stays consistent whatever is called, with
    whatever arguments, and whether the calls return or throw: in every
    world reachable from a constructed slab, each reference listed for a memo
    in [local_peerings] has an entry in [ref_peerings] that names the memo,
    each memo named by an entry lists the entry's id, the lists have no
    duplicates and no entry is without memos. *)
Theorem peering_registry_consistent (w : World) : reachable w → peering_ok (slab w).
Proof. apply reachable_peering. Qed.

Lemma peering_registry_consistent_witness : peering_ok (slab chain_R_killed).
Proof.
  apply (peering_registry_consistent chain_R_killed).
  exact chain_R_killed_reachable.
Defined.

(** X14.  In every reachable world [deregisterPeeringForMemo] returns (it
    never reads [memos] of a missing entry): the memo leaves each entry it
    referenced, entries left without memos are deleted, its
    [local_peerings] list is deleted, and one [sendPeeringChanges] call is
    made, also when there is nothing to announce. *)
Theorem deregisterPeeringForMemo_returns (memo : Memo) (w : World) :
  reachable w →
  ∃ rp changes,
    deregisterPeeringForMemo memo w
    = (mkWorld (set_local_peerings (delete (memo_id memo))
                  (set_ref_peerings (λ _, rp) (slab w)))
         (links w) (trace w ++ [SendPeeringChanges (this_id (slab w)) changes])
         (microtasks w), Return tt)
    ∧ ∀ r, rp !! r
           = if bool_decide (r ∈ default [] (local_peerings (slab w) !! memo_id memo))
             then ref_peerings (slab w) !! r ≫= drop_member (memo_id memo)
             else ref_peerings (slab w) !! r.
Proof.
  intros Hw.
  destruct (deregisterPeeringForMemo_run memo w (reachable_peering w Hw))
    as (rp & changes & Hrun & Hrp & _).
  exists rp, changes. split; assumption.
Qed.

Lemma deregisterPeeringForMemo_returns_witness :
  ∃ rp changes,
    deregisterPeeringForMemo p1 chain_R_killed
    = (mkWorld (set_local_peerings (delete (memo_id p1))
                  (set_ref_peerings (λ _, rp) (slab chain_R_killed)))
         (links chain_R_killed)
         (trace chain_R_killed ++ [SendPeeringChanges (this_id (slab chain_R_killed)) changes])
         (microtasks chain_R_killed), Return tt)
    ∧ ∀ r, rp !! r
           = if bool_decide
                  (r ∈ default [] (local_peerings (slab chain_R_killed) !! memo_id p1))
             then ref_peerings (slab chain_R_killed) !! r ≫= drop_member (memo_id p1)
             else ref_peerings (slab chain_R_killed) !! r.
Proof.
  apply (deregisterPeeringForMemo_returns p1 chain_R_killed).
  exact chain_R_killed_reachable.
Defined.

(** X15.  In every reachable world [getPeeringsForMemo] returns (it does
    not throw) an object whose keys are the references of the memo, the ids
    of [local_peerings[memo.id]], and no others.  The value under a reference
    holds, key by key, the remotes recorded for the reference in
    [ref_peerings], and with [include_self] this slab's id with state 2 in
    place of whatever a remote of that name had.  A memo without
    [local_peerings] gets the empty object. *)
Theorem getPeeringsForMemo_by_key (memo : Memo) (include_self : bool) (w : World) :
  reachable w →
  ∃ peerings,
    getPeeringsForMemo (slab w) memo include_self = Return peerings
    ∧ (∀ r, r ∉ default [] (local_peerings (slab w) !! memo_id memo) →
            peerings !! r = None)
    ∧ ∀ r, r ∈ default [] (local_peerings (slab w) !! memo_id memo) →
           ∃ rp peering,
             ref_peerings (slab w) !! r = Some rp
             ∧ peerings !! r = Some peering
             ∧ ∀ k, peering !! k
                    = if include_self && bool_decide (k = this_id (slab w)) then Some 2
                      else alist_get k (remotes rp).
Proof.
  intros Hw. destruct (reachable_peering w Hw) as [H1 _].
  assert (∀ r, r ∈ default [] (local_peerings (slab w) !! memo_id memo) →
               is_Some (ref_peerings (slab w) !! r)) as Hall.
  { intros r Hr. destruct (local_peerings (slab w) !! memo_id memo) as [l|] eqn:E;
      simpl in Hr; [|inversion Hr].
    destruct (H1 _ l E) as [_ Hx]. destruct (Hx r Hr) as (rp & Erp & _). eauto. }
  destruct (peerings_loop_run (slab w) include_self _ ∅ Hall) as (peerings & Hrun & Hp).
  exists peerings. split; [exact Hrun|]. split.
  - intros r Hr. rewrite Hp, bool_decide_eq_false_2 by exact Hr. apply lookup_empty.
  - intros r Hr. destruct (Hall r Hr) as [rp Erp]. eexists rp, _.
    split; [exact Erp|]. split.
    + rewrite Hp, bool_decide_eq_true_2 by exact Hr. rewrite Erp. reflexivity.
    + intros k. destruct include_self; cbn [andb]; [|apply copy_remotes_lookup].
      case_bool_decide as E.
      * rewrite E. apply lookup_insert_eq.
      * rewrite lookup_insert_ne by congruence. apply copy_remotes_lookup.
Qed.

Lemma getPeeringsForMemo_by_key_witness :
  ∃ peerings,
    getPeeringsForMemo (slab announced_m1) m1 true = Return peerings
    ∧ (∀ r, r ∉ default [] (local_peerings (slab announced_m1) !! memo_id m1) →
            peerings !! r = None)
    ∧ ∀ r, r ∈ default [] (local_peerings (slab announced_m1) !! memo_id m1) →
           ∃ rp peering,
             ref_peerings (slab announced_m1) !! r = Some rp
             ∧ peerings !! r = Some peering
             ∧ ∀ k, peering !! k
                    = if true && bool_decide (k = this_id (slab announced_m1)) then Some 2
                      else alist_get k (remotes rp).
Proof.
  apply (getPeeringsForMemo_by_key m1 true announced_m1).
  apply (reachable_call (ReceivePeeringChange "B" [("m1"%string, 2)])).
  apply (reachable_call (PutMemo m3)), (reachable_call (PutMemo m2)).
  apply (reachable_call (PutMemo m1)).
  exact (reachable_new 0 _ _ slab_A_2_3_new).
Defined.

(** With slab B announced as a holder of m1, the peerings of m1 are
    [{m1: {B: 2, A: 2}}]. *)
Example announced_m1_peerings :
  getPeeringsForMemo (slab announced_m1) m1 true
  = Return {[ "m1"%string := {[ "B"%string := 2; "A"%string := 2 ]} ]}.
Proof. evaluate. Qed.

(** ** Further properties: child ids and listing *)

(** X16.  Child ids are unique across slabs and counters: for slabs with
    ids of one ASCII character (one byte; the constructor accepts only ids
    of one character) and counters
    that are not negative, two calls of [genChildID] return the same id only
    if the slab ids and the counters are the same. *)
Theorem genChildID_unique (w1 w2 : World) :
  String.length (this_id (slab w1)) = 1%nat →
  String.length (this_id (slab w2)) = 1%nat →
  0 ≤ child_increment (slab w1) →
  0 ≤ child_increment (slab w2) →
  (genChildID w1).2 = (genChildID w2).2 →
  this_id (slab w1) = this_id (slab w2)
  ∧ child_increment (slab w1) = child_increment (slab w2).
Proof.
  intros Hl1 Hl2 H1 H2. rewrite !genChildID_run. cbn [snd]. intros [= E].
  apply (one_char_prefix _ _ _ _ Hl1 Hl2) in E as [E1 E2].
  split; [exact E1|]. apply toString36_inj; assumption.
Qed.

Lemma genChildID_unique_witness :
  this_id (slab three_puts) = this_id (slab chain_R_killed)
  ∧ child_increment (slab three_puts) = child_increment (slab chain_R_killed).
Proof.
  apply (genChildID_unique three_puts chain_R_killed).
  - reflexivity.
  - reflexivity.
  - decide_by_evaluation.
  - decide_by_evaluation.
  - evaluate.
Defined.

(** X17.  Successive calls of [genChildID] on one slab return pairwise
    distinct ids, slab id followed by the counter in base 36, as long as the
    counter stays within the integers a double counts exactly (up to 2^53);
    each call advances the counter by one. *)
Theorem genChildIDs_distinct (n : nat) (w : World) :
  0 ≤ child_increment (slab w) →
  child_increment (slab w) + Z.of_nat n ≤ 2 ^ 53 →
  ∃ w' ids,
    genChildIDs n w = (w', Return ids)
    ∧ ids = (λ k, this_id (slab w) +:+ toString36 k)
              <$> seqZ (child_increment (slab w)) (Z.of_nat n)
    ∧ NoDup ids
    ∧ child_increment (slab w') = child_increment (slab w) + Z.of_nat n.
Proof.
  intros H0 Hn. destruct (genChildIDs_run n w H0 Hn) as (w' & Hrun & _ & Hc).
  eexists w', _. split; [exact Hrun|]. split; [reflexivity|]. split; [|exact Hc].
  apply NoDup_fmap_2_strong; [|apply NoDup_seqZ].
  intros a b Ha%elem_of_seqZ Hb%elem_of_seqZ E.
  apply append_inj_l in E. apply toString36_inj; [lia|lia|exact E].
Qed.

Lemma genChildIDs_distinct_witness :
  ∃ w' ids,
    genChildIDs 40 three_puts = (w', Return ids)
    ∧ ids = (λ k, this_id (slab three_puts) +:+ toString36 k)
              <$> seqZ (child_increment (slab three_puts)) (Z.of_nat 40)
    ∧ NoDup ids
    ∧ child_increment (slab w') = child_increment (slab three_puts) + Z.of_nat 40.
Proof.
  apply (genChildIDs_distinct 40 three_puts).
  - decide_by_evaluation.
  - decide_by_evaluation.
Defined.

(** X18.  On a well-formed LRU list [dumpMemos] terminates and returns the
    memos most recently used first, and [dumpMemoIds] their ids. *)
Theorem dumpMemos_most_recent_first (fuel : nat) (w : World) (o : list Memo) :
  lru_repr w o →
  (length o ≤ fuel)%nat →
  dumpMemos fuel w = Some (reverse o)
  ∧ dumpMemoIds fuel w = Some (memo_id <$> reverse o).
Proof.
  intros (_ & _ & Htail & Hchain) Hf.
  assert (dumpMemos fuel w = Some (reverse o)) as E.
  { unfold dumpMemos. rewrite Htail. apply (dump_loop_chain _ o None fuel Hchain Hf). }
  split; [exact E|]. unfold dumpMemoIds. rewrite E. reflexivity.
Qed.

Lemma dumpMemos_most_recent_first_witness :
  dumpMemos 4 basic_lru = Some (reverse [m2; m3; m1; m4])
  ∧ dumpMemoIds 4 basic_lru = Some (memo_id <$> reverse [m2; m3; m1; m4]).
Proof.
  apply (dumpMemos_most_recent_first 4 basic_lru [m2; m3; m1; m4]).
  - exact basic_lru_order.
  - simpl. lia.
Defined.

(** ** Further properties: the record index *)

(** X19.  The record index stays exact for callers that pass one memo object
    per id, whatever they call and whether the calls return or throw (a
    [killMemo] that throws at a parent has updated both [_memos_by_id] and
    the index by then): in every world they reach, [_memo_ids_by_record[r]]
    lists, without duplicates, resident memos of record [r], every resident
    memo is listed under its record, and the stored objects are the callers'
    objects. *)
Theorem record_index_exact (U : string → Memo) (w : World) :
  (∀ i, memo_id (U i) = i) →
  reachable_with U w →
  index_ok (slab w) ∧ ∀ i m, _memos_by_id (slab w) !! i = Some m → m = U i.
Proof.
  intros U_id Hw. destruct (reachable_sound U U_id w Hw) as ((H1 & H2 & _) & _).
  split; assumption.
Qed.

Lemma record_index_exact_witness :
  index_ok (slab chain_R_killed)
  ∧ ∀ i m, _memos_by_id (slab chain_R_killed) !! i = Some m → m = objects_R i.
Proof.
  apply (record_index_exact objects_R chain_R_killed).
  - exact objects_R_id.
  - exact chain_R_killed_reachable_with.
Defined.

(** X20.  For such callers [hasMemosForRecord] is exact: it answers true
    exactly if some resident memo belongs to the record. *)
Theorem hasMemosForRecord_exact (U : string → Memo) (w : World) (r : string) :
  (∀ i, memo_id (U i) = i) →
  reachable_with U w →
  (hasMemosForRecord (slab w) r = true
   ↔ ∃ i m, _memos_by_id (slab w) !! i = Some m ∧ rid m = r).
Proof.
  intros U_id Hw. apply hasMemosForRecord_index.
  destruct (reachable_sound U U_id w Hw) as ((_ & H & _) & _). exact H.
Qed.

Lemma hasMemosForRecord_exact_witness :
  hasMemosForRecord (slab chain_R_killed) "R" = true
  ↔ ∃ i m, _memos_by_id (slab chain_R_killed) !! i = Some m ∧ rid m = "R"%string.
Proof.
  apply (hasMemosForRecord_exact objects_R chain_R_killed "R").
  - exact objects_R_id.
  - exact chain_R_killed_reachable_with.
Defined.

(** X21.  For such callers the head query always returns: every id of
    [_memo_ids_by_record[r]] is found by [getMemo], so [memo.id] is never
    read on [undefined].  The result holds the stored memos of the listed
    ids that have no truthy entry in [_memo_ids_by_parent], in the order of
    the index, and the three indexes are as before. *)
Theorem getHeadMemosForRecord_returns_heads (U : string → Memo) (w : World) (r : string) :
  (∀ i, memo_id (U i) = i) →
  reachable_with U w →
  ∃ w' heads,
    getHeadMemosForRecord r w = (w', Return heads)
    ∧ Forall2 (λ i m, _memos_by_id (slab w) !! i = Some m)
        (filter (λ i, truthy_string (_memo_ids_by_parent (slab w) !! i) = false)
           (default [] (_memo_ids_by_record (slab w) !! r)))
        heads
    ∧ _memos_by_id (slab w') = _memos_by_id (slab w)
    ∧ _memo_ids_by_record (slab w') = _memo_ids_by_record (slab w)
    ∧ _memo_ids_by_parent (slab w') = _memo_ids_by_parent (slab w).
Proof.
  intros U_id Hw. apply (getHeadMemosForRecord_returns U w r U_id).
  apply (reachable_sound U U_id), Hw.
Qed.

Lemma getHeadMemosForRecord_returns_heads_witness :
  ∃ w' heads,
    getHeadMemosForRecord "R" chain_R_killed = (w', Return heads)
    ∧ Forall2 (λ i m, _memos_by_id (slab chain_R_killed) !! i = Some m)
        (filter (λ i, truthy_string (_memo_ids_by_parent (slab chain_R_killed) !! i) = false)
           (default [] (_memo_ids_by_record (slab chain_R_killed) !! "R"%string)))
        heads
    ∧ _memos_by_id (slab w') = _memos_by_id (slab chain_R_killed)
    ∧ _memo_ids_by_record (slab w') = _memo_ids_by_record (slab chain_R_killed)
    ∧ _memo_ids_by_parent (slab w') = _memo_ids_by_parent (slab chain_R_killed).
Proof.
  apply (getHeadMemosForRecord_returns_heads objects_R chain_R_killed "R").
  - exact objects_R_id.
  - exact chain_R_killed_reachable_with.
Defined.

(** ** Further properties: construction and subscription *)

(** X22.  The constructor returns a slab exactly if the counter of the
    module is at most 1296 and the arguments are an object with a
    one-character id and a mesh.  The slab it returns is empty, has size 0,
    takes 5 and 10 for a quota and a limit that are absent or 0, and has
    registered itself with the mesh. *)
Theorem new_Slab_accepts_iff (k : Z) (args : option SlabArgs) (w : World) :
  (new_Slab k args).2 = Return w
  ↔ k ≤ 1296
    ∧ ∃ a i m,
        args = Some a ∧ args_id a = Some i ∧ args_mesh a = Some m
        ∧ js_length i = 1%nat
        ∧ w = mkWorld
                (mkSlab i 0 ∅ ∅ ∅ ∅ 0 (or_else (args_quota a) 5) (or_else (args_limit a) 10)
                   m ∅ ∅ None None)
                ∅ [RegisterSlab i] [].
Proof.
  split.
  - intros Hw. unfold new_Slab in Hw.
    destruct (Z.ltb_spec 1296 k); [discriminate|]. split; [lia|].
    destruct args as [a|]; [|discriminate].
    destruct (args_id a) as [i|] eqn:Ei; [|discriminate].
    destruct (args_mesh a) as [m|] eqn:Em; [|destruct (bool_decide _); discriminate].
    destruct (bool_decide (i = ""%string)); [discriminate|].
    destruct (decide (js_length i ≠ 1%nat)) as [Hl|Hl].
    + rewrite (bool_decide_eq_true_2 _ Hl) in Hw. discriminate.
    + rewrite (bool_decide_eq_false_2 _ Hl) in Hw. injection Hw as <-.
      exists a, i, m. repeat split; try assumption.
      destruct (decide (js_length i = 1%nat)); [assumption|contradiction].
  - intros [Hk (a & i & m & -> & Ei & Em & Hl & ->)]. unfold new_Slab.
    destruct (Z.ltb_spec 1296 k); [lia|]. rewrite Ei, Em.
    rewrite bool_decide_eq_false_2 by (intros ->; discriminate).
    rewrite bool_decide_eq_false_2 by (intros H'; exact (H' Hl)).
    reflexivity.
Qed.

(** The length the constructor tests is counted in UTF-16 code units: an id
    of one character is accepted whatever its UTF-8 encoding takes, unless
    the character lies above U+FFFF. *)
Example new_Slab_one_character_ids :
  js_length "A" = 1%nat
  ∧ js_length "λ" = 1%nat
  ∧ js_length "€" = 1%nat
  ∧ js_length "𝒜" = 2%nat
  ∧ js_length "AB" = 2%nat
  ∧ (new_Slab 0 (Some (mkSlabArgs (Some "λ"%string) (Some quiet_mesh) None None))).2
    = Return (mkWorld (mkSlab "λ" 0 ∅ ∅ ∅ ∅ 0 5 10 quiet_mesh ∅ ∅ None None)
                ∅ [RegisterSlab "λ"] [])
  ∧ (new_Slab 0 (Some (mkSlabArgs (Some "𝒜"%string) (Some quiet_mesh) None None))).2
    = Throw (Thrown "sanity error 𝒜").
Proof. repeat split. Qed.

(** ** Further properties: the LRU list *)

Lemma basic_lru_reachable_tidy : reachable_tidy objects_m basic_lru.
Proof.
  assert (basic_lru
          = call (perform (PutMemo m4)) (call (perform (GetMemo "m1")) three_puts)) as ->
    by (vm_compute; reflexivity).
  apply (reachable_tidy_call objects_m (PutMemo m4)).
  { split; [reflexivity|]. right. split; evaluate. }
  apply (reachable_tidy_call objects_m (GetMemo "m1")); [split; exact I|].
  apply (reachable_tidy_call objects_m (PutMemo m3)).
  { split; [reflexivity|]. right. split; evaluate. }
  apply (reachable_tidy_call objects_m (PutMemo m2)).
  { split; [reflexivity|]. right. split; evaluate. }
  apply (reachable_tidy_call objects_m (PutMemo m1)).
  { split; [reflexivity|]. right. split; evaluate. }
  exact (reachable_tidy_new objects_m 0 _ _ slab_A_2_3_new).
Qed.

(** X23.  The LRU list holds exactly the resident memos.  For callers that
    pass one memo object per id, whose memos have no parents and who store
    only memo objects that are resident already or carry no [_newer] and
    [_older] link, every world they reach has a well-formed LRU list (head,
    tail and links describe one list without repetition, least recently used
    first) whose members are exactly the memo objects of [_memos_by_id]. *)
Theorem lru_list_exact (U : string → Memo) (w : World) :
  (∀ i, memo_id (U i) = i) →
  (∀ i, parents (U i) = []) →
  reachable_tidy U w →
  ∃ o, lru_repr w o ∧ ∀ m, m ∈ o ↔ _memos_by_id (slab w) !! memo_id m = Some m.
Proof.
  intros U_id U_parents Hw.
  destruct (reachable_tidy_tidy U U_id U_parents w Hw) as (_ & _ & o & Ho). exists o. exact Ho.
Qed.

Lemma lru_list_exact_witness :
  ∃ o, lru_repr basic_lru o
       ∧ ∀ m, m ∈ o ↔ _memos_by_id (slab basic_lru) !! memo_id m = Some m.
Proof.
  apply (lru_list_exact objects_m basic_lru).
  - intros i. reflexivity.
  - intros i. reflexivity.
  - exact basic_lru_reachable_tidy.
Defined.

(** X24.  For the same callers [dumpMemoIds] lists the resident memos: it
    terminates and returns, without repetition, exactly the ids of
    [_memos_by_id]. *)
Theorem dumpMemoIds_lists_residents (U : string → Memo) (w : World) (fuel : nat) :
  (∀ i, memo_id (U i) = i) →
  (∀ i, parents (U i) = []) →
  reachable_tidy U w →
  (size (_memos_by_id (slab w)) ≤ fuel)%nat →
  ∃ ids, dumpMemoIds fuel w = Some ids
         ∧ NoDup ids
         ∧ ∀ i, i ∈ ids ↔ resident w i.
Proof.
  intros U_id U_parents Hw Hfuel.
  destruct (reachable_tidy_tidy U U_id U_parents w Hw) as (((H1 & _) & _) & _ & o & Ho).
  destruct Ho as [Hrepr Hmem]. pose proof Hrepr as (Hnd & _ & Htail & Hchain).
  assert (∀ i, i ∈ memo_id <$> o ↔ resident w i) as Hids.
  { intros i. rewrite list_elem_of_fmap. unfold resident. split.
    - intros (m & -> & Hm). apply Hmem in Hm. eauto.
    - intros [m Hm]. exists m. pose proof (H1 i m Hm) as E.
      assert (memo_id m = i) as Hi by (rewrite E; apply U_id).
      split; [symmetry; exact Hi|]. apply Hmem. rewrite Hi. exact Hm. }
  assert (length o ≤ fuel)%nat as Hlen.
  { etransitivity; [|exact Hfuel]. rewrite <- (length_fmap memo_id o).
    rewrite <- (length_map_to_list (_memos_by_id (slab w))).
    rewrite <- (length_fmap fst (map_to_list _)).
    apply submseteq_length, NoDup_submseteq; [exact Hnd|].
    intros i [m Hm]%Hids. apply list_elem_of_fmap. exists (i, m).
    split; [reflexivity|]. apply elem_of_map_to_list. exact Hm. }
  exists (memo_id <$> reverse o). split; [|split].
  - unfold dumpMemoIds, dumpMemos. rewrite Htail.
    rewrite (dump_loop_chain _ o None fuel Hchain Hlen). reflexivity.
  - rewrite fmap_reverse, reverse_Permutation. exact Hnd.
  - intros i. rewrite fmap_reverse, elem_of_reverse. apply Hids.
Qed.

Lemma dumpMemoIds_lists_residents_witness :
  ∃ ids, dumpMemoIds 4 basic_lru = Some ids
         ∧ NoDup ids
         ∧ ∀ i, i ∈ ids ↔ resident basic_lru i.
Proof.
  apply (dumpMemoIds_lists_residents objects_m basic_lru 4).
  - intros i. reflexivity.
  - intros i. reflexivity.
  - exact basic_lru_reachable_tidy.
  - apply (bool_decide_unpack _). evaluate.
Defined.

Lemma call_putMemo_below_limit (memo : Memo) (w : World) :
  microtasks w = [] →
  _memos_by_id (slab w) !! memo_id memo = None →
  this_size (slab w) ≠ limit (slab w) →
  slab (call (putMemo memo) w) = stored memo (slab w)
  ∧ links (call (putMemo memo) w)
    = match this_tail (slab w) with
      | Some t => upd_older memo (Some t) (upd_newer t (Some memo) (links w))
      | None => links w
      end
  ∧ microtasks (call (putMemo memo) w) = [].
Proof.
  intros Hq Hnew Hsize. unfold call. rewrite (putMemo_below_limit memo w Hnew Hsize), Hq.
  unfold drain. cbn [fst slab links trace microtasks app foldl].
  destruct (replication_promise (stored memo (slab w)) memo); repeat split; reflexivity.
Qed.

(** X25.  Storing a memo and removing it again restores the slab.  For a
    memo without parents that is new to the slab (not resident, not listed in
    the record index, not peered, carrying no link, not on the LRU list) and
    whose record has no subscriber list, [putMemo] below the limit followed by
    [killMemo], each run to quiescence, leaves [_memos_by_id], [size], the
    peering registry, [_memo_ids_by_parent] and the LRU list as they were
    before; the record index keeps an entry for the memo's record, with the
    ids it listed before. *)
Theorem putMemo_then_killMemo_restores (memo : Memo) (w : World) (o : list Memo) :
  microtasks w = [] →
  lru_repr w o →
  memo_id memo ∉ memo_id <$> o →
  unlinked w memo →
  _memos_by_id (slab w) !! memo_id memo = None →
  memo_id memo ∉ default [] (_memo_ids_by_record (slab w) !! rid memo) →
  local_peerings (slab w) !! memo_id memo = None →
  ref_peerings (slab w) !! memo_id memo = None →
  _records_by_id (slab w) !! rid memo = None →
  parents memo = [] →
  this_size (slab w) ≠ limit (slab w) →
  let w' := call (killMemo (ByObj memo)) (call (putMemo memo) w) in
  _memos_by_id (slab w') = _memos_by_id (slab w)
  ∧ this_size (slab w') = this_size (slab w)
  ∧ local_peerings (slab w') = local_peerings (slab w)
  ∧ ref_peerings (slab w') = ref_peerings (slab w)
  ∧ _memo_ids_by_parent (slab w') = _memo_ids_by_parent (slab w)
  ∧ _memo_ids_by_record (slab w')
    = <[rid memo := default [] (_memo_ids_by_record (slab w) !! rid memo)]>
        (_memo_ids_by_record (slab w))
  ∧ lru_repr w' o
  ∧ microtasks w' = [].
Proof.
  intros Hq Hrepr Hid Hun Hnew Hidx Hlp Hrp Hsub Hpar Hsize.
  destruct (call_putMemo_below_limit memo w Hq Hnew Hsize) as (Es & El & Eq).
  destruct (stored_new memo (slab w) Hpar Hlp Hrp)
    as (S1 & S2 & S3 & S4 & S5 & S6 & S7 & S8 & S9 & S10).
  set (w1 := call (putMemo memo) w) in *.
  assert (default [] (local_peerings (slab w1) !! memo_id memo) = [memo_id memo]) as Erefs.
  { rewrite Es, S6, lookup_insert_eq. reflexivity. }
  destruct (killMemo_run memo memo w1 (o ++ [memo])
              (default [] (_memo_ids_by_record (slab w) !! rid memo) ++ [memo_id memo]))
    as (w2 & changes & Hk & K1 & K2 & K3 & _ & K5 & K6 & K7 & _ & K9 & K10).
  - apply (lru_append w w1 o memo Hrepr Hun Hid);
      [rewrite Es; exact S9|rewrite Es; exact S10|exact El].
  - apply elem_of_app. right. left.
  - rewrite Es, S1. apply lookup_insert_eq.
  - left. rewrite Es, S4. exact Hsub.
  - exact Hpar.
  - rewrite Es, S2. apply lookup_insert_eq.
  - rewrite Erefs. apply NoDup_singleton.
  - rewrite Erefs. intros r ->%list_elem_of_singleton. rewrite Es, S7, lookup_insert_eq. eauto.
  - unfold call. rewrite Hk. cbn [fst]. rewrite drain_idle by (rewrite K9; exact Eq).
    rewrite K1, K2, K3, K5, K6, K9, Es, S1, S2, S3, S5, S6.
    split; [apply delete_insert_id, Hnew|]. split; [lia|].
    split; [apply delete_insert_id, Hlp|]. split.
    { apply map_eq. intros r. rewrite K7, Erefs, Es, S7.
      destruct (decide (r = memo_id memo)) as [->|Hne].
      - rewrite bool_decide_eq_true_2 by left. rewrite lookup_insert_eq, Hrp.
        cbn [mbind option_bind]. unfold drop_member. cbn [memos].
        rewrite filter_cons_False by (intros H; apply H; reflexivity).
        rewrite filter_nil, bool_decide_eq_true_2 by reflexivity. reflexivity.
      - rewrite bool_decide_eq_false_2 by (intros H%list_elem_of_singleton; contradiction).
        apply lookup_insert_ne. congruence. }
    split; [reflexivity|]. split.
    { rewrite insert_insert_eq. f_equal. unfold splice_indexOf.
      assert (∀ l, memo_id memo ∉ l → remove_first (memo_id memo) (l ++ [memo_id memo]) = Some l)
        as Hrm.
      { induction l as [|x l IH]; intros Hl; simpl.
        - rewrite bool_decide_eq_true_2 by reflexivity. reflexivity.
        - rewrite bool_decide_eq_false_2 by (intros E; apply Hl; rewrite E; left).
          rewrite IH by (intros H; apply Hl; right; exact H). reflexivity. }
      rewrite (Hrm _ Hidx). reflexivity. }
    split; [|exact Eq].
    rewrite filter_app in K10.
    assert (∀ x, x ∈ o → memo_id x ≠ memo_id memo) as Hne.
    { intros x Hx E. apply Hid. rewrite <- E. apply list_elem_of_fmap_2, Hx. }
    destruct (filter_ids_ne (memo_id memo) o Hne) as [Ef _]. rewrite Ef in K10.
    rewrite filter_cons_False in K10 by (intros H; apply H; reflexivity).
    rewrite filter_nil, app_nil_r in K10. exact K10.
Qed.

Lemma putMemo_then_killMemo_restores_witness :
  let w' := call (killMemo (ByObj m1)) (call (putMemo m1) chain_R) in
  _memos_by_id (slab w') = _memos_by_id (slab chain_R)
  ∧ this_size (slab w') = this_size (slab chain_R)
  ∧ local_peerings (slab w') = local_peerings (slab chain_R)
  ∧ ref_peerings (slab w') = ref_peerings (slab chain_R)
  ∧ _memo_ids_by_parent (slab w') = _memo_ids_by_parent (slab chain_R)
  ∧ _memo_ids_by_record (slab w')
    = <[rid m1 := default [] (_memo_ids_by_record (slab chain_R) !! rid m1)]>
        (_memo_ids_by_record (slab chain_R))
  ∧ lru_repr w' [p1; p2]
  ∧ microtasks w' = [].
Proof.
  apply (putMemo_then_killMemo_restores m1 chain_R [p1; p2]).
  - evaluate.
  - exact chain_R_order.
  - decide_by_evaluation.
  - split; evaluate.
  - evaluate.
  - decide_by_evaluation.
  - evaluate.
  - evaluate.
  - evaluate.
  - reflexivity.
  - decide_by_evaluation.
Defined.

(** X26.  [registerMemoPeering] with another slab records a state once:
    the memo is listed under the referenced id in both registries; the
    remote's state is recorded, and the mesh is told (unless [silent]), only
    if no truthy state is recorded for that slab; a truthy state is never
    overwritten, and the states of other slabs stay as they are. *)
Theorem registerMemoPeering_records_once (memo : Memo) (ref remote : string) (st : Z)
    (silent : bool) (w : World) :
  remote ≠ this_id (slab w) →
  let old := default [] (remotes <$> ref_peerings (slab w) !! ref) in
  let known := truthy_state (alist_get remote old) in
  ∃ w' r',
    registerMemoPeering memo ref remote st silent w = (w', Return tt)
    ∧ ref_peerings (slab w') !! ref = Some r'
    ∧ memo_id memo ∈ memos r'
    ∧ ref ∈ default [] (local_peerings (slab w') !! memo_id memo)
    ∧ alist_get remote (remotes r') = (if known then alist_get remote old else Some st)
    ∧ (∀ x, x ≠ remote → alist_get x (remotes r') = alist_get x old)
    ∧ trace w'
      = trace w ++ (if known || silent then []
                    else [SendPeeringChanges (this_id (slab w))
                            [(remote, [(memo_id memo, st)])]])
    ∧ links w' = links w
    ∧ microtasks w' = microtasks w.
Proof.
  intros Hne old known.
  pose proof (registerMemoPeering_remote memo ref remote st silent w Hne) as Hrun.
  cbn zeta in Hrun.
  assert (remotes (default (mkRefPeering [] []) (ref_peerings (slab w) !! ref)) = old) as Eold
    by (unfold old; destruct (ref_peerings (slab w) !! ref); reflexivity).
  rewrite Eold in Hrun. fold known in Hrun.
  eexists _, _. split; [exact Hrun|]. cbn [slab links trace microtasks].
  split; [simpl; apply lookup_insert_eq|]. cbn [memos remotes].
  split.
  { destruct (decide (memo_id memo
                      ∈ memos (default (mkRefPeering [] [])
                                 (ref_peerings (slab w) !! ref)))) as [E|E].
    - rewrite (bool_decide_eq_true_2 _ E). exact E.
    - rewrite (bool_decide_eq_false_2 _ E). apply elem_of_app. right. left. }
  split.
  { simpl. rewrite lookup_insert_eq. simpl.
    destruct (decide (ref ∈ default [] (local_peerings (slab w) !! memo_id memo))) as [E|E].
    - rewrite (bool_decide_eq_true_2 _ E). exact E.
    - rewrite (bool_decide_eq_false_2 _ E). apply elem_of_app. right. left. }
  split.
  { destruct known; [reflexivity|]. rewrite alist_get_set.
    rewrite bool_decide_eq_true_2 by reflexivity. reflexivity. }
  split.
  { intros x Hx. destruct known; [reflexivity|]. rewrite alist_get_set.
    rewrite bool_decide_eq_false_2 by exact Hx. reflexivity. }
  repeat split.
Qed.

Lemma registerMemoPeering_records_once_witness :
  let old := default [] (remotes <$> ref_peerings (slab three_puts) !! "m1"%string) in
  let known := truthy_state (alist_get "B"%string old) in
  ∃ w' r',
    registerMemoPeering m1 "m1" "B" 2 false three_puts = (w', Return tt)
    ∧ ref_peerings (slab w') !! "m1"%string = Some r'
    ∧ memo_id m1 ∈ memos r'
    ∧ "m1"%string ∈ default [] (local_peerings (slab w') !! memo_id m1)
    ∧ alist_get "B"%string (remotes r')
      = (if known then alist_get "B"%string old else Some 2)
    ∧ (∀ x, x ≠ "B"%string → alist_get x (remotes r') = alist_get x old)
    ∧ trace w'
      = trace three_puts
          ++ (if known || false then []
              else [SendPeeringChanges (this_id (slab three_puts))
                      [("B"%string, [(memo_id m1, 2)])]])
    ∧ links w' = links three_puts
    ∧ microtasks w' = microtasks three_puts.
Proof.
  apply (registerMemoPeering_records_once m1 "m1" "B" 2 false three_puts).
  apply (bool_decide_unpack _). evaluate.
Defined.

(** X27.  Registering the same peering twice is registering it once: for a
    non-zero state and another slab, the second [registerMemoPeering] changes
    nothing and sends nothing. *)
Theorem registerMemoPeering_idempotent (memo : Memo) (ref remote : string) (st : Z)
    (silent : bool) (w : World) :
  remote ≠ this_id (slab w) →
  st ≠ 0 →
  (registerMemoPeering memo ref remote st silent;;
   registerMemoPeering memo ref remote st silent) w
  = registerMemoPeering memo ref remote st silent w.
Proof.
  intros Hne Hst. rewrite bind_run.
  rewrite (registerMemoPeering_remote memo ref remote st silent w Hne). cbn zeta.
  set (r0 := default (mkRefPeering [] []) (ref_peerings (slab w) !! ref)).
  set (refs := default [] (local_peerings (slab w) !! memo_id memo)).
  set (known := truthy_state (alist_get remote (remotes r0))).
  set (ms := if bool_decide (memo_id memo ∈ memos r0) then memos r0
             else memos r0 ++ [memo_id memo]).
  set (rs := if known then remotes r0 else alist_set remote st (remotes r0)).
  set (refs' := if bool_decide (ref ∈ refs) then refs else refs ++ [ref]).
  match goal with |- registerMemoPeering _ _ _ _ _ ?w1 = _ =>
    rewrite (registerMemoPeering_remote memo ref remote st silent w1) by exact Hne
  end.
  cbn zeta. cbn [slab links trace microtasks].
  assert (ref_peerings
            (set_ref_peerings (<[ref := mkRefPeering ms rs]>)
               (set_local_peerings (<[memo_id memo := refs']>) (slab w))) !! ref
          = Some (mkRefPeering ms rs)) as -> by (simpl; apply lookup_insert_eq).
  assert (local_peerings
            (set_ref_peerings (<[ref := mkRefPeering ms rs]>)
               (set_local_peerings (<[memo_id memo := refs']>) (slab w))) !! memo_id memo
          = Some refs') as -> by (simpl; apply lookup_insert_eq).
  cbn [default from_option id memos remotes].
  assert (memo_id memo ∈ ms) as Hms.
  { unfold ms. destruct (decide (memo_id memo ∈ memos r0)) as [E|E].
    - rewrite (bool_decide_eq_true_2 _ E). exact E.
    - rewrite (bool_decide_eq_false_2 _ E). apply elem_of_app. right. left. }
  assert (ref ∈ refs') as Hrefs.
  { unfold refs'. destruct (decide (ref ∈ refs)) as [E|E].
    - rewrite (bool_decide_eq_true_2 _ E). exact E.
    - rewrite (bool_decide_eq_false_2 _ E). apply elem_of_app. right. left. }
  assert (truthy_state (alist_get remote rs) = true) as Hk.
  { unfold rs. destruct known eqn:Ek; [exact Ek|]. rewrite alist_get_set.
    rewrite bool_decide_eq_true_2 by reflexivity. simpl.
    destruct (Z.eqb_spec st 0); [contradiction|reflexivity]. }
  rewrite (bool_decide_eq_true_2 _ Hms), (bool_decide_eq_true_2 _ Hrefs), Hk.
  cbn [orb]. rewrite app_nil_r. f_equal. f_equal.
  unfold set_ref_peerings, set_local_peerings. cbn. rewrite !insert_insert_eq. reflexivity.
Qed.

Lemma registerMemoPeering_idempotent_witness :
  (registerMemoPeering m1 "m1" "B" 2 false;;
   registerMemoPeering m1 "m1" "B" 2 false) three_puts
  = registerMemoPeering m1 "m1" "B" 2 false three_puts.
Proof.
  apply (registerMemoPeering_idempotent m1 "m1" "B" 2 false three_puts).
  - apply (bool_decide_unpack _). evaluate.
  - discriminate.
Defined.

(** ** Further properties: subscriptions *)

Lemma replication_events_not_added (s : Slab) (memo : Memo) (r : RecordObj)
    (ids : list string) :
  AddedMemos r ids ∉ replication_events s memo.
Proof.
  unfold replication_events. destruct (getMemoPeers s (memo_id memo) true) as [peers|];
    [|apply not_elem_of_nil].
  intros [E|H]%elem_of_cons; [discriminate|].
  apply list_elem_of_fmap in H as (x & E & _). discriminate.
Qed.

(** X28.  A subscribed observer is told once about a new memo of its
    record.  After [subscribeRecord(record)], whether the observer was
    subscribed before or not, [putMemo] of a memo of that record that is
    not resident (below the limit) calls [record.addedMemos([memo])]
    exactly once, as long as the list of subscribers had no repetition,
    which [subscribeRecord] never introduces. *)
Theorem subscribed_observer_notified_once (record : RecordObj) (memo : Memo) (w : World) :
  rid memo = record_id record →
  NoDup (default [] (_records_by_id (slab w) !! record_id record)) →
  _memos_by_id (slab w) !! memo_id memo = None →
  this_size (slab w) ≠ limit (slab w) →
  let w1 := (subscribeRecord record w).1 in
  NoDup (default [] (_records_by_id (slab w1) !! record_id record))
  ∧ ∃ before after,
      trace (putMemo memo w1).1
      = trace w ++ before ++ [AddedMemos record [memo_id memo]] ++ after
      ∧ AddedMemos record [memo_id memo] ∉ before ++ after.
Proof.
  intros Hrid Hnd Hnew Hsize w1.
  set (old := default [] (_records_by_id (slab w) !! record_id record)) in *.
  set (subs := if bool_decide (record ∈ old) then old else old ++ [record]).
  assert (_records_by_id (slab w1) !! record_id record = Some subs) as Esubs
    by (unfold w1, subscribeRecord, update; simpl; apply lookup_insert_eq).
  assert (NoDup subs ∧ record ∈ subs) as [Hnd' Hin].
  { unfold subs. destruct (decide (record ∈ old)) as [E|E].
    - rewrite (bool_decide_eq_true_2 _ E). split; assumption.
    - rewrite (bool_decide_eq_false_2 _ E). split; [|apply elem_of_app; right; left].
      apply NoDup_app. split; [exact Hnd|]. split; [|apply NoDup_singleton].
      intros x Hx ->%list_elem_of_singleton. exact (E Hx). }
  split; [rewrite Esubs; exact Hnd'|].
  rewrite (putMemo_below_limit memo w1 Hnew Hsize). cbn [fst trace].
  change (trace w1) with (trace w).
  rewrite Hrid, Esubs. cbn [default from_option id].
  apply list_elem_of_split in Hin as (l1 & l2 & El). rewrite El in Hnd' |- *.
  apply NoDup_app in Hnd' as (_ & Hd & Hnd2). apply NoDup_cons in Hnd2 as [Hr2 _].
  exists ((λ r, AddedMemos r [memo_id memo]) <$> l1),
         (((λ r, AddedMemos r [memo_id memo]) <$> l2)
            ++ replication_events (stored memo (slab w1)) memo).
  split.
  - rewrite fmap_app, fmap_cons, <- !app_assoc. rewrite <- (app_comm_cons _ _ (AddedMemos record [memo_id memo])).
    reflexivity.
  - rewrite !not_elem_of_app. repeat split.
    + intros (x & [= <-] & Hx)%list_elem_of_fmap. apply (Hd record Hx). left.
    + intros (x & [= <-] & Hx)%list_elem_of_fmap. exact (Hr2 Hx).
    + apply replication_events_not_added.
Qed.

Lemma subscribed_observer_notified_once_witness :
  let w1 := (subscribeRecord observer_R subscribed_p1).1 in
  NoDup (default [] (_records_by_id (slab w1) !! record_id observer_R))
  ∧ ∃ before after,
      trace (putMemo p2 w1).1
      = trace subscribed_p1 ++ before ++ [AddedMemos observer_R [memo_id p2]] ++ after
      ∧ AddedMemos observer_R [memo_id p2] ∉ before ++ after.
Proof.
  apply (subscribed_observer_notified_once observer_R p2 subscribed_p1).
  - reflexivity.
  - decide_by_evaluation.
  - evaluate.
  - decide_by_evaluation.
Defined.

(** ** Further properties: storing at the limit *)

Lemma replication_same_peers (s s' : Slab) (memo : Memo) :
  ref_peerings s' = ref_peerings s →
  mesh s' = mesh s →
  this_id s' = this_id s →
  replication_events s' memo = replication_events s memo
  ∧ replication_promise s' memo = replication_promise s memo.
Proof.
  intros E1 E2 E3. unfold replication_events, replication_promise, getMemoPeers.
  rewrite E1, E2, E3. split; reflexivity.
Qed.

(** [putMemo] of a new memo up to the test of the limit: the memo is in the
    indexes and linked as the tail, the observers have been told. *)
Lemma putMemo_linked (memo : Memo) (w : World) :
  _memos_by_id (slab w) !! memo_id memo = None →
  ∃ w2,
    putMemo memo w
    = ((if bool_decide (this_size (slab w) = limit (slab w))
        then evictMemos
        else update (set_size (λ n, n + 1)));;
       registerMemoPeering memo (memo_id memo) (this_id (slab w)) 2 false;;
       p ← checkMemoReplicationFactor memo;
       enqueue (CatchLog p)) w2
    ∧ _memos_by_id (slab w2) = <[memo_id memo := memo]> (_memos_by_id (slab w))
    ∧ this_head (slab w2)
      = match this_tail (slab w) with Some _ => this_head (slab w) | None => Some memo end
    ∧ this_tail (slab w2) = Some memo
    ∧ this_size (slab w2) = this_size (slab w)
    ∧ quota (slab w2) = quota (slab w)
    ∧ ref_peerings (slab w2) = ref_peerings (slab w)
    ∧ mesh (slab w2) = mesh (slab w)
    ∧ this_id (slab w2) = this_id (slab w)
    ∧ links w2 = match this_tail (slab w) with
                 | Some t => upd_older memo (Some t) (upd_newer t (Some memo) (links w))
                 | None => links w
                 end
    ∧ trace w2 = trace w ++ ((λ r, AddedMemos r [memo_id memo])
                               <$> default [] (_records_by_id (slab w) !! rid memo))
    ∧ microtasks w2 = microtasks w.
Proof.
  intros Hnew.
  destruct (foldl_parent_index (memo_id memo) (parents memo)
              (set_memo_ids_by_record
                 (λ m, <[rid memo := default [] (m !! rid memo) ++ [memo_id memo]]> m)
                 (set_memos_by_id (<[memo_id memo := memo]>) (slab w))))
    as (_ & _ & Eidx).
  cbn zeta in Eidx. set (indexed := foldl _ _ (parents memo)) in *.
  unfold putMemo. rewrite bind_run. unfold this at 1. cbn beta iota.
  rewrite Hnew. rewrite bind_run. unfold update at 1. rewrite bind_run. unfold update at 1.
  rewrite bind_run, forEach_update. rewrite bind_run, forEach_emit.
  cbn [slab links trace microtasks]. fold indexed.
  destruct (this_tail (slab w)) as [t|].
  - rewrite bind_run. unfold set_newer at 1. rewrite bind_run. unfold set_older at 1.
    cbn beta iota. cbn [slab links trace microtasks].
    rewrite bind_run. unfold update at 1. cbn beta iota.
    cbn [slab links trace microtasks]. eexists. split; [reflexivity|].
    cbn [slab links trace microtasks]. rewrite <- Eidx. repeat split; reflexivity.
  - rewrite bind_run. unfold update at 1. rewrite bind_run. unfold update at 1.
    cbn beta iota. cbn [slab links trace microtasks].
    eexists. split; [reflexivity|].
    cbn [slab links trace microtasks]. rewrite <- Eidx. repeat split; reflexivity.
Qed.

(** X5.  At the limit, storing a new memo runs the eviction in place of the
    increment.  The memo is added to [_memos_by_id] and linked as the tail,
    and [size] stays as it was.  On a well-formed LRU list [o], for a memo
    object that carries no link, [putMemo] then hands the first
    [size - quota] memos of [o] followed by the new memo to [evictMemo],
    oldest first (none when [size <= quota]): each is marked as evicting, has
    its replication checked and gets a reaction queued, all before the
    replication check of the new memo itself. *)
Theorem putMemo_at_limit_keeps_size (memo : Memo) (w : World) :
  _memos_by_id (slab w) !! memo_id memo = None →
  this_size (slab w) = limit (slab w) →
  ∃ w', putMemo memo w = (w', Return tt)
    ∧ _memos_by_id (slab w') = <[memo_id memo := memo]> (_memos_by_id (slab w))
    ∧ this_tail (slab w') = Some memo
    ∧ this_size (slab w') = this_size (slab w)
    ∧ ∀ o, lru_repr w o →
           unlinked w memo →
           memo_id memo ∉ memo_id <$> o →
           let victims :=
             take (Z.to_nat (this_size (slab w) - quota (slab w))) (o ++ [memo]) in
           lru_repr w' (o ++ [memo])
           ∧ trace w'
             = trace w
               ++ ((λ r, AddedMemos r [memo_id memo])
                     <$> default [] (_records_by_id (slab w) !! rid memo))
               ++ concat ((λ m, Evicting (memo_id m) true
                                  :: replication_events (slab w) m) <$> victims)
               ++ replication_events (slab w') memo
           ∧ microtasks w'
             = microtasks w
               ++ ((λ m, ThenKill (replication_promise (slab w) m) m) <$> victims)
               ++ [CatchLog (replication_promise (slab w') memo)].
Proof.
  intros Hnew Hsize.
  destruct (putMemo_linked memo w Hnew)
    as (w2 & -> & Em & Eh & Et & Es & Eq & Er & Emesh & Eid & El & Etr & Eq2).
  rewrite bool_decide_eq_true_2 by exact Hsize.
  set (victims2 := λ o : list Memo,
         take (Z.to_nat (this_size (slab w) - quota (slab w))) (o ++ [memo])).
  assert (∃ tr q,
            evictMemos w2
            = (mkWorld (slab w2) (links w2) (trace w2 ++ tr) (microtasks w2 ++ q), Return tt)
            ∧ ∀ o, lru_repr w2 o →
                   tr = concat ((λ m, Evicting (memo_id m) true
                                        :: replication_events (slab w) m)
                                  <$> take (Z.to_nat (this_size (slab w) - quota (slab w))) o)
                   ∧ q = (λ m, ThenKill (replication_promise (slab w) m) m)
                           <$> take (Z.to_nat (this_size (slab w) - quota (slab w))) o)
    as (tr & q & Hev & Hvict).
  { unfold evictMemos. rewrite bind_run. unfold this. cbn beta iota. rewrite Es, Eq.
    destruct (Z.leb_spec (this_size (slab w) - quota (slab w)) 0) as [Hle|Hgt].
    - exists [], []. rewrite !app_nil_r. split; [destruct w2; reflexivity|].
      intros o _. replace (Z.to_nat _) with 0%nat by lia. split; reflexivity.
    - destruct (evict_loop_frame (Z.to_nat (this_size (slab w) - quota (slab w)))
                  (this_head (slab w2)) w2) as (tr & q & Hrun).
      exists tr, q. split; [exact Hrun|]. intros o (_ & Hh & _ & Hc).
      rewrite Hh, (evict_loop_run _ o None w2 Hc) in Hrun. injection Hrun as Etr' Eq'.
      apply app_inv_head in Etr', Eq'. rewrite <- Etr', <- Eq'. split.
      + f_equal. apply list_fmap_ext. intros _ m _.
        destruct (replication_same_peers (slab w) (slab w2) m Er Emesh Eid) as [-> _].
        reflexivity.
      + apply list_fmap_ext. intros _ m _.
        destruct (replication_same_peers (slab w) (slab w2) m Er Emesh Eid) as [_ ->].
        reflexivity. }
  rewrite bind_run, Hev. rewrite bind_run, registerMemoPeering_self
    by (cbn [slab]; symmetry; exact Eid).
  rewrite bind_run, checkMemoReplicationFactor_run. unfold enqueue.
  cbn [slab links trace microtasks].
  destruct (self_peer_fields (memo_id memo) (slab w2)) as (F1 & _ & _ & F4 & F5 & F6 & _).
  eexists. split; [reflexivity|]. cbn [slab links trace microtasks].
  rewrite F1, F4, F6. split; [exact Em|]. split; [exact Et|]. split; [exact Es|].
  intros o Ho Hun Hid. cbn zeta.
  assert (lru_repr w2 (o ++ [memo])) as Ho2
    by (apply (lru_append w w2 o memo Ho Hun Hid Eh Et El)).
  destruct (Hvict _ Ho2) as [-> ->]. split.
  - apply (lru_append w _ o memo Ho Hun Hid); cbn [slab links]; [rewrite F5|rewrite F6|]; assumption.
  - rewrite Etr, Eq2, <- !app_assoc. split; reflexivity.
Qed.

Lemma putMemo_at_limit_keeps_size_witness :
  ∃ w', putMemo m4 basic_lru_before_m4 = (w', Return tt)
    ∧ _memos_by_id (slab w')
      = <[memo_id m4 := m4]> (_memos_by_id (slab basic_lru_before_m4))
    ∧ this_tail (slab w') = Some m4
    ∧ this_size (slab w') = this_size (slab basic_lru_before_m4)
    ∧ ∀ o, lru_repr basic_lru_before_m4 o →
           unlinked basic_lru_before_m4 m4 →
           memo_id m4 ∉ memo_id <$> o →
           let victims :=
             take (Z.to_nat (this_size (slab basic_lru_before_m4)
                             - quota (slab basic_lru_before_m4))) (o ++ [m4]) in
           lru_repr w' (o ++ [m4])
           ∧ trace w'
             = trace basic_lru_before_m4
               ++ ((λ r, AddedMemos r [memo_id m4])
                     <$> default [] (_records_by_id (slab basic_lru_before_m4) !! rid m4))
               ++ concat ((λ m, Evicting (memo_id m) true
                                  :: replication_events (slab basic_lru_before_m4) m)
                            <$> victims)
               ++ replication_events (slab w') m4
           ∧ microtasks w'
             = microtasks basic_lru_before_m4
               ++ ((λ m, ThenKill (replication_promise (slab basic_lru_before_m4) m) m)
                     <$> victims)
               ++ [CatchLog (replication_promise (slab w') m4)].
Proof.
  apply (putMemo_at_limit_keeps_size m4 basic_lru_before_m4).
  - evaluate.
  - evaluate.
Defined.

(** In the scenario "Basic LRU" the put of m4 finds [size = limit = 3] with
    quota 2 and the list m2, m3, m1: it hands over m2, the one memo over the
    quota, and leaves [size] at 3. *)
Example put_m4_hands_over_m2 :
  lru_repr basic_lru_before_m4 [m2; m3; m1]
  ∧ unlinked basic_lru_before_m4 m4
  ∧ this_size (slab (putMemo m4 basic_lru_before_m4).1) = 3
  ∧ trace (putMemo m4 basic_lru_before_m4).1
    = trace basic_lru_before_m4
      ++ [Evicting "m2" true; GetAcceptingSlabIDs ["A"%string] 0;
          GetAcceptingSlabIDs ["A"%string] 0]
  ∧ microtasks (putMemo m4 basic_lru_before_m4).1
    = [ThenKill (Fulfilled None) m2; CatchLog (Fulfilled None)].
Proof.
  split; [split; [decide_by_evaluation|evaluate]|].
  split; [split; evaluate|]. evaluate.
Qed.

(** ** The size counter *)

Section within_limit.
Variable L : Z.

Lemma within_limit_update (f : Slab → Slab) :
  (∀ s, limit (f s) = limit s ∧ this_size (f s) ≤ this_size s) →
  preserves (within_limit L) (update f).
Proof.
  intros Hf w [Hl Hs]. destruct (Hf (slab w)) as [El Es]. split; simpl; [congruence|].
  intros H0. specialize (Hs H0). lia.
Qed.

Ltac keeps_limit :=
  repeat first
    [ keeps_step
    | (apply within_limit_update; intros ?; split; [reflexivity|simpl; lia])
    | (intros w Hw; exact Hw) ].

Lemma checkMemoReplicationFactor_limit (memo : Memo) :
  preserves (within_limit L) (checkMemoReplicationFactor memo).
Proof. unfold checkMemoReplicationFactor. keeps_limit. Qed.

Lemma evictMemo_limit (arg : MemoArg) : preserves (within_limit L) (evictMemo arg).
Proof. unfold evictMemo. keeps_limit. apply checkMemoReplicationFactor_limit. Qed.

Lemma evict_loop_limit (ct : nat) : ∀ memo, preserves (within_limit L) (evict_loop ct memo).
Proof.
  induction ct as [|ct IH]; intros [m|]; simpl; try apply preserves_ret.
  apply preserves_bind; [apply evictMemo_limit|]. intros _.
  apply preserves_bind; [intros w Hw; exact Hw|]. intros newer. apply IH.
Qed.

Lemma evictMemos_limit : preserves (within_limit L) evictMemos.
Proof.
  unfold evictMemos. apply preserves_bind; [apply preserves_this|]. intros s.
  destruct (_ <=? 0); [apply preserves_ret|apply evict_loop_limit].
Qed.

Lemma updateMemoPeerings_limit (memo : Memo) (peerings : list (string * list (string * Z)))
    (silent : bool) :
  preserves (within_limit L) (updateMemoPeerings memo peerings silent).
Proof.
  intros w Hw. unfold updateMemoPeerings.
  rewrite bind_run. unfold update at 1. rewrite bind_run. unfold this at 1.
  cbn [slab links trace microtasks]. cbn beta iota.
  destruct (foldl_note_ref_frame (memo_id memo) peerings
              (set_local_peerings
                 (λ lp, <[memo_id memo := default [] (lp !! memo_id memo)]> lp) (slab w)) [])
    as (lp & rp & E).
  destruct (foldl (note_ref (memo_id memo)) _ peerings) as [s' changes].
  simpl in E. subst s'. rewrite bind_run. unfold update at 1.
  cbn [slab links trace microtasks]. destruct (_ && _); exact Hw.
Qed.

Lemma deregisterPeeringForMemo_limit (memo : Memo) :
  preserves (within_limit L) (deregisterPeeringForMemo memo).
Proof.
  intros w Hw. unfold deregisterPeeringForMemo. rewrite bind_run. unfold this at 1.
  cbn beta iota.
  destruct (deregister_refs_frame (memo_id memo)
              (default [] (local_peerings (slab w) !! memo_id memo)) (slab w) []) as [rp E].
  destruct (deregister_refs _ _ (slab w) []) as [[s' changes] [e|]]; simpl in E; subst s';
    exact Hw.
Qed.

Lemma killMemo_limit (arg : MemoArg) : preserves (within_limit L) (killMemo arg).
Proof.
  unfold killMemo.
  repeat first
    [ keeps_step
    | apply deregisterPeeringForMemo_limit
    | (apply within_limit_update; intros ?; split; [reflexivity|simpl; lia])
    | (intros w Hw; exact Hw) ].
Qed.

Lemma getMemo_limit (i : string) : preserves (within_limit L) (getMemo i).
Proof. unfold getMemo. keeps_limit. Qed.

Lemma head_loop_limit (ids : list string) :
  ∀ head, preserves (within_limit L) (head_loop ids head).
Proof.
  induction ids as [|i ids IH]; intros head; simpl; [apply preserves_ret|].
  apply preserves_bind; [apply getMemo_limit|]. intros [memo|]; [|apply preserves_throw].
  apply preserves_bind; [apply preserves_this|]. intros s.
  destruct (negb _); apply IH.
Qed.

Lemma getHeadMemosForRecord_limit (r : string) :
  preserves (within_limit L) (getHeadMemosForRecord r).
Proof.
  unfold getHeadMemosForRecord. apply preserves_bind; [apply preserves_this|].
  intros s. apply head_loop_limit.
Qed.

(** The increment of [putMemo] is guarded by the slab as it was when the
    method was entered; the steps before it leave [size] and [limit] alone. *)
Lemma putMemo_limit (memo : Memo) : preserves (within_limit L) (putMemo memo).
Proof.
  intros w Hw.
  destruct (_memos_by_id (slab w) !! memo_id memo) as [m'|] eqn:Hm.
  { assert (putMemo memo w = (w, Return tt)) as ->; [|exact Hw].
    unfold putMemo. rewrite bind_run. unfold this at 1. cbn beta iota.
    rewrite Hm. reflexivity. }
  destruct (foldl_parent_index (memo_id memo) (parents memo)
              (set_memo_ids_by_record
                 (λ m, <[rid memo := default [] (m !! rid memo) ++ [memo_id memo]]> m)
                 (set_memos_by_id (<[memo_id memo := memo]>) (slab w))))
    as (_ & _ & Eidx).
  cbn zeta in Eidx. set (indexed := foldl _ _ (parents memo)) in *.
  assert (∃ w2, putMemo memo w
                = ((if bool_decide (this_size (slab w) = limit (slab w))
                    then evictMemos
                    else update (set_size (λ n, n + 1)));;
                   registerMemoPeering memo (memo_id memo) (this_id (slab w)) 2 false;;
                   p ← checkMemoReplicationFactor memo;
                   enqueue (CatchLog p)) w2
                ∧ this_size (slab w2) = this_size (slab w)
                ∧ limit (slab w2) = limit (slab w)) as (w2 & -> & Es & El).
  { unfold putMemo. rewrite bind_run. unfold this at 1. cbn beta iota.
    rewrite Hm. rewrite bind_run. unfold update at 1. rewrite bind_run. unfold update at 1.
    rewrite bind_run, forEach_update. rewrite bind_run, forEach_emit.
    cbn [slab links trace microtasks]. fold indexed.
    destruct (this_tail (slab w)) as [t|].
    - rewrite bind_run. unfold set_newer at 1. rewrite bind_run. unfold set_older at 1.
      cbn beta iota. cbn [slab links trace microtasks].
      rewrite bind_run. unfold update at 1. cbn beta iota.
      cbn [slab links trace microtasks]. eexists. split; [reflexivity|].
      cbn [slab]. rewrite <- Eidx. split; reflexivity.
    - rewrite bind_run. unfold update at 1. rewrite bind_run. unfold update at 1.
      cbn beta iota. cbn [slab links trace microtasks].
      eexists. split; [reflexivity|]. cbn [slab]. rewrite <- Eidx. split; reflexivity. }
  destruct Hw as [Hl Hs].
  assert (within_limit L w2) as Hw2 by (split; [congruence|intros H0; specialize (Hs H0); lia]).
  revert w2 Es El Hw2.
  assert (∀ w2, this_size (slab w2) = this_size (slab w) → limit (slab w2) = limit (slab w) →
                within_limit L w2 →
                within_limit L
                  ((if bool_decide (this_size (slab w) = limit (slab w))
                    then evictMemos
                    else update (set_size (λ n, n + 1))) w2).1) as Hstep.
  { intros w2 Es El Hw2. destruct (decide (this_size (slab w) = limit (slab w))) as [E|E].
    - rewrite (bool_decide_eq_true_2 _ E). apply evictMemos_limit, Hw2.
    - rewrite (bool_decide_eq_false_2 _ E). destruct Hw2 as [Hl2 Hs2].
      split; simpl; [exact Hl2|]. intros H0. specialize (Hs2 H0). lia. }
  intros w2 Es El Hw2. rewrite bind_run. specialize (Hstep w2 Es El Hw2).
  destruct ((if bool_decide (this_size (slab w) = limit (slab w))
             then evictMemos else update (set_size (λ n, n + 1))) w2) as [w3 [[]|e]];
    [|exact Hstep].
  cbn [fst] in Hstep. revert w3 Hstep.
  change (preserves (within_limit L)
            (registerMemoPeering memo (memo_id memo) (this_id (slab w)) 2 false;;
             p ← checkMemoReplicationFactor memo;
             enqueue (CatchLog p))).
  apply preserves_bind; [apply updateMemoPeerings_limit|]. intros _.
  apply preserves_bind; [apply checkMemoReplicationFactor_limit|].
  intros p w3 Hw3. exact Hw3.
Qed.

Lemma perform_limit (c : Call) : preserves (within_limit L) (perform c).
Proof.
  destruct c as [memo|i|arg|arg| |memo|memo ref remote st silent|memo peerings silent
                |sender change|memo|r|r|rec| ]; simpl.
  - apply putMemo_limit.
  - apply preserves_bind; [apply getMemo_limit|intros ?; apply preserves_ret].
  - apply killMemo_limit.
  - apply evictMemo_limit.
  - apply evictMemos_limit.
  - apply preserves_bind; [apply checkMemoReplicationFactor_limit|intros ?; apply preserves_ret].
  - apply updateMemoPeerings_limit.
  - apply updateMemoPeerings_limit.
  - intros w Hw. unfold receivePeeringChange, update. simpl.
    destruct (receive_fold_frame sender change (slab w)) as [rp E].
    unfold within_limit. simpl. rewrite E. exact Hw.
  - apply deregisterPeeringForMemo_limit.
  - apply preserves_bind; [apply getHeadMemosForRecord_limit|intros ?; apply preserves_ret].
  - apply preserves_bind; [|intros ?; apply preserves_ret].
    unfold getHeadMemoIDsForRecord.
    apply preserves_bind; [apply getHeadMemosForRecord_limit|intros ?; apply preserves_ret].
  - intros w Hw. exact Hw.
  - apply preserves_bind; [|intros ?; apply preserves_ret].
    unfold genChildID. keeps_limit.
Qed.

Lemma run_task_limit (t : Task) : preserves (within_limit L) (run_task t).
Proof.
  destruct t as [[v|e] memo|[v|e]]; simpl; try (intros w Hw; exact Hw).
  destruct (truthy_value v); [|apply preserves_ret]. intros w Hw.
  pose proof (killMemo_limit (ByObj memo) w Hw) as H.
  destruct (killMemo (ByObj memo) w) as [w' [[]|e]]; exact H.
Qed.

Lemma drain_limit (w : World) : within_limit L w → within_limit L (drain w).
Proof.
  intros Hw. unfold drain.
  assert (within_limit L (mkWorld (slab w) (links w) (trace w) [])) as H0 by exact Hw.
  revert H0. generalize (mkWorld (slab w) (links w) (trace w) []).
  induction (microtasks w) as [|t q IH]; intros w0 H0; [exact H0|].
  simpl. apply IH, run_task_limit, H0.
Qed.
End within_limit.

Lemma reachable_limit (w : World) : reachable w → within_limit (limit (slab w)) w.
Proof.
  induction 1 as [k args w Hnew|c w Hw IH].
  - apply new_Slab_fresh in Hnew as (i & q & l & m & ->). split; [reflexivity|].
    intros H0. exact H0.
  - pose proof (drain_limit _ _ (perform_limit _ c w IH)) as H. destruct H as [El Hs].
    unfold call. rewrite El. split; [exact El|exact Hs].
Qed.

(** ** Eviction of memos that want replicas *)

Lemma chain_unique (h : gmap string Links) (o : list Memo) :
  ∀ (prev : option Memo) (o' : list Memo),
    chain h prev o None → chain h prev o' None → head o = head o' → o = o'.
Proof.
  induction o as [|m o IH]; intros prev o' Hc Hc' Hh.
  - destruct o'; [reflexivity|discriminate].
  - destruct o' as [|m' o']; [discriminate|]. injection Hh as <-.
    destruct Hc as (_ & Hn & Hc), Hc' as (_ & Hn' & Hc').
    rewrite from_option_Some_None in Hn, Hn'. f_equal.
    apply (IH (Some m) o' Hc Hc'). congruence.
Qed.

Lemma lru_repr_unique (w : World) (o o' : list Memo) :
  lru_repr w o → lru_repr w o' → o = o'.
Proof.
  intros (_ & Hh & _ & Hc) (_ & Hh' & _ & Hc').
  apply (chain_unique (links w) o None o' Hc Hc'). congruence.
Qed.

Section eviction.
Variable U : string → Memo.
Hypothesis U_id : ∀ i, memo_id (U i) = i.
Hypothesis U_parents : ∀ i, parents (U i) = [].

Lemma killMemo_tidy (memo : Memo) (w : World) (o : list Memo) :
  tidy U w →
  lru_repr w o →
  _memos_by_id (slab w) !! memo_id memo = Some memo →
  (_records_by_id (slab w) !! rid memo = None
   ∨ truthy_string (_memo_ids_by_parent (slab w) !! memo_id memo) = true) →
  ∃ w', killMemo (ByObj memo) w = (w', Return tt)
        ∧ tidy U w'
        ∧ lru_repr w' (filter (λ x, memo_id x ≠ memo_id memo) o)
        ∧ _memos_by_id (slab w') = delete (memo_id memo) (_memos_by_id (slab w))
        ∧ this_size (slab w') = this_size (slab w) - 1
        ∧ _memo_ids_by_parent (slab w') = _memo_ids_by_parent (slab w)
        ∧ _records_by_id (slab w') = _records_by_id (slab w)
        ∧ microtasks w' = microtasks w.
Proof using U_id U_parents.
  intros (Hs & Hp & o0 & Ho0) Hrepr Hm Hfree.
  assert (o0 = o) as -> by (apply (lru_repr_unique w); [apply Ho0|exact Hrepr]).
  destruct Ho0 as [_ Hmem]. pose proof Hs as ((H1 & [_ H3] & _) & _).
  assert (is_object U memo) as Hobj.
  { unfold is_object. rewrite <- (H1 _ memo Hm). reflexivity. }
  destruct (H3 _ memo Hm) as (mbr & Hmbr & _). pose proof Hp as [P1 _].
  destruct (killMemo_run memo memo w o mbr Hrepr) as (w' & changes & Hk & E1 & _ & E3 & E4 & E5
                                                       & _ & _ & _ & E6 & Hrepr').
  - apply Hmem, Hm.
  - exact Hm.
  - exact Hfree.
  - rewrite Hobj. apply U_parents.
  - exact Hmbr.
  - destruct (local_peerings (slab w) !! memo_id memo) as [l|] eqn:E; simpl.
    + apply (P1 _ l E).
    + apply NoDup_nil_2.
  - intros r Hr. destruct (local_peerings (slab w) !! memo_id memo) as [l|] eqn:E;
      simpl in Hr; [|inversion Hr].
    destruct (P1 _ l E) as [_ Hx]. destruct (Hx r Hr) as (rp & -> & _). eauto.
  - exists w'. split; [exact Hk|].
    assert (w' = (killMemo (ByObj memo) w).1) as Ew by (rewrite Hk; reflexivity).
    split; [|split; [exact Hrepr'|]].
    + split; [rewrite Ew; apply (sound_killMemo U U_id (ByObj memo) Hobj w Hs)|].
      split; [rewrite Ew; apply (killMemo_peering (ByObj memo) w Hp)|].
      eexists. split; [exact Hrepr'|]. intros x. rewrite E1, list_elem_of_filter, Hmem.
      destruct (decide (memo_id x = memo_id memo)) as [E|E].
      * rewrite E, lookup_delete_eq. split; [intros [? _]; contradiction|discriminate].
      * rewrite lookup_delete_ne by congruence. tauto.
    + repeat (split; [assumption|]). exact E6.
Qed.

Lemma drain_kills (victims : list Memo) :
  ∀ (w : World) (rest : list Memo),
    tidy U w →
    lru_repr w (victims ++ rest) →
    Forall (λ m, _records_by_id (slab w) !! rid m = None
                 ∨ truthy_string (_memo_ids_by_parent (slab w) !! memo_id m) = true)
           victims →
    let w' := foldl (λ w t, (run_task t w).1) w
                    (ThenKill (Fulfilled (Some true)) <$> victims) in
    tidy U w'
    ∧ lru_repr w' rest
    ∧ _memos_by_id (slab w')
      = foldl (λ acc m, delete (memo_id m) acc) (_memos_by_id (slab w)) victims
    ∧ this_size (slab w') = this_size (slab w) - Z.of_nat (length victims)
    ∧ microtasks w' = microtasks w.
Proof using U_id U_parents.
  induction victims as [|m vs IH]; intros w rest Ht Hr Hfree; cbn zeta.
  - simpl. repeat (split; [assumption || reflexivity|]). split; [lia|reflexivity].
  - rewrite fmap_cons. cbn [foldl]. inversion Hfree as [|? ? Hm Hvs]; subst.
    pose proof Ht as (_ & _ & o0 & Ho0).
    assert (o0 = (m :: vs) ++ rest) as ->
      by (apply (lru_repr_unique w); [apply Ho0|exact Hr]).
    destruct Ho0 as [_ Hmem].
    assert (_memos_by_id (slab w) !! memo_id m = Some m) as Hres
      by (apply Hmem; left).
    destruct (killMemo_tidy m w _ Ht Hr Hres Hm)
      as (w1 & Hk & Ht1 & Hr1 & E1 & E2 & E3 & E4 & E5).
    assert ((run_task (ThenKill (Fulfilled (Some true)) m) w).1 = w1) as ->.
    { unfold run_task. cbn [truthy_value]. rewrite Hk. reflexivity. }
    assert (filter (λ x, memo_id x ≠ memo_id m) ((m :: vs) ++ rest) = vs ++ rest) as Ef.
    { destruct Hr as (Hnd & _). rewrite <- app_comm_cons, fmap_cons in Hnd.
      apply NoDup_cons in Hnd as [Hni _]. rewrite <- app_comm_cons.
      rewrite filter_cons_False by (intros H; apply H; reflexivity).
      apply filter_ids_ne. intros x Hx E. apply Hni. rewrite <- E.
      apply list_elem_of_fmap_2, Hx. }
    rewrite Ef in Hr1.
    destruct (IH w1 rest Ht1 Hr1) as (Ht' & Hr' & F1 & F2 & F3).
    { rewrite E3, E4. exact Hvs. }
    split; [exact Ht'|]. split; [exact Hr'|].
    split; [rewrite F1, E1; reflexivity|].
    split; [rewrite F2, E2; cbn [length]; lia|].
    rewrite F3. exact E5.
Qed.

Lemma tidy_quiet (w : World) (t : list Event) :
  tidy U w → tidy U (mkWorld (slab w) (links w) t []).
Proof.
  intros ((H1 & H2 & H3 & _) & Hp & o & (Hnd & Hh & Ht & Hc) & Hmem).
  split; [|split; [exact Hp|exists o; split; [|exact Hmem]]].
  - split; [exact H1|]. split; [exact H2|]. split; [exact H3|]. constructor.
  - split; [exact Hnd|]. split; [exact Hh|]. split; [exact Ht|exact Hc].
Qed.

Lemma call_evictMemos_wanted (w : World) (o : list Memo) :
  tidy U w →
  microtasks w = [] →
  lru_repr w o →
  let ct := Z.to_nat (this_size (slab w) - quota (slab w)) in
  Forall (λ m, 0 < desiredReplicas m
               ∧ is_Some (ref_peerings (slab w) !! memo_id m)
               ∧ (_records_by_id (slab w) !! rid m = None
                  ∨ truthy_string (_memo_ids_by_parent (slab w) !! memo_id m) = true))
         (take ct o) →
  let w' := call evictMemos w in
  tidy U w'
  ∧ lru_repr w' (drop ct o)
  ∧ _memos_by_id (slab w')
    = foldl (λ acc m, delete (memo_id m) acc) (_memos_by_id (slab w)) (take ct o)
  ∧ this_size (slab w') = this_size (slab w) - Z.of_nat (length (take ct o))
  ∧ microtasks w' = [].
Proof using U_id U_parents.
  intros Ht Hq Hr ct Hall w'.
  assert (∃ t, w' = foldl (λ w t, (run_task t w).1) (mkWorld (slab w) (links w) t [])
                      (ThenKill (Fulfilled (Some true)) <$> take ct o)) as [t Ew].
  { unfold w', call, evictMemos. rewrite bind_run. unfold this. cbn beta iota.
    destruct (Z.leb_spec (this_size (slab w) - quota (slab w)) 0) as [Hle|Hgt].
    - exists (trace w). assert (ct = 0%nat) as -> by (unfold ct; lia).
      unfold drain. cbn. rewrite Hq. reflexivity.
    - pose proof Hr as (_ & Hh & _ & Hc). rewrite Hh.
      rewrite (evict_loop_run _ o None w Hc), Hq. fold ct. eexists.
      unfold drain. cbn [fst slab links trace microtasks app]. f_equal.
      apply Forall_fmap_ext_1. apply (Forall_impl _ _ _ Hall).
      intros m (Hd & [rp Hrp] & _).
      rewrite (replication_promise_wanted _ m Hd), Hrp. reflexivity. }
  rewrite Ew.
  destruct (drain_kills (take ct o) (mkWorld (slab w) (links w) t []) (drop ct o))
    as (Ht' & Hr' & F1 & F2 & F3).
  - apply tidy_quiet, Ht.
  - rewrite take_drop. destruct Hr as (Hnd & Hh & Htl & Hc).
    split; [exact Hnd|]. split; [exact Hh|]. split; [exact Htl|exact Hc].
  - apply (Forall_impl _ _ _ Hall). intros m (_ & _ & Hfree). exact Hfree.
  - split; [exact Ht'|]. split; [exact Hr'|]. split; [exact F1|]. split; [exact F2|exact F3].
Qed.
End eviction.

(** ** Further properties: the size counter and eviction *)

Lemma reachable_tidy_reachable (U : string → Memo) (w : World) :
  reachable_tidy U w → reachable w.
Proof.
  induction 1 as [k args w Hnew|c w _ _ IH].
  - exact (reachable_new k args w Hnew).
  - apply reachable_call, IH.
Qed.

Lemma slab_A_1_10_new :
  (new_Slab 0 (Some (mkSlabArgs (Some "A"%string) (Some eager_mesh) (Some 1) (Some 10)))).2
  = Return (slab_A eager_mesh 1 10).
Proof. reflexivity. Qed.

Lemma over_quota_reachable_tidy : reachable_tidy objects_replicated over_quota.
Proof.
  apply (reachable_tidy_call objects_replicated (PutMemo m6)).
  { split; [reflexivity|]. right. split; evaluate. }
  apply (reachable_tidy_call objects_replicated (PutMemo m5)).
  { split; [reflexivity|]. right. split; evaluate. }
  exact (reachable_tidy_new objects_replicated 0 _ _ slab_A_1_10_new).
Qed.

Lemma over_quota_order : lru_repr over_quota [m5; m6].
Proof.
  split; [decide_by_evaluation|].
  evaluate.
Qed.

Lemma lookup_foldl_delete (l : list Memo) :
  ∀ (M : gmap string Memo) (i : string),
    foldl (λ acc m, delete (memo_id m) acc) M l !! i
    = if bool_decide (i ∈ memo_id <$> l) then None else M !! i.
Proof.
  induction l as [|m l IH]; intros M i.
  - rewrite bool_decide_eq_false_2 by (intros H; inversion H). reflexivity.
  - cbn [foldl]. rewrite IH, fmap_cons.
    destruct (decide (i ∈ memo_id <$> l)) as [Hi|Hi].
    + rewrite !bool_decide_eq_true_2; [reflexivity|right; exact Hi|exact Hi].
    + rewrite (bool_decide_eq_false_2 _ Hi).
      destruct (decide (i = memo_id m)) as [->|Hne].
      * rewrite bool_decide_eq_true_2 by left. apply lookup_delete_eq.
      * rewrite bool_decide_eq_false_2
          by (intros H; apply elem_of_cons in H as [H|H]; [exact (Hne H)|exact (Hi H)]).
        apply lookup_delete_ne. congruence.
Qed.

(** X29.  The size counter stays within the limit.  In every world a program
    can reach by constructing a slab, calling its methods with any arguments
    (whether they return or throw) and letting the queued reactions run, a
    limit that is not negative bounds [size]: [size <= limit]. *)
Theorem size_within_limit (w : World) :
  reachable w → 0 ≤ limit (slab w) → this_size (slab w) ≤ limit (slab w).
Proof.
  intros Hw H0. destruct (reachable_limit w Hw) as [_ H]. exact (H H0).
Qed.

Lemma size_within_limit_witness :
  this_size (slab basic_lru) ≤ limit (slab basic_lru).
Proof.
  apply (size_within_limit basic_lru).
  - exact (reachable_tidy_reachable objects_m basic_lru basic_lru_reachable_tidy).
  - decide_by_evaluation.
Defined.

(** X30.  [evictMemos] removes the least recently used memos that are over
    the quota.  For callers that pass one memo object per id, whose memos
    have no parents and who store only memo objects that are resident
    already or carry no [_newer] and [_older] link: when no reaction is
    pending, the LRU list is [o] and each of the first [size - quota] memos
    of [o] wants a replica ([desiredReplicas > 0]), has an entry in
    [ref_peerings] and is not a head memo of a subscribed record (a memo of
    a record of [_records_by_id] without entry in [_memo_ids_by_parent]),
    then [evictMemos] followed by its reactions removes exactly these
    memos from [_memos_by_id], lowers [size] by their number and leaves
    the rest of [o] as the LRU list, in the same order. *)
Theorem evictMemos_removes_least_recent (U : string → Memo) (w : World) (o : list Memo) :
  (∀ i, memo_id (U i) = i) →
  (∀ i, parents (U i) = []) →
  reachable_tidy U w →
  microtasks w = [] →
  lru_repr w o →
  Forall (λ m, 0 < desiredReplicas m
               ∧ is_Some (ref_peerings (slab w) !! memo_id m)
               ∧ (_records_by_id (slab w) !! rid m = None
                  ∨ truthy_string (_memo_ids_by_parent (slab w) !! memo_id m) = true))
         (take (Z.to_nat (this_size (slab w) - quota (slab w))) o) →
  let victims := take (Z.to_nat (this_size (slab w) - quota (slab w))) o in
  let w' := call evictMemos w in
  lru_repr w' (drop (Z.to_nat (this_size (slab w) - quota (slab w))) o)
  ∧ (∀ i, _memos_by_id (slab w') !! i
          = if bool_decide (i ∈ memo_id <$> victims) then None
            else _memos_by_id (slab w) !! i)
  ∧ this_size (slab w') = this_size (slab w) - Z.of_nat (length victims)
  ∧ microtasks w' = [].
Proof.
  intros U_id U_parents Hw Hq Hr Hall victims w'.
  destruct (call_evictMemos_wanted U U_id U_parents w o
              (reachable_tidy_tidy U U_id U_parents w Hw) Hq Hr Hall)
    as (_ & Hr' & E1 & E2 & E3).
  split; [exact Hr'|]. split; [|split; [exact E2|exact E3]].
  intros i. unfold w'. rewrite E1. apply lookup_foldl_delete.
Qed.

Lemma evictMemos_removes_least_recent_witness :
  let w' := call evictMemos over_quota in
  lru_repr w' [m6]
  ∧ (∀ i, _memos_by_id (slab w') !! i
          = if bool_decide (i ∈ memo_id <$> [m5]) then None
            else _memos_by_id (slab over_quota) !! i)
  ∧ this_size (slab w') = this_size (slab over_quota) - Z.of_nat (length [m5])
  ∧ microtasks w' = [].
Proof.
  apply (evictMemos_removes_least_recent objects_replicated over_quota [m5; m6]).
  - intros i. reflexivity.
  - intros i. reflexivity.
  - exact over_quota_reachable_tidy.
  - reflexivity.
  - exact over_quota_order.
  - constructor; [|constructor].
    split; [reflexivity|]. split; [eexists; vm_compute; reflexivity|].
    left. reflexivity.
Defined.
